(** * YOLOv11 post-processing pipeline (src/src/yolo11.cpp)

    A shallow embedding of the detection post-processing code: the
    descending quicksort, the greedy NMS, the tensor decoder, the letterbox
    arithmetic of [YoloV11::detect] and the inverse coordinate mapping.

    C++ [float] is IEEE-754 binary32.  It is modelled by [spec_float] with
    precision 24 and [emax] 128, so that every operation rounds to nearest
    even exactly as the hardware does, NaN compares false with everything,
    and [0/0] is NaN.  C++ [int] values are modelled in [Z]; every [int]
    that occurs in the modelled functions is an index or a size bounded by
    the size of a vector, or a pixel dimension. *)

From Stdlib Require Import ZArith Lia Bool Sorted.
From Stdlib Require Import Floats.SpecFloat.
From stdpp Require Import base option list.

Open Scope Z_scope.

(** ** binary32 *)

Module F32.

Definition prec : Z := 24.
Definition emax : Z := 128.

Definition float32 := spec_float.

Definition add : float32 -> float32 -> float32 := SFadd prec emax.
Definition sub : float32 -> float32 -> float32 := SFsub prec emax.
Definition mul : float32 -> float32 -> float32 := SFmul prec emax.
Definition div : float32 -> float32 -> float32 := SFdiv prec emax.

(** [a < b], [a > b], [a <= b] of C++: false as soon as one side is NaN. *)
Definition lt (a b : float32) : bool := SFltb a b.
Definition gt (a b : float32) : bool := SFltb b a.
Definition le (a b : float32) : bool := SFleb a b.

Definition is_nan (a : float32) : bool :=
  match a with S754_nan => true | _ => false end.

Definition is_zero (a : float32) : bool :=
  match a with S754_zero _ => true | _ => false end.

(** [(float)n] for an [int] n. *)
Definition of_int (n : Z) : float32 := binary_normalize prec emax n 0 false.

(** The literals of the source. *)
Definition zero : float32 := S754_zero false.          (* 0.f *)
Definition half : float32 := S754_finite false 8388608 (-24).  (* 0.5f *)
Definition one : float32 := S754_finite false 8388608 (-23).   (* 1.f *)

(** Conversion of a [float] to [int]: truncation toward zero; undefined
    (here [None]) for NaN, the infinities and values outside [int]. *)
Definition int_min : Z := - 2 ^ 31.
Definition int_max : Z := 2 ^ 31 - 1.

Definition trunc (a : float32) : option Z :=
  match a with
  | S754_zero _ => Some 0
  | S754_finite s m e =>
      let mag := if 0 <=? e then Z.pos m * 2 ^ e else Z.pos m / 2 ^ (- e) in
      let v := if s then - mag else mag in
      if (int_min <=? v) && (v <=? int_max) then Some v else None
  | _ => None
  end.

(** [std::min(a, b)] is [(b < a) ? b : a]; [std::max(a, b)] is
    [(a < b) ? b : a]. *)
Definition std_min (a b : float32) : float32 := if lt b a then b else a.
Definition std_max (a b : float32) : float32 := if lt a b then b else a.

End F32.

Import F32.

(** ** Objects *)

(** [cv::Rect_<float>]. *)
Record Rect := mkRect { rx : float32; ry : float32; rwidth : float32; rheight : float32 }.

Record Object := mkObject { rect : Rect; label : Z; prob : float32 }.

(** OpenCV is a dependency, not part of the repository.  The three members
    of [cv::Rect_<float>] the code calls are given as in the OpenCV 4.12
    header the README builds ([core/types.hpp]). *)
Module CV.

Definition empty (r : Rect) : bool :=
  le (rwidth r) zero || le (rheight r) zero.

Definition area (r : Rect) : float32 := mul (rwidth r) (rheight r).

(** [Rect()]. *)
Definition Rect0 : Rect := mkRect zero zero zero zero.

(** [a & b]. *)
Definition inter (a b : Rect) : Rect :=
  if empty a || empty b then Rect0
  else
    let Rx_min := if lt (rx a) (rx b) then a else b in
    let Rx_max := if lt (rx a) (rx b) then b else a in
    let Ry_min := if lt (ry a) (ry b) then a else b in
    let Ry_max := if lt (ry a) (ry b) then b else a in
    if (lt (rx Rx_min) zero && lt (add (rx Rx_min) (rwidth Rx_min)) (rx Rx_max))
       || (lt (ry Ry_min) zero && lt (add (ry Ry_min) (rheight Ry_min)) (ry Ry_max))
    then Rect0
    else
      let w := std_min (sub (rwidth Rx_min) (sub (rx Rx_max) (rx Rx_min))) (rwidth Rx_max) in
      let h := std_min (sub (rheight Ry_min) (sub (ry Ry_max) (ry Ry_min))) (rheight Ry_max) in
      let r := mkRect (rx Rx_max) (ry Ry_max) w h in
      if empty r then Rect0 else r.

End CV.

Definition intersection_area (a b : Object) : float32 :=
  CV.area (CV.inter (rect a) (rect b)).

(** ** NMS filter: [nms_sorted_bboxes] *)

(** [inter_area / union_area] as the inner loop computes it for the
    candidate [a] (area [ai]) against the kept object [b] (area [aj]). *)
Definition union_area (ai aj inter_area : float32) : float32 :=
  sub (add ai aj) inter_area.

Definition IoU (a b : Object) : float32 :=
  let inter_area := intersection_area a b in
  div inter_area (union_area (CV.area (rect a)) (CV.area (rect b)) inter_area).

(** The loops carry, next to the program state, the list of the divisions
    performed, as pairs (numerator, denominator) in execution order.  The
    list is ghost state: no decision of the code reads it. *)
Definition div_log := list (float32 * float32).

(** The body of [for (int j : picked)], run over the kept indices [js]. *)
Fixpoint nms_inner (faceobjects : list Object) (areas : list float32)
    (nms_threshold : float32) (agnostic : bool) (i : nat) (a : Object)
    (js : list nat) (keep : bool) (log : div_log) : option (bool * div_log) :=
  match js with
  | [] => Some (keep, log)
  | j :: js' =>
      b ← faceobjects !! j;
      if negb agnostic && negb (label a =? label b)
      then nms_inner faceobjects areas nms_threshold agnostic i a js' keep log
      else
        let inter_area := intersection_area a b in
        ai ← areas !! i;
        aj ← areas !! j;
        let u := union_area ai aj inter_area in
        let keep' := if gt (div inter_area u) nms_threshold then false else keep in
        nms_inner faceobjects areas nms_threshold agnostic i a js' keep'
          (log ++ [(inter_area, u)])
  end.

(** [for (int i = ...; i < n; i++)], with [todo = n - i] iterations left. *)
Fixpoint nms_outer (faceobjects : list Object) (areas : list float32)
    (nms_threshold : float32) (agnostic : bool) (todo i : nat)
    (picked : list nat) (log : div_log) : option (list nat * div_log) :=
  match todo with
  | O => Some (picked, log)
  | S todo' =>
      a ← faceobjects !! i;
      '(keep, log') ← nms_inner faceobjects areas nms_threshold agnostic i a picked true log;
      nms_outer faceobjects areas nms_threshold agnostic todo' (S i)
        (if keep : bool then picked ++ [i] else picked) log'
  end.

Definition nms_run (faceobjects : list Object) (nms_threshold : float32)
    (agnostic : bool) : option (list nat * div_log) :=
  let n := length faceobjects in
  let areas := map (fun o => CV.area (rect o)) faceobjects in
  nms_outer faceobjects areas nms_threshold agnostic n 0 [] [].

Definition nms_sorted_bboxes (faceobjects : list Object) (nms_threshold : float32)
    (agnostic : bool) : option (list nat) :=
  fst <$> nms_run faceobjects nms_threshold agnostic.

(** The objects at the picked indices, [proposals[picked[i]]]. *)
Definition select (objs : list Object) (picked : list nat) : option (list Object) :=
  mapM (fun j => objs !! j) picked.

(** ** Sorter: [qsort_descent_inplace] *)

(** [objects[i]] for an [int] index; reading outside the vector is
    undefined behaviour, [None] here. *)
Definition at_index (objects : list Object) (i : Z) : option Object :=
  if i <? 0 then None else objects !! Z.to_nat i.

(** [std::swap(objects[i], objects[j])]. *)
Definition swap (objects : list Object) (i j : Z) : option (list Object) :=
  oi ← at_index objects i;
  oj ← at_index objects j;
  Some (<[Z.to_nat j := oi]> (<[Z.to_nat i := oj]> objects)).

(** [while (objects[i].prob > p) i++;] *)
Fixpoint scan_up (fuel : nat) (objects : list Object) (p : float32) (i : Z) : option Z :=
  match fuel with
  | O => None
  | S fuel' =>
      o ← at_index objects i;
      if gt (prob o) p then scan_up fuel' objects p (i + 1) else Some i
  end.

(** [while (objects[j].prob < p) j--;] *)
Fixpoint scan_down (fuel : nat) (objects : list Object) (p : float32) (j : Z) : option Z :=
  match fuel with
  | O => None
  | S fuel' =>
      o ← at_index objects j;
      if lt (prob o) p then scan_down fuel' objects p (j - 1) else Some j
  end.

(** [while (i <= j) { ... }]: the partition loop.  It returns the vector
    and the final [i] and [j]. *)
Fixpoint partition_loop (fuel : nat) (objects : list Object) (p : float32) (i j : Z)
    : option (list Object * Z * Z) :=
  match fuel with
  | O => None
  | S fuel' =>
      if i <=? j then
        i1 ← scan_up (S (length objects)) objects p i;
        j1 ← scan_down (S (length objects)) objects p j;
        if i1 <=? j1 then
          objects' ← swap objects i1 j1;
          partition_loop fuel' objects' p (i1 + 1) (j1 - 1)
        else partition_loop fuel' objects p i1 j1
      else Some (objects, i, j)
  end.

(** [qsort_descent_inplace(objects, left, right)].  The two OpenMP sections
    work on the disjoint index ranges [left..j] and [i..right] (the
    partition ends with [j < i]), so they commute; they are run one after
    the other, which is also what the code does when built without OpenMP. *)
Fixpoint qsort_range (fuel : nat) (objects : list Object) (left right : Z)
    : option (list Object) :=
  match fuel with
  | O => None
  | S fuel' =>
      pivot ← at_index objects (Z.quot (left + right) 2);
      let p := prob pivot in
      '(objects1, i, j) ← partition_loop (S (length objects)) objects p left right;
      objects2 ← (if left <? j then qsort_range fuel' objects1 left j else Some objects1);
      if i <? right then qsort_range fuel' objects2 i right else Some objects2
  end.

(** [qsort_descent_inplace(objects)]. *)
Definition qsort_descent_inplace (objects : list Object) : option (list Object) :=
  match objects with
  | [] => Some objects
  | _ => qsort_range (length objects) objects 0 (Z.of_nat (length objects) - 1)
  end.

(** ** Decoder: [parse_yolov11_detections] *)

(** [clampf(d, min, max)]. *)
Definition clampf (d min max : float32) : float32 := std_max min (std_min max d).

(** [cv::Mat output(num_channels, num_anchors, CV_32F, inputs); output.t()]:
    the transposed matrix as one contiguous row-major buffer of
    [num_anchors] rows of [num_channels] floats.  Element [(i, c)] is
    [inputs[c * num_anchors + i]]; a buffer shorter than
    [num_channels * num_anchors] is read out of bounds ([None]). *)
Definition transpose (inputs : list float32) (num_channels num_anchors : nat)
    : option (list float32) :=
  mapM (fun k => inputs !! ((k mod num_channels) * num_anchors + k / num_channels)%nat)
       (seq 0 (num_anchors * num_channels)).

(** The loop of [std::max_element(first, last)] after [largest = first]:
    each further element replaces [largest] when the element at [largest]
    compares [<] to it. *)
Fixpoint max_element_loop (buf : list float32) (todo : nat) (first largest : nat)
    : option nat :=
  match todo with
  | O => Some largest
  | S todo' =>
      vl ← buf !! largest;
      vf ← buf !! first;
      max_element_loop buf todo' (S first) (if lt vl vf then first else largest)
  end.

(** [std::max_element(buf + first, buf + first + count)], as an offset
    into [buf]; for an empty range it returns [last = first]. *)
Definition max_element (buf : list float32) (first count : nat) : option nat :=
  match count with
  | O => Some first
  | S count' => max_element_loop buf count' (S first) first
  end.

(** The four clamped corners computed for a row. *)
Definition corners (x y w h : float32) (img_w img_h : Z)
    : float32 * float32 * float32 * float32 :=
  let x0 := clampf (sub x (mul half w)) zero (of_int img_w) in
  let y0 := clampf (sub y (mul half h)) zero (of_int img_h) in
  let x1 := clampf (add x (mul half w)) zero (of_int img_w) in
  let y1 := clampf (add y (mul half h)) zero (of_int img_h) in
  (x0, y0, x1, y1).

Definition rect_of_corners (c : float32 * float32 * float32 * float32) : Rect :=
  let '(x0, y0, x1, y1) := c in mkRect x0 y0 (sub x1 x0) (sub y1 y0).

(** The body of the loop over the anchors, for row [i] of the transposed
    matrix: [None] is undefined behaviour (a read outside the buffer),
    [Some None] is a row below the threshold. *)
Definition decode_row (output : list float32) (conf_thres : float32)
    (num_channels num_labels : nat) (img_w img_h : Z) (i : nat)
    : option (option Object) :=
  let row := (i * num_channels)%nat in
  let cls := (row + 4)%nat in
  max_cls ← max_element output cls num_labels;
  score ← output !! max_cls;
  if gt score conf_thres then
    x ← output !! row;
    y ← output !! (row + 1)%nat;
    w ← output !! (row + 2)%nat;
    h ← output !! (row + 3)%nat;
    Some (Some (mkObject (rect_of_corners (corners x y w h img_w img_h))
                         (Z.of_nat (max_cls - cls)) score))
  else Some None.

Fixpoint parse_rows (output : list float32) (conf_thres : float32)
    (num_channels num_labels : nat) (img_w img_h : Z) (todo i : nat)
    (detections : list Object) : option (list Object) :=
  match todo with
  | O => Some detections
  | S todo' =>
      r ← decode_row output conf_thres num_channels num_labels img_w img_h i;
      parse_rows output conf_thres num_channels num_labels img_w img_h todo' (S i)
        (match r with Some obj => detections ++ [obj] | None => detections end)
  end.

(** [parse_yolov11_detections]; negative dimensions make the [cv::Mat]
    constructor ill-formed, and a negative [num_labels] makes the iterator
    range of [std::max_element] ill-formed as soon as the loop body runs
    ([None]). *)
Definition parse_yolov11_detections (inputs : list float32) (conf_thres : float32)
    (num_channels num_anchors num_labels : Z) (img_w img_h : Z)
    : option (list Object) :=
  if (num_channels <? 0) || (num_anchors <? 0)
     || ((num_labels <? 0) && (0 <? num_anchors)) then None
  else
    output ← transpose inputs (Z.to_nat num_channels) (Z.to_nat num_anchors);
    parse_rows output conf_thres (Z.to_nat num_channels) (Z.to_nat num_labels)
      img_w img_h (Z.to_nat num_anchors) 0 [].

(** ** [YoloV11::detect] *)

Definition target_size : Z := 480.
Definition MAX_STRIDE : Z := 32.

(** The letterbox transform computed at the head of [detect]: [scale], the
    resized [w] and [h], and the paddings [wpad] and [hpad]. *)
Record Letterbox := mkLetterbox
  { lb_scale : float32; lb_w : Z; lb_h : Z; lb_wpad : Z; lb_hpad : Z }.

(** [float scale = (w > h) ? (float)target_size / w : (float)target_size / h;] *)
Definition scale_of (img_w img_h : Z) : float32 :=
  if img_w >? img_h then div (of_int target_size) (of_int img_w)
  else div (of_int target_size) (of_int img_h).

(** [w = w * scale;] for an [int] w: the product is computed in [float]
    and converted back to [int]. *)
Definition scaled (n : Z) (scale : float32) : option Z := trunc (mul (of_int n) scale).

Definition letterbox (img_w img_h : Z) : option Letterbox :=
  let scale := scale_of img_w img_h in
  w ← scaled img_w scale;
  h ← scaled img_h scale;
  let w' := if w >? h then target_size else w in
  let h' := if w >? h then h else target_size in
  let padded := Z.quot (target_size + MAX_STRIDE - 1) MAX_STRIDE * MAX_STRIDE in
  Some (mkLetterbox scale w' h' (padded - w') (padded - h')).

(** The size of [in_pad]: ncnn's [copy_make_border] adds [left + right]
    columns and [top + bottom] rows to the resized [w x h] input. *)
Definition in_pad_w (lb : Letterbox) : Z :=
  lb_w lb + Z.quot (lb_wpad lb) 2 + (lb_wpad lb - Z.quot (lb_wpad lb) 2).
Definition in_pad_h (lb : Letterbox) : Z :=
  lb_h lb + Z.quot (lb_hpad lb) 2 + (lb_hpad lb - Z.quot (lb_hpad lb) 2).

(** The four corners of the coordinate mapper, after clamping. *)
Definition mapped_corners (lb : Letterbox) (img_w img_h : Z) (r : Rect)
    : float32 * float32 * float32 * float32 :=
  let scale := lb_scale lb in
  let x0 := div (sub (rx r) (of_int (Z.quot (lb_wpad lb) 2))) scale in
  let y0 := div (sub (ry r) (of_int (Z.quot (lb_hpad lb) 2))) scale in
  let x1 := div (sub (add (rx r) (rwidth r)) (of_int (Z.quot (lb_wpad lb) 2))) scale in
  let y1 := div (sub (add (ry r) (rheight r)) (of_int (Z.quot (lb_hpad lb) 2))) scale in
  (clampf x0 zero (sub (of_int img_w) one),
   clampf y0 zero (sub (of_int img_h) one),
   clampf x1 zero (sub (of_int img_w) one),
   clampf y1 zero (sub (of_int img_h) one)).

(** The body of the last loop of [detect] for one kept proposal. *)
Definition map_back (lb : Letterbox) (img_w img_h : Z) (o : Object) : Object :=
  mkObject (rect_of_corners (mapped_corners lb img_w img_h (rect o))) (label o) (prob o).

(** [ncnn::Mat out]: the raw output of the network, [h] rows of [w]
    floats.  The network is an external collaborator; its output is a
    parameter of the model. *)
Record Mat := mkMat { mat_w : Z; mat_h : Z; mat_data : list float32 }.

(** [detect]: the returned [int] and the final [objects]. *)
Definition detect (fconf_thres fnms_thres : float32) (img_w img_h : Z) (out : Mat)
    : option (Z * list Object) :=
  lb ← letterbox img_w img_h;
  proposals ← parse_yolov11_detections (mat_data out) fconf_thres
                 (mat_h out) (mat_w out) (mat_h out - 4) (in_pad_w lb) (in_pad_h lb);
  sorted ← qsort_descent_inplace proposals;
  picked ← nms_sorted_bboxes sorted fnms_thres false;
  kept ← select sorted picked;
  Some (0, map (map_back lb img_w img_h) kept).

(** ** Specification-side notions *)

(** Indices listed in strictly increasing order. *)
Definition increasing (l : list nat) : Prop :=
  forall p q a b, (p < q)%nat -> l !! p = Some a -> l !! q = Some b -> (a < b)%nat.

(** No kept object suppresses a later kept object it is compared with:
    for [b] kept before [a], the test [IoU > nms_threshold] of the inner
    loop is false whenever the pair is compared at all. *)
Definition no_suppression (objs : list Object) (thr : float32) (agnostic : bool)
    (picked : list nat) : Prop :=
  forall p q jp jq a b,
    (p < q)%nat -> picked !! p = Some jp -> picked !! q = Some jq ->
    objs !! jp = Some b -> objs !! jq = Some a ->
    agnostic = true \/ label a = label b ->
    gt (IoU a b) thr = false.

(** ** Invariants and predicates of the proofs *)

(** The invariant of the outer loop of [nms_sorted_bboxes] before
    iteration [i]. *)
Definition nms_inv (objs : list Object) (thr : float32) (agnostic : bool)
    (i : nat) (picked : list nat) : Prop :=
  Forall (fun j => (j < i)%nat) picked /\
  increasing picked /\
  no_suppression objs thr agnostic picked /\
  exists kept, select objs picked = Some kept /\ sublist kept (take i objs).

(** Every probability is a number. *)
Definition no_nan (objects : list Object) : Prop :=
  Forall (fun o => is_nan (prob o) = false) objects.

(** [l'] is reached from [l] by swaps of elements at indices in [lo..hi]. *)
Inductive range_perm (lo hi : Z) : list Object -> list Object -> Prop :=
  | range_perm_refl l : range_perm lo hi l l
  | range_perm_swap l i j l' l'' :
      lo <= i <= hi -> lo <= j <= hi -> swap l i j = Some l' ->
      range_perm lo hi l' l'' -> range_perm lo hi l l''.

(** Every element at an index in [lo..hi] satisfies [P]. *)
Definition range_all (P : Object -> Prop) (l : list Object) (lo hi : Z) : Prop :=
  forall k o, lo <= k <= hi -> at_index l k = Some o -> P o.

(** [prob o >= p] and [prob o <= p]. *)
Definition above (p : float32) (o : Object) : Prop := le p (prob o) = true.

Definition below (p : float32) (o : Object) : Prop := le (prob o) p = true.

(** The elements at the indices [lo..hi] are in descending order of [prob]. *)
Definition sorted_range (l : list Object) (lo hi : Z) : Prop :=
  forall k1 k2 o1 o2, lo <= k1 -> k1 < k2 -> k2 <= hi ->
    at_index l k1 = Some o1 -> at_index l k2 = Some o2 ->
    le (prob o2) (prob o1) = true.

(** Every adjacent pair is in descending order of [prob]. *)
Definition descending (l : list Object) : Prop :=
  forall k o1 o2, l !! k = Some o1 -> l !! S k = Some o2 ->
    le (prob o2) (prob o1) = true.

(** The invariant of the partition loop at its head, for the call on
    [left..right] with pivot value [p]. *)
Definition part_inv (objects : list Object) (p : float32) (left right i j : Z) : Prop :=
  no_nan objects /\ 0 <= left /\ right < Z.of_nat (length objects) /\
  left <= i <= right + 1 /\ left - 1 <= j <= right /\
  range_all (above p) objects left (i - 1) /\
  range_all (below p) objects (j + 1) right /\
  (i <= j -> exists k o, i <= k <= right /\ at_index objects k = Some o /\ below p o) /\
  (i <= j -> exists k o, left <= k <= j /\ at_index objects k = Some o /\ above p o).

(** The score of class [c] for anchor [i] in the raw channels-major tensor. *)
Definition score_at (inputs : list float32) (num_anchors i c : nat) : option float32 :=
  inputs !! ((4 + c) * num_anchors + i)%nat.

(** [m] is the maximum of the [num_labels] class scores of anchor [i] and
    [k] is the first class at which it occurs. *)
Definition is_first_max (inputs : list float32) (num_anchors num_labels i k : nat)
    (m : float32) : Prop :=
  (k < num_labels)%nat /\
  score_at inputs num_anchors i k = Some m /\
  (forall c s, (c < num_labels)%nat -> score_at inputs num_anchors i c = Some s ->
     le s m = true) /\
  (forall c s, (c < k)%nat -> score_at inputs num_anchors i c = Some s ->
     lt s m = true).

(** A raw tensor of the shape the decoder assumes: [4 + num_labels]
    channels of [num_anchors] floats, at least one class, and class scores
    that are numbers. *)
Definition well_formed_tensor (inputs : list float32)
    (num_channels num_anchors num_labels : Z) : Prop :=
  0 <= num_anchors /\ 1 <= num_labels /\ num_channels = 4 + num_labels /\
  Z.of_nat (length inputs) = num_channels * num_anchors /\
  forall i c s, score_at inputs (Z.to_nat num_anchors) i c = Some s -> is_nan s = false.

(** [largest] is the first maximum of [buf[first0 .. cur)]. *)
Definition first_max_upto (buf : list float32) (first0 cur largest : nat) (m : float32)
    : Prop :=
  (first0 <= largest < cur)%nat /\ buf !! largest = Some m /\
  (forall c s, (first0 <= c < cur)%nat -> buf !! c = Some s -> le s m = true) /\
  (forall c s, (first0 <= c < largest)%nat -> buf !! c = Some s -> lt s m = true).

(** The raw box [(cx, cy, w, h)] of anchor [i] in the channels-major tensor. *)
Definition raw_box (inputs : list float32) (num_anchors i : nat)
    : option (float32 * float32 * float32 * float32) :=
  x ← inputs !! i;
  y ← inputs !! (num_anchors + i)%nat;
  w ← inputs !! (2 * num_anchors + i)%nat;
  h ← inputs !! (3 * num_anchors + i)%nat;
  Some (x, y, w, h).

(** What the decoder emits for an anchor whose first maximum is score [m]
    at class [k]. *)
Definition emitted_for (inputs : list float32) (conf_thres : float32)
    (num_anchors : nat) (img_w img_h : Z) (i k : nat) (m : float32)
    (r : option Object) : Prop :=
  (r <> None <-> gt m conf_thres = true) /\
  forall o, r = Some o ->
    prob o = m /\ label o = Z.of_nat k /\
    exists x y w h, raw_box inputs num_anchors i = Some (x, y, w, h) /\
      rect o = rect_of_corners (corners x y w h img_w img_h).

(** The per-anchor result of the loop body, [None] when nothing is emitted. *)
Definition emitted (conf_thres : float32) (C L : nat) (img_w img_h : Z)
    (output : list float32) (i : nat) : option Object :=
  match decode_row output conf_thres C L img_w img_h i with
  | Some r => r
  | None => None
  end.

(** Specification side: the integer nearest to a number, halves away from
    zero (the spec's [round]). *)
Definition nearest_int (a : float32) : option Z :=
  match a with
  | S754_zero _ => Some 0
  | S754_finite s m e =>
      let mag := if 0 <=? e then Z.pos m * 2 ^ e
                 else (2 * Z.pos m + 2 ^ (- e)) / 2 ^ (1 - e) in
      Some (if s then - mag else mag)
  | _ => None
  end.

(** ** Rounding of binary32, through integer codes *)

(** A value that is zero, finite or infinite with sign [s]. *)
Definition has_sign (s : bool) (a : float32) : Prop :=
  match a with
  | S754_zero s' | S754_infinity s' | S754_finite s' _ _ => s' = s
  | S754_nan => False
  end.

(** Canonical binary32 representations: the mantissa has the number of
    digits its exponent calls for. *)
Definition valid (a : spec_float) : bool := valid_binary prec emax a.

(** Zeros and finite numbers. *)
Definition is_finite (a : spec_float) : bool :=
  match a with S754_zero _ | S754_finite _ _ _ => true | _ => false end.

(** The code of a rounding location: exact, below, at or above one half. *)
Definition loc_code (l : location) : Z :=
  match l with
  | loc_Exact => 0
  | loc_Inexact Lt => 1
  | loc_Inexact Eq => 2
  | loc_Inexact Gt => 3
  end.

(** The code of the integer part [m] with the location [l] of the rest. *)
Definition tenc (m : Z) (l : location) : Z := 4 * m + loc_code l.

(** The code held by a shift record. *)
Definition rec_code (mrs : shr_record) : Z :=
  4 * shr_m mrs + (if shr_r mrs then 2 else 0) + (if shr_s mrs then 1 else 0).

(** One right shift, the lost bit or-ed into the sticky bit. *)
Definition shift1 (T : Z) : Z := T / 2 + (if T mod 4 =? 1 then 1 else 0).

(** [n] right shifts. *)
Definition shiftn (n : nat) (T : Z) : Z := Nat.iter n shift1 T.

(** A code rounded to the nearest integer, ties to even. *)
Definition rnd_code (T : Z) : Z :=
  T / 4 + (if (T mod 4 =? 3) || (T mod 8 =? 6) then 1 else 0).

(** The shift count of [shr_fexp]. *)
Definition nshift (m e : Z) : Z := Z.max 0 (fexp prec emax (Zdigits2 m + e) - e).

(** Rounding of the code [T] at exponent [e]. *)
Definition round_T (s : bool) (T e : Z) : spec_float :=
  let n1 := nshift (T / 4) e in
  let e1 := e + n1 in
  let M := rnd_code (shiftn (Z.to_nat n1) T) in
  let n2 := nshift M e1 in
  let M2 := shiftn (Z.to_nat n2) (4 * M) / 4 in
  let e2 := e1 + n2 in
  match M2 with
  | 0 => S754_zero s
  | Zpos m => if e2 <=? emax - prec then S754_finite s m e2 else S754_infinity s
  | Zneg _ => S754_nan
  end.

(** The number of sign [s], mantissa [m] and exponent [e]; infinite above
    the largest exponent. *)
Definition mk (s : bool) (m e : Z) : spec_float :=
  match m with
  | 0 => S754_zero s
  | Zpos p => if e <=? 104 then S754_finite s p e else S754_infinity s
  | Zneg _ => S754_nan
  end.

(** The second stage of rounding: the mantissa [M] of the first stage is
    shifted once more when rounding carried it to 25 digits. *)
Definition finish (s : bool) (M e1 : Z) : spec_float :=
  mk s (shiftn (Z.to_nat (nshift M e1)) (4 * M) / 4) (e1 + nshift M e1).

(** The result of the second stage for a mantissa of the first stage. *)
Definition carry_m (M : Z) : Z := if M =? 2 ^ 24 then 2 ^ 23 else M.

Definition carry_e (M e1 : Z) : Z := if M =? 2 ^ 24 then e1 + 1 else e1.

(** The code of the rational [N / D]: twice its integer part, with the
    sticky bit of the fraction. *)
Definition qcode (N D : Z) : Z := 2 * (N / D) + (if N mod D =? 0 then 0 else 1).

(** The code [T] at exponent [e] carries enough digits for the first stage
    to shift by the amount the exact value calls for. *)
Definition genuine (T e : Z) : Prop := 24 <= Zdigits2 (T / 4) \/ e <= -149.

(** Rounding of [N / D * 2 ^ e], for a sign [s]. *)
Definition Rq (s : bool) (N D e : Z) : spec_float := round_T s (qcode (2 * N) D) e.

(** The same for the quotient [N / D]. *)
Definition genuine_q (N D e : Z) : Prop := 24 <= Zdigits2 (N / D) \/ e <= -149.

(** The signed dyadic [v * 2 ^ e], rounded. *)
Definition RN (v e : Z) : spec_float := binary_normalize prec emax v e false.

(** A fine enough exponent for [v * 2 ^ e]. *)
Definition fine (v e : Z) : Z := Z.min e (Z.max (Zdigits2 v + e - 24) (-149)).

(** The value of a finite number in units of [2 ^ E]. *)
Definition sval (a : spec_float) (E : Z) : Z :=
  match a with
  | S754_finite s m e => cond_Zopp s (Z.pos m * 2 ^ (e - E))
  | _ => 0
  end.

(** [E] is not above the exponent of [a]. *)
Definition fits (a : spec_float) (E : Z) : Prop :=
  match a with S754_finite _ _ e => E <= e | _ => True end.

(** The exponent at which [SFdiv] computes the quotient. *)
Definition div_exp (m1 e1 m2 e2 : Z) : Z :=
  Z.min (Z.max (Zdigits2 m1 + e1 - (Zdigits2 m2 + e2) - 24) (-149)) (e1 - e2).

(** The exponent of a finite number. *)
Definition expo (a : spec_float) : Z :=
  match a with S754_finite _ _ e => e | _ => 0 end.

(** [480] and [960] as binary32 numbers. *)
Definition c480 : float32 := S754_finite false 15728640 (-15).

Definition c960 : float32 := S754_finite false 15728640 (-14).

(** ** Boxes along the pipeline *)

(** Width and height are not negative. *)
Definition nonneg_box (o : Object) : Prop :=
  le zero (rwidth (rect o)) = true /\ le zero (rheight (rect o)) = true.

(** A box of canonical numbers with a finite corner and sizes that are
    not negative. *)
Definition proper_box (o : Object) : Prop :=
  valid (rx (rect o)) = true /\ valid (ry (rect o)) = true /\
  valid (rwidth (rect o)) = true /\ valid (rheight (rect o)) = true /\
  is_finite (rx (rect o)) = true /\ is_finite (ry (rect o)) = true /\
  nonneg_box o.

(** ** Sample inputs *)

(** Three candidates of one class, out of order. *)
Definition sample_objects : list Object :=
  [ mkObject (mkRect (of_int 10) (of_int 10) (of_int 40) (of_int 40)) 1
      (div (of_int 8) (of_int 10));
    mkObject (mkRect (of_int 200) (of_int 200) (of_int 40) (of_int 40)) 1
      (div (of_int 9) (of_int 10));
    mkObject (mkRect (of_int 300) (of_int 10) (of_int 40) (of_int 40)) 1
      (div (of_int 7) (of_int 10)) ].

(** [0.45f]: the binary32 number nearest to 0.45. *)
Definition thr_045 : float32 := div (of_int 45) (of_int 100).

(** Two zero-area boxes of one class, in descending order of probability:
    what the decoder emits for two boxes clamped to the right edge. *)
Definition flat_objects : list Object :=
  [ mkObject (mkRect (of_int 480) (of_int 100) zero (of_int 10)) 1
      (div (of_int 9) (of_int 10));
    mkObject (mkRect (of_int 480) (of_int 300) zero (of_int 10)) 1
      (div (of_int 8) (of_int 10)) ].

(** One anchor, one class: box [(100, 100, 60, 10)] with score 0.9. *)
Definition sample_tensor : list float32 :=
  [of_int 100; of_int 100; of_int 60; of_int 10; div (of_int 9) (of_int 10)].

(** [0.25f]: the binary32 number nearest to 0.25. *)
Definition thr_025 : float32 := div (of_int 25) (of_int 100).

(** One anchor whose raw corner [x + 0.5 * w] is [530 = 480 + 50]. *)
Definition wide_tensor : list float32 :=
  [of_int 500; of_int 100; of_int 60; of_int 10; div (of_int 9) (of_int 10)].

(** One anchor with the negative raw width [-20]. *)
Definition negative_tensor : list float32 :=
  [of_int 100; of_int 100; of_int (-20); of_int 10; div (of_int 9) (of_int 10)].

(** One anchor whose only class score, 0.1, is below the threshold. *)
Definition low_tensor : list float32 :=
  [of_int 100; of_int 100; of_int 60; of_int 10; div (of_int 1) (of_int 10)].

(** ** Notions of the claims on the boxes *)

(** [c] is [d] clamped to [[0, n]]: [d] itself when it lies strictly
    inside, [0] when it is not above [0], and [n] when it is not below
    [n] (or is NaN). *)
Definition clamped (d : float32) (n : Z) (c : float32) : Prop :=
  (le zero c = true /\ le c (of_int n) = true) /\
  (lt zero d = true -> lt d (of_int n) = true -> c = d) /\
  (lt zero d = false -> lt d (of_int n) = true -> c = zero) /\
  (lt d (of_int n) = false -> c = of_int n).

(** Two anchors of one class: the first has the raw width [-20] and the
    score [0.1], below the threshold; the second has the raw box
    [(100, 100, 60, 10)] and the score [0.9]. *)
Definition two_anchor_tensor : list float32 :=
  [of_int 100; of_int 100; of_int 100; of_int 100; of_int (-20); of_int 60;
   of_int 10; of_int 10; div (of_int 1) (of_int 10); div (of_int 9) (of_int 10)].

(** One anchor whose box reaches beyond the right edge of the padded
    input: raw [x = 240.6], [w = 480]. *)
Definition edge_tensor : list float32 :=
  [div (of_int 2406) (of_int 10); of_int 200; of_int 480; of_int 100;
   div (of_int 9) (of_int 10)].

(** ** Notions of the further properties *)

(** [o1] may stand before [o2] in a descending list. *)
Definition not_below (o1 o2 : Object) : Prop := le (prob o2) (prob o1) = true.

(** Candidate [i] is suppressed by a kept candidate: an index [j < i] of
    [picked] that is compared with it and whose IoU with it is above the
    threshold. *)
Definition nms_suppressed (objs : list Object) (thr : float32) (agnostic : bool)
    (picked : list nat) (i : nat) : Prop :=
  exists j a b,
    j ∈ picked /\ (j < i)%nat /\ objs !! i = Some a /\ objs !! j = Some b /\
    (agnostic = true \/ label a = label b) /\ gt (IoU a b) thr = true.

(** Every candidate below [i] is kept or suppressed. *)
Definition nms_complete (objs : list Object) (thr : float32) (agnostic : bool)
    (i : nat) (picked : list nat) : Prop :=
  forall i', (i' < i)%nat -> i' ∈ picked \/ nms_suppressed objs thr agnostic picked i'.

(** Two overlapping boxes of different classes. *)
Definition mixed_objects : list Object :=
  [ mkObject (mkRect (of_int 10) (of_int 10) (of_int 40) (of_int 40)) 0
      (div (of_int 9) (of_int 10));
    mkObject (mkRect (of_int 12) (of_int 12) (of_int 40) (of_int 40)) 1
      (div (of_int 8) (of_int 10)) ].

(** No object of the list suppresses a later one it is compared with. *)
Definition suppression_free (objs : list Object) (thr : float32) (agnostic : bool) : Prop :=
  forall p q a b, (p < q)%nat -> objs !! p = Some b -> objs !! q = Some a ->
    agnostic = true \/ label a = label b -> gt (IoU a b) thr = false.

(** The four fields of a box are canonical finite numbers. *)
Definition finite_box (r : Rect) : Prop :=
  (valid (rx r) = true /\ is_finite (rx r) = true) /\
  (valid (ry r) = true /\ is_finite (ry r) = true) /\
  (valid (rwidth r) = true /\ is_finite (rwidth r) = true) /\
  (valid (rheight r) = true /\ is_finite (rheight r) = true).

(** In exact arithmetic, [x1 + w1 <= x2]: the values are compared in units
    of [2 ^ E], for an exponent [E] below the exponents of all three. *)
Definition ends_before (x1 w1 x2 : float32) : Prop :=
  exists E, fits x1 E /\ fits w1 E /\ fits x2 E /\ sval x1 E + sval w1 E <= sval x2 E.

(** One box lies entirely to the left of, to the right of, above or below
    the other. *)
Definition apart (a b : Rect) : Prop :=
  ends_before (rx a) (rwidth a) (rx b) \/ ends_before (rx b) (rwidth b) (rx a) \/
  ends_before (ry a) (rheight a) (ry b) \/ ends_before (ry b) (rheight b) (ry a).

(** * Properties *)

(** ** NMS filter *)

Section NMS.

Context (objs : list Object) (thr : float32) (agnostic : bool).

Let areas := map (fun o => CV.area (rect o)) objs.

Lemma areas_lookup j b : objs !! j = Some b -> areas !! j = Some (CV.area (rect b)).
Proof. intros H. unfold areas. rewrite list_lookup_fmap, H. reflexivity. Qed.

Lemma nms_inner_total i a js keep log :
  objs !! i = Some a ->
  Forall (fun j => (j < length objs)%nat) js ->
  exists keep' log', nms_inner objs areas thr agnostic i a js keep log = Some (keep', log').
Proof.
  intros Hi Hjs. revert keep log.
  induction Hjs as [|j js Hj _ IH]; intros keep log; simpl.
  - eauto.
  - destruct (lookup_lt_is_Some_2 objs j Hj) as [b Hb].
    rewrite Hb; simpl.
    destruct (negb agnostic && negb (label a =? label b)); [apply IH|].
    rewrite (areas_lookup _ _ Hi), (areas_lookup _ _ Hb); simpl. apply IH.
Qed.

Lemma nms_inner_keep i a js keep log log' :
  objs !! i = Some a ->
  nms_inner objs areas thr agnostic i a js keep log = Some (true, log') ->
  keep = true /\
  forall j b, j ∈ js -> objs !! j = Some b ->
    agnostic = true \/ label a = label b -> gt (IoU a b) thr = false.
Proof.
  intros Hi. revert keep log.
  induction js as [|j js IH]; intros keep log; simpl.
  - intros [= -> _]. split; [reflexivity|]. intros j b Hin. inversion Hin.
  - destruct (objs !! j) as [b|] eqn:Hb; simpl; [|discriminate].
    destruct (negb agnostic && negb (label a =? label b)) eqn:Hskip.
    + intros H. destruct (IH _ _ H) as [-> Hall]. split; [reflexivity|].
      intros j' b' Hin Hb' Hlab.
      apply elem_of_cons in Hin as [->|Hin]; [|eauto].
      rewrite Hb in Hb'. injection Hb' as <-.
      apply andb_true_iff in Hskip as [Hag Hne].
      apply negb_true_iff in Hag, Hne. apply Z.eqb_neq in Hne.
      destruct Hlab; congruence.
    + rewrite (areas_lookup _ _ Hi), (areas_lookup _ _ Hb); simpl.
      intros H. destruct (IH _ _ H) as [Hk Hall].
      fold (IoU a b) in Hk.
      destruct (gt (IoU a b) thr) eqn:Hgt; [discriminate|].
      split; [exact Hk|].
      intros j' b' Hin Hb' Hlab.
      apply elem_of_cons in Hin as [->|Hin]; [|eauto].
      rewrite Hb in Hb'. injection Hb' as <-. exact Hgt.
Qed.

Lemma nms_inv_skip i picked :
  (i < length objs)%nat -> nms_inv objs thr agnostic i picked -> nms_inv objs thr agnostic (S i) picked.
Proof.
  intros Hi (Hlt & Hinc & Hns & kept & Hsel & Hsub).
  split; [|split; [exact Hinc|split; [exact Hns|]]].
  - eapply Forall_impl; [exact Hlt|]. simpl. lia.
  - exists kept. split; [exact Hsel|].
    destruct (lookup_lt_is_Some_2 objs i Hi) as [a Ha].
    rewrite (take_S_r _ _ _ Ha). apply sublist_inserts_r. exact Hsub.
Qed.

Lemma increasing_snoc picked i :
  Forall (fun j => (j < i)%nat) picked -> increasing picked -> increasing (picked ++ [i]).
Proof.
  intros Hlt Hinc p q a b Hpq Ha Hb.
  assert (Hq : (q < length (picked ++ [i]))%nat) by (eapply lookup_lt_Some; eauto).
  rewrite length_app in Hq; simpl in Hq.
  rewrite lookup_app_l in Ha by lia.
  destruct (decide (q < length picked)%nat) as [Hq'|Hq'].
  - rewrite lookup_app_l in Hb by lia. eauto.
  - rewrite lookup_app_r in Hb by lia.
    replace (q - length picked)%nat with 0%nat in Hb by lia.
    injection Hb as <-.
    rewrite Forall_forall in Hlt. apply Hlt.
    apply list_elem_of_lookup. eauto.
Qed.

Lemma nms_inv_push i a picked :
  objs !! i = Some a ->
  (forall j b, j ∈ picked -> objs !! j = Some b ->
     agnostic = true \/ label a = label b -> gt (IoU a b) thr = false) ->
  nms_inv objs thr agnostic i picked -> nms_inv objs thr agnostic (S i) (picked ++ [i]).
Proof.
  intros Ha Hnew (Hlt & Hinc & Hns & kept & Hsel & Hsub).
  split; [|split; [|split]].
  - apply Forall_app. split.
    + eapply Forall_impl; [exact Hlt|]. simpl. lia.
    + constructor; [lia|constructor].
  - apply increasing_snoc; assumption.
  - intros p q jp jq a' b' Hpq Hp Hq Hb' Ha' Hlab.
    assert (Hql : (q < length (picked ++ [i]))%nat) by (eapply lookup_lt_Some; eauto).
    rewrite length_app in Hql; simpl in Hql.
    rewrite lookup_app_l in Hp by lia.
    destruct (decide (q < length picked)%nat) as [Hq'|Hq'].
    + rewrite lookup_app_l in Hq by lia.
      exact (Hns p q jp jq a' b' Hpq Hp Hq Hb' Ha' Hlab).
    + rewrite lookup_app_r in Hq by lia.
      replace (q - length picked)%nat with 0%nat in Hq by lia.
      injection Hq as <-. rewrite Ha in Ha'. injection Ha' as <-.
      apply (Hnew jp b'); [|assumption..].
      apply list_elem_of_lookup. eauto.
  - exists (kept ++ [a]). split.
    + unfold select in *. apply mapM_Some. apply mapM_Some in Hsel.
      apply Forall2_app; [exact Hsel|]. constructor; [exact Ha|constructor].
    + rewrite (take_S_r _ _ _ Ha). apply sublist_app; [exact Hsub|reflexivity].
Qed.

Lemma nms_outer_inv todo i picked log :
  (i + todo = length objs)%nat -> nms_inv objs thr agnostic i picked ->
  exists picked' log',
    nms_outer objs areas thr agnostic todo i picked log = Some (picked', log') /\
    nms_inv objs thr agnostic (length objs) picked'.
Proof.
  revert i picked log.
  induction todo as [|todo IH]; intros i picked log Hn Hinv; simpl.
  - replace (length objs) with i by lia. eauto.
  - assert (Hi : (i < length objs)%nat) by lia.
    destruct (lookup_lt_is_Some_2 objs i Hi) as [a Ha]. rewrite Ha; simpl.
    assert (Hjs : Forall (fun j => (j < length objs)%nat) picked).
    { destruct Hinv as [Hlt _]. eapply Forall_impl; [exact Hlt|]. simpl. lia. }
    destruct (nms_inner_total i a picked true log Ha Hjs) as (keep & log1 & Hin).
    rewrite Hin; simpl.
    destruct keep.
    + apply IH; [lia|].
      destruct (nms_inner_keep _ _ _ _ _ _ Ha Hin) as [_ Hnew].
      apply nms_inv_push with (a := a); assumption.
    + apply IH; [lia|]. apply nms_inv_skip; assumption.
Qed.

Lemma nms_run_inv :
  exists picked log,
    nms_run objs thr agnostic = Some (picked, log) /\ nms_inv objs thr agnostic (length objs) picked.
Proof.
  unfold nms_run. apply nms_outer_inv; [lia|].
  split; [constructor|split; [|split]].
  - intros p q a b _ Hp. rewrite lookup_nil in Hp. discriminate.
  - intros p q jp jq a b _ Hp. rewrite lookup_nil in Hp. discriminate.
  - exists []. split; [reflexivity|]. apply sublist_nil_l.
Qed.

End NMS.

(** ** The order of binary32 values

    [SFcompare] orders the values that are not NaN: it compares signs, then
    exponents, then mantissas. *)

Section Order.

Ltac cmp_cases :=
  repeat match goal with
  | |- context [Pos.compare_cont Eq ?a ?b] =>
      change (Pos.compare_cont Eq a b) with (Pos.compare a b)
  | H : context [Pos.compare_cont Eq ?a ?b] |- _ =>
      change (Pos.compare_cont Eq a b) with (Pos.compare a b) in H
  end;
  repeat match goal with
  | H : context [Z.compare ?a ?b] |- _ => destruct (Z.compare_spec a b); simpl in H
  | H : context [Pos.compare ?a ?b] |- _ => destruct (Pos.compare_spec a b); simpl in H
  | |- context [Z.compare ?a ?b] => destruct (Z.compare_spec a b); simpl
  | |- context [Pos.compare ?a ?b] => destruct (Pos.compare_spec a b); simpl
  end;
  try discriminate; try reflexivity; try lia.

Lemma compare_refl a : is_nan a = false -> SFcompare a a = Some Eq.
Proof.
  destruct a as [s|s| |s m e]; simpl; try discriminate; intros _;
    destruct s; try reflexivity; cmp_cases.
Qed.

Lemma compare_antisym a b :
  SFcompare b a = CompOpp <$> SFcompare a b.
Proof.
  destruct a as [sa|sa| |sa ma ea], b as [sb|sb| |sb mb eb]; simpl;
    try reflexivity; try (destruct sa; reflexivity); try (destruct sb; reflexivity);
    try (destruct sa, sb; reflexivity).
  destruct sa, sb; simpl; try reflexivity; f_equal; cmp_cases.
Qed.

Lemma compare_nan_l a b : is_nan a = true -> SFcompare a b = None.
Proof. destruct a; try discriminate. reflexivity. Qed.

Lemma compare_nan_r a b : is_nan b = true -> SFcompare a b = None.
Proof. destruct b; try discriminate. destruct a; reflexivity. Qed.

Lemma compare_some a b :
  is_nan a = false -> is_nan b = false -> exists c, SFcompare a b = Some c.
Proof.
  destruct a as [sa|sa| |sa ma ea], b as [sb|sb| |sb mb eb]; simpl;
    try discriminate; eauto.
Qed.

Lemma le_refl a : is_nan a = false -> le a a = true.
Proof. intros H. unfold le, SFleb. rewrite compare_refl by exact H. reflexivity. Qed.

Lemma le_trans a b c : le a b = true -> le b c = true -> le a c = true.
Proof.
  unfold le, SFleb.
  destruct a as [sa|sa| |sa ma ea], b as [sb|sb| |sb mb eb], c as [sc|sc| |sc mc ec];
    simpl; try discriminate; try reflexivity;
    try (destruct sa; simpl; try discriminate; try reflexivity);
    try (destruct sb; simpl; try discriminate; try reflexivity);
    try (destruct sc; simpl; try discriminate; try reflexivity);
    intros H1 H2; cmp_cases.
Qed.

Lemma lt_le a b : lt a b = true -> le a b = true.
Proof. unfold lt, le, SFltb, SFleb. destruct (SFcompare a b) as [[]|]; easy. Qed.

Lemma not_lt_le a b :
  is_nan a = false -> is_nan b = false -> lt a b = false -> le b a = true.
Proof.
  intros Ha Hb. unfold lt, le, SFltb, SFleb. rewrite (compare_antisym a b).
  destruct (compare_some a b Ha Hb) as [c ->]. destruct c; simpl; easy.
Qed.

Lemma le_not_lt a b : le a b = true -> lt b a = false.
Proof.
  unfold lt, le, SFltb, SFleb. rewrite (compare_antisym a b).
  destruct (SFcompare a b) as [[]|]; simpl; easy.
Qed.

Lemma le_not_nan a b : le a b = true -> is_nan a = false /\ is_nan b = false.
Proof.
  unfold le, SFleb. destruct a, b; simpl; try discriminate; auto.
Qed.

Lemma lt_not_nan a b : lt a b = true -> is_nan a = false /\ is_nan b = false.
Proof. intros H. apply le_not_nan, lt_le, H. Qed.

Lemma le_total a b :
  is_nan a = false -> is_nan b = false -> le a b = true \/ le b a = true.
Proof.
  intros Ha Hb. destruct (lt a b) eqn:H.
  - left. apply lt_le, H.
  - right. apply not_lt_le; assumption.
Qed.

End Order.

(** ** Sorter *)

Section Sorter.

Implicit Types (objects l : list Object) (p : float32).

Lemma at_index_Some l k o :
  at_index l k = Some o <-> 0 <= k /\ l !! Z.to_nat k = Some o.
Proof.
  unfold at_index. destruct (Z.ltb_spec k 0); split.
  - discriminate.
  - lia.
  - auto.
  - intros [_ H']. exact H'.
Qed.

Lemma at_index_is_Some l k :
  0 <= k < Z.of_nat (length l) -> exists o, at_index l k = Some o.
Proof.
  intros H. destruct (lookup_lt_is_Some_2 l (Z.to_nat k)) as [o Ho]; [lia|].
  exists o. apply at_index_Some. split; [lia|exact Ho].
Qed.

Lemma at_index_lt l k o : at_index l k = Some o -> 0 <= k < Z.of_nat (length l).
Proof.
  intros [H1 H2]%at_index_Some. apply lookup_lt_Some in H2. lia.
Qed.

Lemma swap_length l i j l' : swap l i j = Some l' -> length l' = length l.
Proof.
  unfold swap. destruct (at_index l i); simpl; [|discriminate].
  destruct (at_index l j); simpl; [|discriminate].
  intros [= <-]. rewrite !length_insert. reflexivity.
Qed.

Lemma swap_perm l i j l' : swap l i j = Some l' -> l' ≡ₚ l.
Proof.
  unfold swap. destruct (at_index l i) as [oi|] eqn:Hi; simpl; [|discriminate].
  destruct (at_index l j) as [oj|] eqn:Hj; simpl; [|discriminate].
  intros [= <-]. apply at_index_Some in Hi as [_ Hi]. apply at_index_Some in Hj as [_ Hj].
  apply Permutation_insert_swap; assumption.
Qed.

Lemma swap_is_Some l i j :
  0 <= i < Z.of_nat (length l) -> 0 <= j < Z.of_nat (length l) ->
  exists l', swap l i j = Some l'.
Proof.
  intros Hi Hj. unfold swap.
  destruct (at_index_is_Some l i Hi) as [oi ->].
  destruct (at_index_is_Some l j Hj) as [oj ->]. simpl. eauto.
Qed.

(** What [swap] leaves at each index. *)
Lemma swap_at l i j l' k :
  swap l i j = Some l' ->
  at_index l' k = if decide (k = j) then at_index l i
                  else if decide (k = i) then at_index l j else at_index l k.
Proof.
  unfold swap. destruct (at_index l i) as [oi|] eqn:Hi; simpl; [|discriminate].
  destruct (at_index l j) as [oj|] eqn:Hj; simpl; [|discriminate].
  intros [= <-].
  pose proof (at_index_lt _ _ _ Hi) as Hli. pose proof (at_index_lt _ _ _ Hj) as Hlj.
  unfold at_index at 1. destruct (Z.ltb_spec k 0) as [Hk|Hk].
  - repeat case_decide; try lia. unfold at_index.
    destruct (Z.ltb_spec k 0); [reflexivity|lia].
  - case_decide as Hkj.
    + subst k. rewrite list_lookup_insert_eq by (rewrite length_insert; lia). reflexivity.
    + rewrite list_lookup_insert_ne by lia.
      case_decide as Hki.
      * subst k. rewrite list_lookup_insert_eq by lia. reflexivity.
      * rewrite list_lookup_insert_ne by lia.
        unfold at_index. destruct (Z.ltb_spec k 0); [lia|reflexivity].
Qed.

Lemma range_perm_trans lo hi l1 l2 l3 :
  range_perm lo hi l1 l2 -> range_perm lo hi l2 l3 -> range_perm lo hi l1 l3.
Proof.
  induction 1 as [|l i j l' l'' Hi Hj Hs _ IH]; [auto|].
  intros H. exact (range_perm_swap lo hi l i j l' l3 Hi Hj Hs (IH H)).
Qed.

Lemma range_perm_widen lo hi lo' hi' l1 l2 :
  lo' <= lo -> hi <= hi' -> range_perm lo hi l1 l2 -> range_perm lo' hi' l1 l2.
Proof.
  intros Hlo Hhi. induction 1 as [|l i j l' l'' Hi Hj Hs _ IH].
  - constructor.
  - eapply range_perm_swap; [| |exact Hs|exact IH]; lia.
Qed.

Lemma range_perm_length lo hi l1 l2 : range_perm lo hi l1 l2 -> length l2 = length l1.
Proof.
  induction 1 as [|l i j l' l'' Hi Hj Hs _ IH]; [reflexivity|].
  rewrite IH. eapply swap_length, Hs.
Qed.

Lemma range_perm_perm lo hi l1 l2 : range_perm lo hi l1 l2 -> l2 ≡ₚ l1.
Proof.
  induction 1 as [|l i j l' l'' Hi Hj Hs _ IH]; [reflexivity|].
  rewrite IH. eapply swap_perm, Hs.
Qed.

(** Indices outside [lo..hi] keep their element. *)
Lemma range_perm_frame lo hi l1 l2 k :
  range_perm lo hi l1 l2 -> k < lo \/ hi < k -> at_index l2 k = at_index l1 k.
Proof.
  intros H Hk. induction H as [|l i j l' l'' Hi Hj Hs _ IH]; [reflexivity|].
  rewrite IH, (swap_at _ _ _ _ k Hs). repeat case_decide; try lia. reflexivity.
Qed.

(** A property of all elements of a range that contains [lo..hi] survives. *)
Lemma range_perm_all lo hi lo' hi' P l1 l2 :
  range_perm lo hi l1 l2 -> lo' <= lo -> hi <= hi' ->
  range_all P l1 lo' hi' -> range_all P l2 lo' hi'.
Proof.
  intros H Hlo Hhi. induction H as [|l i j l' l'' Hi Hj Hs _ IH]; [auto|].
  intros Hall. apply IH. intros k o Hk Ho.
  rewrite (swap_at _ _ _ _ k Hs) in Ho.
  repeat case_decide; subst; eapply Hall; try exact Ho; lia.
Qed.

Lemma no_nan_perm l1 l2 : l2 ≡ₚ l1 -> no_nan l1 -> no_nan l2.
Proof. intros H. unfold no_nan. rewrite H. auto. Qed.

Lemma no_nan_at l k o : no_nan l -> at_index l k = Some o -> is_nan (prob o) = false.
Proof.
  intros Hn [_ H]%at_index_Some. unfold no_nan in Hn. rewrite Forall_lookup in Hn.
  eapply Hn, H.
Qed.

End Sorter.

Section Scans.

Implicit Types (objects : list Object) (p : float32).

(** [scan_up] stops at the first index from [i] on whose element is not
    above the pivot; a sentinel at [k] keeps it inside the vector. *)
Lemma scan_up_spec fuel objects p i k ok :
  0 <= i <= k -> at_index objects k = Some ok -> gt (prob ok) p = false ->
  (Z.to_nat (k - i) < fuel)%nat ->
  exists i1 o1, scan_up fuel objects p i = Some i1 /\ i <= i1 <= k /\
    at_index objects i1 = Some o1 /\ gt (prob o1) p = false /\
    forall k' o, i <= k' < i1 -> at_index objects k' = Some o -> gt (prob o) p = true.
Proof.
  intros Hik Hk Hgt. revert i Hik.
  induction fuel as [|fuel IH]; intros i Hik Hfuel; [lia|]. simpl.
  destruct (at_index_is_Some objects i) as [o Ho].
  { apply at_index_lt in Hk. lia. }
  rewrite Ho; simpl.
  destruct (gt (prob o) p) eqn:Hgo.
  - assert (i <> k) by (intros ->; congruence).
    destruct (IH (i + 1)) as (i1 & o1 & Hs & Hr & Ho1 & Hg1 & Hall); [lia|lia|].
    exists i1, o1. repeat split; try assumption; try lia.
    intros k' o' Hk' Ho'.
    destruct (decide (k' = i)) as [->|]; [congruence|].
    apply (Hall k' o'); [lia|assumption].
  - exists i, o. repeat split; try assumption; try lia.
Qed.

Lemma scan_down_spec fuel objects p j k ok :
  k <= j < Z.of_nat (length objects) ->
  at_index objects k = Some ok -> lt (prob ok) p = false ->
  (Z.to_nat (j - k) < fuel)%nat ->
  exists j1 o1, scan_down fuel objects p j = Some j1 /\ k <= j1 <= j /\
    at_index objects j1 = Some o1 /\ lt (prob o1) p = false /\
    forall k' o, j1 < k' <= j -> at_index objects k' = Some o -> lt (prob o) p = true.
Proof.
  intros Hkj Hk Hlt. revert j Hkj.
  induction fuel as [|fuel IH]; intros j Hkj Hfuel; [lia|]. simpl.
  destruct (at_index_is_Some objects j) as [o Ho].
  { apply at_index_lt in Hk. lia. }
  rewrite Ho; simpl.
  destruct (lt (prob o) p) eqn:Hgo.
  - assert (j <> k) by (intros ->; congruence).
    destruct (IH (j - 1)) as (j1 & o1 & Hs & Hr & Ho1 & Hg1 & Hall); [lia|lia|].
    exists j1, o1. repeat split; try assumption; try lia.
    intros k' o' Hk' Ho'.
    destruct (decide (k' = j)) as [->|]; [congruence|].
    apply (Hall k' o'); [lia|assumption].
  - exists j, o. repeat split; try assumption; try lia.
Qed.

End Scans.

Section Partition.

Implicit Types (objects : list Object) (p : float32).

Lemma gt_above p o : gt (prob o) p = true -> above p o.
Proof. apply lt_le. Qed.

Lemma lt_below p o : lt (prob o) p = true -> below p o.
Proof. apply lt_le. Qed.

Lemma not_gt_below p o :
  is_nan p = false -> is_nan (prob o) = false -> gt (prob o) p = false -> below p o.
Proof. intros Hp Ho H. apply not_lt_le; assumption. Qed.

Lemma not_lt_above p o :
  is_nan p = false -> is_nan (prob o) = false -> lt (prob o) p = false -> above p o.
Proof. intros Hp Ho H. apply not_lt_le; assumption. Qed.

Lemma below_not_gt p o : below p o -> gt (prob o) p = false.
Proof. apply le_not_lt. Qed.

Lemma above_not_lt p o : above p o -> lt (prob o) p = false.
Proof. apply le_not_lt. Qed.

Lemma partition_loop_spec fuel objects p left right i j :
  is_nan p = false -> part_inv objects p left right i j ->
  (Z.to_nat (j - i + 1) < fuel)%nat ->
  exists objects' i' j',
    partition_loop fuel objects p i j = Some (objects', i', j') /\
    range_perm left right objects objects' /\
    j' < i' /\ i <= i' <= right + 1 /\ left - 1 <= j' <= j /\
    range_all (above p) objects' left (i' - 1) /\
    range_all (below p) objects' (j' + 1) right /\
    ((exists k o, i <= k <= j /\ at_index objects k = Some o /\ above p o /\ below p o) ->
     i < i' /\ j' < j).
Proof.
  intros Hp. revert objects i j.
  induction fuel as [|fuel IH]; intros objects i j Hinv Hfuel; [lia|].
  destruct Hinv as (Hnn & Hl & Hr & Hi & Hj & Habove & Hbelow & Hs1 & Hs2).
  cbn [partition_loop]. destruct (Z.leb_spec i j) as [Hij|Hij].
  2:{ exists objects, i, j. repeat split; try assumption; try lia; try constructor.
      all: match goal with H : exists _, _ |- _ => destruct H as (k & _ & Hk & _); lia end. }
  destruct (Hs1 Hij) as (k1 & ok1 & Hk1 & Hok1 & Hb1).
  destruct (Hs2 Hij) as (k2 & ok2 & Hk2 & Hok2 & Ha2).
  destruct (scan_up_spec (S (length objects)) objects p i k1 ok1)
    as (i1 & oi1 & -> & Hi1 & Hoi1 & Hgi1 & Hup);
    [lia|assumption|apply below_not_gt; assumption|lia|].
  destruct (scan_down_spec (S (length objects)) objects p j k2 ok2)
    as (j1 & oj1 & -> & Hj1 & Hoj1 & Hgj1 & Hdown);
    [lia|assumption|apply above_not_lt; assumption|lia|].
  simpl.
  assert (Hbi1 : below p oi1).
  { apply not_gt_below; [assumption|eapply no_nan_at; eassumption|assumption]. }
  assert (Haj1 : above p oj1).
  { apply not_lt_above; [assumption|eapply no_nan_at; eassumption|assumption]. }
  assert (Habove1 : range_all (above p) objects left (i1 - 1)).
  { intros k o Hk Ho. destruct (Z.lt_ge_cases k i).
    - apply (Habove k o); [lia|assumption].
    - apply gt_above, (Hup k o); [lia|assumption]. }
  assert (Hbelow1 : range_all (below p) objects (j1 + 1) right).
  { intros k o Hk Ho. destruct (Z.lt_ge_cases j k).
    - apply (Hbelow k o); [lia|assumption].
    - apply lt_below, (Hdown k o); [lia|assumption]. }
  assert (Hpiv : (exists k o, i <= k <= j /\ at_index objects k = Some o /\
                    above p o /\ below p o) -> i1 <= j1).
  { intros (k & o & Hk & Ho & Hao & Hbo).
    assert (i1 <= k).
    { destruct (Z.lt_ge_cases k i1); [|assumption].
      pose proof (Hup k o ltac:(lia) Ho) as Hg.
      rewrite (below_not_gt _ _ Hbo) in Hg. discriminate. }
    assert (k <= j1).
    { destruct (Z.lt_ge_cases j1 k); [|assumption].
      pose proof (Hdown k o ltac:(lia) Ho) as Hg.
      rewrite (above_not_lt _ _ Hao) in Hg. discriminate. }
    lia. }
  destruct (Z.leb_spec i1 j1) as [Hij1|Hij1].
  - destruct (swap_is_Some objects i1 j1) as [objects' Hswap]; [lia|lia|].
    rewrite Hswap; simpl.
    destruct (IH objects' (i1 + 1) (j1 - 1)) as
      (objects'' & i' & j' & Hrun & Hperm & Hji & Hi' & Hj' & Ha' & Hb' & _).
    + split; [eapply no_nan_perm; [eapply swap_perm; eassumption|assumption]|].
      rewrite (swap_length _ _ _ _ Hswap).
      repeat split; try lia.
      * intros k o Hk Ho. rewrite (swap_at _ _ _ _ k Hswap) in Ho.
        repeat case_decide; subst.
        -- rewrite Hoi1 in Ho. injection Ho as <-.
           assert (i1 = j1) as Heq by lia. rewrite Heq, Hoj1 in Hoi1.
           injection Hoi1 as <-. assumption.
        -- rewrite Hoj1 in Ho. injection Ho as <-. assumption.
        -- apply (Habove1 k o); [lia|assumption].
      * intros k o Hk Ho. rewrite (swap_at _ _ _ _ k Hswap) in Ho.
        repeat case_decide; subst.
        -- rewrite Hoi1 in Ho. injection Ho as <-. assumption.
        -- rewrite Hoj1 in Ho. injection Ho as <-.
           assert (i1 = j1) as Heq by lia. rewrite Heq, Hoj1 in Hoi1.
           injection Hoi1 as <-. assumption.
        -- apply (Hbelow1 k o); [lia|assumption].
      * intros Hlt. exists j1, oi1. split; [lia|]. split; [|assumption].
        rewrite (swap_at _ _ _ _ j1 Hswap). case_decide; [assumption|lia].
      * intros Hlt. exists i1, oj1. split; [lia|]. split; [|assumption].
        rewrite (swap_at _ _ _ _ i1 Hswap). repeat case_decide; try lia. assumption.
    + lia.
    + exists objects'', i', j'. rewrite Hrun.
      repeat split; try assumption; try lia.
      eapply range_perm_swap; [| |exact Hswap|exact Hperm]; lia.
  - destruct (IH objects i1 j1) as
      (objects'' & i' & j' & Hrun & Hperm & Hji & Hi' & Hj' & Ha' & Hb' & _).
    + repeat split; try assumption; try lia.
    + lia.
    + exists objects'', i', j'. rewrite Hrun.
      repeat split; try assumption; try lia.
      all: match goal with H : exists _, _ |- _ => specialize (Hpiv H); lia end.
Qed.

End Partition.

Section Quicksort.

Implicit Types (objects : list Object).

Lemma quot2_between left right :
  0 <= left -> left <= right -> left <= Z.quot (left + right) 2 <= right.
Proof.
  intros Hl Hlr. rewrite Z.quot_div_nonneg by lia.
  split; [apply Z.div_le_lower_bound|apply Z.div_le_upper_bound]; lia.
Qed.

Lemma sorted_range_short l lo hi : hi <= lo -> sorted_range l lo hi.
Proof. intros H k1 k2 o1 o2 ? ? ?. lia. Qed.

Lemma sorted_range_frame lo hi lo' hi' l1 l2 :
  range_perm lo' hi' l1 l2 -> hi < lo' \/ hi' < lo ->
  sorted_range l1 lo hi -> sorted_range l2 lo hi.
Proof.
  intros Hp Hd Hs k1 k2 o1 o2 H1 H2 H3 Ho1 Ho2.
  rewrite (range_perm_frame _ _ _ _ _ Hp) in Ho1 by lia.
  rewrite (range_perm_frame _ _ _ _ _ Hp) in Ho2 by lia.
  eapply Hs; eauto.
Qed.

Lemma range_all_frame P lo hi lo' hi' l1 l2 :
  range_perm lo' hi' l1 l2 -> hi < lo' \/ hi' < lo ->
  range_all P l1 lo hi -> range_all P l2 lo hi.
Proof.
  intros Hp Hd Hs k o Hk Ho.
  rewrite (range_perm_frame _ _ _ _ _ Hp) in Ho by lia.
  eapply Hs; eauto.
Qed.

(** The recursive sorter on [left..right]: it returns, it only swaps inside
    the range, and it leaves the range in descending order. *)
Lemma qsort_range_spec fuel objects left right :
  no_nan objects -> 0 <= left -> left <= right -> right < Z.of_nat (length objects) ->
  (Z.to_nat (right - left) < fuel)%nat ->
  exists objects',
    qsort_range fuel objects left right = Some objects' /\
    range_perm left right objects objects' /\
    sorted_range objects' left right.
Proof.
  revert objects left right.
  induction fuel as [|fuel IH]; intros objects left right Hnn Hl Hlr Hr Hfuel; [lia|].
  cbn [qsort_range].
  pose proof (quot2_between left right Hl Hlr) as Hmid.
  destruct (at_index_is_Some objects (Z.quot (left + right) 2)) as [pivot Hpiv]; [lia|].
  rewrite Hpiv. cbn [mbind option_bind].
  pose proof (no_nan_at _ _ _ Hnn Hpiv) as Hp.
  set (p := prob pivot) in *.
  destruct (partition_loop_spec (S (length objects)) objects p left right left right Hp)
    as (objects1 & i & j & -> & Hperm1 & Hji & Hi & Hj & Ha1 & Hb1 & Hprog).
  { repeat split; try assumption; try lia.
    - intros k o Hk. lia.
    - intros k o Hk. lia.
    - intros _. exists (Z.quot (left + right) 2), pivot.
      repeat split; try assumption; try lia. apply le_refl, Hp.
    - intros _. exists (Z.quot (left + right) 2), pivot.
      repeat split; try assumption; try lia. apply le_refl, Hp. }
  { lia. }
  destruct Hprog as [Hli Hjr].
  { exists (Z.quot (left + right) 2), pivot.
    repeat split; try assumption; try lia; apply le_refl, Hp. }
  cbn [mbind option_bind].
  pose proof (range_perm_length _ _ _ _ Hperm1) as Hlen1.
  pose proof (no_nan_perm _ _ (range_perm_perm _ _ _ _ Hperm1) Hnn) as Hnn1.
  (* the left part *)
  assert (exists objects2,
    (if left <? j then qsort_range fuel objects1 left j else Some objects1) = Some objects2 /\
    range_perm left j objects1 objects2 /\ sorted_range objects2 left j)
    as (objects2 & -> & Hperm2 & Hsort2).
  { destruct (Z.ltb_spec left j).
    - apply IH; try assumption; lia.
    - exists objects1. split; [reflexivity|]. split; [constructor|].
      apply sorted_range_short. lia. }
  cbn [mbind option_bind].
  pose proof (range_perm_length _ _ _ _ Hperm2) as Hlen2.
  pose proof (no_nan_perm _ _ (range_perm_perm _ _ _ _ Hperm2) Hnn1) as Hnn2.
  (* the right part *)
  assert (exists objects3,
    (if i <? right then qsort_range fuel objects2 i right else Some objects2) = Some objects3 /\
    range_perm i right objects2 objects3 /\ sorted_range objects3 i right)
    as (objects3 & -> & Hperm3 & Hsort3).
  { destruct (Z.ltb_spec i right).
    - apply IH; try assumption; lia.
    - exists objects2. split; [reflexivity|]. split; [constructor|].
      apply sorted_range_short. lia. }
  exists objects3. split; [reflexivity|]. split.
  - eapply range_perm_trans; [exact Hperm1|].
    eapply range_perm_trans.
    + eapply range_perm_widen; [| |exact Hperm2]; lia.
    + eapply range_perm_widen; [| |exact Hperm3]; lia.
  - assert (Ha3 : range_all (above p) objects3 left (i - 1)).
    { eapply range_all_frame; [exact Hperm3|lia|].
      eapply range_perm_all; [exact Hperm2| | |exact Ha1]; lia. }
    assert (Hb3 : range_all (below p) objects3 (j + 1) right).
    { eapply range_perm_all; [exact Hperm3| | |]; try lia.
      eapply range_all_frame; [exact Hperm2|lia|exact Hb1]. }
    assert (Hsort2' : sorted_range objects3 left j).
    { eapply sorted_range_frame; [exact Hperm3|lia|exact Hsort2]. }
    intros k1 k2 o1 o2 H1 H12 H2 Ho1 Ho2.
    destruct (Z.le_gt_cases k2 j); [eapply Hsort2'; eauto|].
    destruct (Z.le_gt_cases i k1); [eapply Hsort3; eauto|].
    apply le_trans with p.
    + apply (Hb3 k2 o2); [lia|assumption].
    + apply (Ha3 k1 o1); [lia|assumption].
Qed.

Lemma sorted_range_descending l :
  sorted_range l 0 (Z.of_nat (length l) - 1) -> descending l.
Proof.
  intros Hs k o1 o2 H1 H2.
  pose proof (lookup_lt_Some _ _ _ H2) as Hk.
  apply (Hs (Z.of_nat k) (Z.of_nat (S k))); try lia.
  - apply at_index_Some. rewrite Nat2Z.id. split; [lia|assumption].
  - apply at_index_Some. rewrite Nat2Z.id. split; [lia|assumption].
Qed.

Lemma qsort_descent_inplace_spec objects :
  no_nan objects ->
  exists sorted, qsort_descent_inplace objects = Some sorted /\
    sorted ≡ₚ objects /\ descending sorted.
Proof.
  intros Hnn. unfold qsort_descent_inplace.
  destruct objects as [|o objects'] eqn:E.
  - exists []. split; [reflexivity|]. split; [reflexivity|].
    intros k o1 o2 H. rewrite lookup_nil in H. discriminate.
  - rewrite <- E in *. assert (0 < length objects)%nat by (rewrite E; simpl; lia).
    destruct (qsort_range_spec (length objects) objects 0 (Z.of_nat (length objects) - 1))
      as (sorted & Hrun & Hperm & Hsort); try assumption; try lia.
    exists sorted. split; [exact Hrun|]. split.
    + eapply range_perm_perm, Hperm.
    + apply sorted_range_descending.
      rewrite (range_perm_length _ _ _ _ Hperm). exact Hsort.
Qed.

End Quicksort.

(** ** Decoder *)

Section Decoder.

Lemma le_lt_trans a b c : le a b = true -> lt b c = true -> lt a c = true.
Proof.
  unfold le, lt, SFleb, SFltb.
  destruct a as [sa|sa| |sa ma ea], b as [sb|sb| |sb mb eb], c as [sc|sc| |sc mc ec];
    simpl; try discriminate; try reflexivity;
    try (destruct sa; simpl; try discriminate; try reflexivity);
    try (destruct sb; simpl; try discriminate; try reflexivity);
    try (destruct sc; simpl; try discriminate; try reflexivity);
    intros H1 H2;
    repeat match goal with
    | H : context [Pos.compare_cont Eq ?a ?b] |- _ =>
        change (Pos.compare_cont Eq a b) with (Pos.compare a b) in H
    | |- context [Pos.compare_cont Eq ?a ?b] =>
        change (Pos.compare_cont Eq a b) with (Pos.compare a b)
    end;
    repeat match goal with
    | H : context [Z.compare ?a ?b] |- _ => destruct (Z.compare_spec a b); simpl in H
    | H : context [Pos.compare ?a ?b] |- _ => destruct (Pos.compare_spec a b); simpl in H
    | |- context [Z.compare ?a ?b] => destruct (Z.compare_spec a b); simpl
    | |- context [Pos.compare ?a ?b] => destruct (Pos.compare_spec a b); simpl
    end;
    try discriminate; try reflexivity; try lia.
Qed.

(** Element [(i, c)] of the transposed matrix. *)
Lemma transpose_lookup inputs C A output i c :
  transpose inputs C A = Some output -> (i < A)%nat -> (c < C)%nat ->
  output !! (i * C + c)%nat = inputs !! (c * A + i)%nat /\
  is_Some (output !! (i * C + c)%nat).
Proof.
  unfold transpose. intros H Hi Hc.
  apply mapM_Some in H.
  assert (Hk : (i * C + c < A * C)%nat) by nia.
  destruct (Forall2_lookup_l _ _ _ (i * C + c)%nat (i * C + c)%nat H) as (y & Hy & Hin).
  { apply lookup_seq. split; [reflexivity|exact Hk]. }
  rewrite Hy.
  replace ((i * C + c) mod C)%nat with c in Hin.
  2:{ rewrite Nat.add_comm, Nat.Div0.mod_add. symmetry. apply Nat.mod_small. exact Hc. }
  replace ((i * C + c) / C)%nat with i in Hin.
  2:{ rewrite Nat.add_comm, Nat.div_add by lia. rewrite Nat.div_small by exact Hc. reflexivity. }
  rewrite Hin. split; [reflexivity|eauto].
Qed.

Lemma transpose_length inputs C A output :
  transpose inputs C A = Some output -> length output = (A * C)%nat.
Proof.
  unfold transpose. intros H. apply length_mapM in H. rewrite length_seq in H. lia.
Qed.

Lemma transpose_total inputs C A :
  (C * A <= length inputs)%nat -> exists output, transpose inputs C A = Some output.
Proof.
  intros Hlen. unfold transpose.
  destruct (mapM (fun k => inputs !! ((k mod C) * A + k / C)%nat) (seq 0 (A * C))) eqn:E; [eauto|].
  apply mapM_None in E. apply Exists_exists in E as (k & Hk & Hnone).
  apply elem_of_seq in Hk. apply lookup_ge_None in Hnone.
  assert (C <> 0)%nat by (intros ->; lia).
  assert (k mod C < C)%nat by (apply Nat.mod_upper_bound; assumption).
  assert (k / C < A)%nat by (apply Nat.Div0.div_lt_upper_bound; lia).
  nia.
Qed.

End Decoder.

Section MaxElement.

Context (buf : list float32) (first0 : nat).

Lemma max_element_loop_spec todo cur largest m :
  (forall c, (first0 <= c < cur + todo)%nat -> exists s, buf !! c = Some s /\ is_nan s = false) ->
  first_max_upto buf first0 cur largest m ->
  exists idx m', max_element_loop buf todo cur largest = Some idx /\
    first_max_upto buf first0 (cur + todo) idx m'.
Proof.
  intros Hbuf. revert cur largest m Hbuf.
  induction todo as [|todo IH]; intros cur largest m Hbuf Hinv; simpl.
  - exists largest, m. rewrite Nat.add_0_r. auto.
  - destruct Hinv as (Hl & Hm & Hle & Hlt).
    rewrite Hm; simpl.
    destruct (Hbuf cur) as (vf & Hvf & Hnf); [lia|]. rewrite Hvf; simpl.
    destruct (Hbuf largest) as (vl & Hvl & Hnl); [lia|].
    assert (vl = m) as -> by congruence.
    replace (cur + S todo)%nat with (S cur + todo)%nat by lia.
    destruct (lt m vf) eqn:Hcmp.
    + apply (IH (S cur) cur vf).
      { intros c Hc. apply Hbuf. lia. }
      repeat split; try lia; try assumption.
      * intros c s Hc Hs. destruct (decide (c = cur)) as [->|].
        -- assert (s = vf) as -> by congruence. apply le_refl, Hnf.
        -- apply lt_le, le_lt_trans with m; [|assumption]. apply (Hle c s); [lia|assumption].
      * intros c s Hc Hs. apply le_lt_trans with m; [|assumption].
        apply (Hle c s); [lia|assumption].
    + apply (IH (S cur) largest m).
      { intros c Hc. apply Hbuf. lia. }
      repeat split; try lia; try assumption.
      intros c s Hc Hs. destruct (decide (c = cur)) as [->|].
      * assert (s = vf) as -> by congruence. apply not_lt_le; assumption.
      * apply (Hle c s); [lia|assumption].
Qed.

Lemma max_element_spec count :
  (0 < count)%nat ->
  (forall c, (first0 <= c < first0 + count)%nat -> exists s, buf !! c = Some s /\ is_nan s = false) ->
  exists idx m, max_element buf first0 count = Some idx /\
    first_max_upto buf first0 (first0 + count) idx m.
Proof.
  intros Hc Hbuf. destruct count as [|count]; [lia|]. simpl.
  destruct (Hbuf first0) as (m & Hm & Hn); [lia|].
  replace (first0 + S count)%nat with (S first0 + count)%nat by lia.
  apply (max_element_loop_spec count (S first0) first0 m).
  - intros c H. apply Hbuf. lia.
  - repeat split; try lia; try assumption.
    intros c s H Hs. assert (c = first0) as -> by lia.
    assert (s = m) as -> by congruence. apply le_refl, Hn.
Qed.

End MaxElement.

Section DecodeRows.

Context (inputs : list float32) (conf_thres : float32) (C A L : nat) (img_w img_h : Z).
Context (output : list float32).
Hypothesis Htr : transpose inputs C A = Some output.
Hypothesis HC : C = (4 + L)%nat.
Hypothesis HL : (0 < L)%nat.
Hypothesis Hnan : forall i c s, score_at inputs A i c = Some s -> is_nan s = false.

Lemma decode_row_spec i :
  (i < A)%nat ->
  exists k m r, is_first_max inputs A L i k m /\
    decode_row output conf_thres C L img_w img_h i = Some r /\
    emitted_for inputs conf_thres A img_w img_h i k m r.
Proof.
  intros Hi. unfold decode_row.
  assert (Hout : forall c, (c < C)%nat ->
            output !! (i * C + c)%nat = inputs !! (c * A + i)%nat /\
            is_Some (output !! (i * C + c)%nat)).
  { intros c Hc. eapply transpose_lookup; eauto. }
  destruct (max_element_spec output (i * C + 4) L HL) as (idx & m & -> & Hfm).
  { intros c Hc. destruct (Hout (c - i * C)%nat) as [Heq [s Hs]]; [lia|].
    replace (i * C + (c - i * C))%nat with c in * by lia.
    exists s. split; [exact Hs|].
    apply (Hnan i (c - i * C - 4)%nat). unfold score_at.
    replace (4 + (c - i * C - 4))%nat with (c - i * C)%nat by lia.
    rewrite <- Heq. exact Hs. }
  destruct Hfm as (Hidx & Hm & Hle & Hlt). cbn [mbind option_bind]. rewrite Hm.
  cbn [mbind option_bind].
  set (k := (idx - (i * C + 4))%nat).
  assert (Hscore : forall c, (c < L)%nat ->
            score_at inputs A i c = output !! (i * C + 4 + c)%nat).
  { intros c Hc. unfold score_at. destruct (Hout (4 + c)%nat) as [Heq _]; [lia|].
    rewrite <- Heq. f_equal. lia. }
  exists k, m.
  assert (Hfirst : is_first_max inputs A L i k m).
  { repeat split.
    - unfold k. lia.
    - rewrite Hscore by (unfold k; lia). rewrite <- Hm. f_equal. unfold k. lia.
    - intros c s Hc Hs. rewrite Hscore in Hs by exact Hc.
      apply (Hle (i * C + 4 + c)%nat s); [lia|exact Hs].
    - intros c s Hc Hs. rewrite Hscore in Hs by (unfold k in Hc; lia).
      apply (Hlt (i * C + 4 + c)%nat s); [unfold k in Hc; lia|exact Hs]. }
  destruct (gt m conf_thres) eqn:Hgt.
  - destruct (Hout 0%nat) as [E0 [x Hx]]; [lia|].
    destruct (Hout 1%nat) as [E1 [y Hy]]; [lia|].
    destruct (Hout 2%nat) as [E2 [w Hw]]; [lia|].
    destruct (Hout 3%nat) as [E3 [h Hh]]; [lia|].
    rewrite Nat.add_0_r in E0, Hx. rewrite Hx, Hy, Hw, Hh. cbn [mbind option_bind].
    eexists. split; [exact Hfirst|]. split; [reflexivity|].
    unfold emitted_for. rewrite Hgt.
    split; [split; [reflexivity|discriminate]|].
    intros o [= <-]. cbn [prob label rect]. repeat split.
    exists x, y, w, h. split; [|reflexivity].
    unfold raw_box.
    replace (inputs !! i) with (Some x) by (rewrite <- Hx, E0; f_equal; lia).
    replace (inputs !! (A + i)%nat) with (Some y) by (rewrite <- Hy, E1; f_equal; lia).
    replace (inputs !! (2 * A + i)%nat) with (Some w) by (rewrite <- Hw, E2; f_equal; lia).
    replace (inputs !! (3 * A + i)%nat) with (Some h) by (rewrite <- Hh, E3; f_equal; lia).
    reflexivity.
  - exists None. split; [exact Hfirst|]. split; [reflexivity|].
    unfold emitted_for. rewrite Hgt.
    split; [split; [congruence|discriminate]|discriminate].
Qed.

Lemma parse_rows_spec todo i detections :
  (i + todo <= A)%nat ->
  parse_rows output conf_thres C L img_w img_h todo i detections
  = Some (detections ++ omap (emitted conf_thres C L img_w img_h output) (seq i todo)).
Proof.
  revert i detections. induction todo as [|todo IH]; intros i detections Hi; simpl.
  - rewrite app_nil_r. reflexivity.
  - destruct (decode_row_spec i) as (k & m & r & _ & Hrow & _); [lia|].
    unfold emitted at 1. rewrite Hrow. simpl.
    rewrite IH by lia. destruct r; simpl; [rewrite <- app_assoc|]; reflexivity.
Qed.

End DecodeRows.

(** ** Signs of rounded results *)

Section Signs.

Lemma iter_pos_inv {A} (P : A -> Prop) (f : A -> A) n x :
  (forall y, P y -> P (f y)) -> P x -> P (SpecFloat.iter_pos f n x).
Proof.
  intros Hf. revert x. induction n as [n IH|n IH|]; intros x Hx; simpl; auto.
Qed.

Lemma shr_1_nonneg mrs : 0 <= shr_m mrs -> 0 <= shr_m (shr_1 mrs).
Proof.
  destruct mrs as [m r s]. simpl. destruct m as [|q|q]; simpl; try lia.
  destruct q; simpl; lia.
Qed.

Lemma shr_fexp_nonneg m e l :
  0 <= m -> 0 <= shr_m (fst (shr_fexp prec emax m e l)).
Proof.
  intros Hm. unfold shr_fexp, shr.
  destruct (fexp prec emax (Zdigits2 m + e) - e) as [|n|n]; simpl.
  - destruct l as [|[]]; exact Hm.
  - apply iter_pos_inv; [apply shr_1_nonneg|]. destruct l as [|[]]; exact Hm.
  - destruct l as [|[]]; exact Hm.
Qed.

Lemma round_nearest_even_nonneg m l : 0 <= m -> 0 <= round_nearest_even m l.
Proof.
  intros Hm. unfold round_nearest_even.
  destruct l as [|[]]; try lia. destruct (Z.even m); lia.
Qed.

Lemma binary_round_aux_sign s m e l :
  0 <= m -> has_sign s (binary_round_aux prec emax s m e l).
Proof.
  intros Hm. unfold binary_round_aux.
  pose proof (shr_fexp_nonneg m e l Hm) as H1.
  destruct (shr_fexp prec emax m e l) as [mrs' e'].
  pose proof (shr_fexp_nonneg (round_nearest_even (shr_m mrs') (loc_of_shr_record mrs'))
                e' loc_Exact (round_nearest_even_nonneg _ _ H1)) as H2.
  destruct (shr_fexp prec emax _ e' loc_Exact) as [mrs'' e''].
  simpl in H2. destruct (shr_m mrs'') as [|q|q]; simpl; try reflexivity; try lia.
  destruct (e'' <=? emax - prec); reflexivity.
Qed.

Lemma binary_round_sign s m e : has_sign s (binary_round prec emax s m e).
Proof.
  unfold binary_round. destruct (shl_align m e _) as [mz ez].
  apply binary_round_aux_sign. lia.
Qed.

Lemma of_int_sign n : 0 <= n -> has_sign false (of_int n).
Proof.
  intros Hn. unfold of_int, binary_normalize.
  destruct n as [|q|q]; [reflexivity|apply binary_round_sign|lia].
Qed.

Lemma has_sign_false_le a : has_sign false a -> le zero a = true.
Proof.
  destruct a as [s|s| |s m e]; simpl; try contradiction; intros ->; reflexivity.
Qed.

Lemma of_int_nonneg n : 0 <= n -> le zero (of_int n) = true.
Proof. intros Hn. apply has_sign_false_le, of_int_sign, Hn. Qed.

End Signs.

(** ** [clampf] *)

Section Clamp.

(** With bounds in order, the result lies between them, whatever [d] is
    (NaN and the infinities included). *)
Lemma clampf_range d lo hi :
  le lo hi = true ->
  le lo (clampf d lo hi) = true /\ le (clampf d lo hi) hi = true.
Proof.
  intros Hb. destruct (le_not_nan _ _ Hb) as [Hlo Hhi].
  unfold clampf, std_max, std_min.
  destruct (lt d hi) eqn:Hd.
  - destruct (lt lo d) eqn:Hl.
    + split; apply lt_le; assumption.
    + split; [apply le_refl, Hlo|exact Hb].
  - destruct (lt lo hi) eqn:Hl.
    + split; [exact Hb|apply le_refl, Hhi].
    + split; [apply le_refl, Hlo|exact Hb].
Qed.

(** A value that is not below the upper bound is clamped to a bound that
    compares equal to the upper bound, and to the upper bound itself when
    the bounds differ. *)
Lemma clampf_upper d lo hi :
  lt d hi = false -> lt lo hi = true -> clampf d lo hi = hi.
Proof.
  intros Hd Hl. unfold clampf, std_max, std_min. rewrite Hd, Hl. reflexivity.
Qed.

Lemma clampf_upper_zero d n :
  0 <= n -> lt d (of_int n) = false -> clampf d zero (of_int n) = of_int n.
Proof.
  intros Hn Hd. unfold clampf, std_max, std_min. rewrite Hd.
  pose proof (of_int_sign n Hn) as Hs.
  destruct (of_int n) as [s|s| |s m e]; simpl in Hs; try contradiction; subst; reflexivity.
Qed.

End Clamp.

(** ** Rounding, through integer codes

    A value [x >= 0] is given at an exponent [e] by the code
    [4 * floor (x / 2^e) + t], where [t] tells whether the fraction is zero,
    below one half, one half, or above.  [binary_round_aux] is a function of
    this code: shifts with a sticky bit, then rounding to nearest even. *)

Ltac zdm := Z.div_mod_to_equations; lia.

Lemma shift1_rec mrs :
  0 <= shr_m mrs -> rec_code (shr_1 mrs) = shift1 (rec_code mrs).
Proof.
  destruct mrs as [m r s]. unfold rec_code, shift1. simpl. intros Hm.
  destruct m as [|p|p]; [| |lia].
  - destruct r, s; reflexivity.
  - destruct p as [p|p|]; destruct r, s; simpl shr_m; simpl shr_r; simpl shr_s; simpl orb; cbv iota;
      match goal with |- context [if ?c then _ else _] => idtac end;
      repeat match goal with
      | |- context [Z.eqb ?a 1] => destruct (Z.eqb_spec a 1)
      end; zdm.
Qed.

Lemma shift1_nonneg T : 0 <= T -> 0 <= shift1 T.
Proof. unfold shift1. intros. destruct (Z.eqb_spec (T mod 4) 1); zdm. Qed.

Lemma shift1_mono T1 T2 : T1 <= T2 -> shift1 T1 <= shift1 T2.
Proof.
  unfold shift1. intros.
  destruct (Z.eqb_spec (T1 mod 4) 1), (Z.eqb_spec (T2 mod 4) 1); zdm.
Qed.

Lemma rnd_code_mono T1 T2 : T1 <= T2 -> rnd_code T1 <= rnd_code T2.
Proof.
  unfold rnd_code. intros.
  destruct (Z.eqb_spec (T1 mod 4) 3), (Z.eqb_spec (T1 mod 8) 6),
    (Z.eqb_spec (T2 mod 4) 3), (Z.eqb_spec (T2 mod 8) 6); cbn [orb]; zdm.
Qed.

Lemma rnd_code_rec mrs :
  round_nearest_even (shr_m mrs) (loc_of_shr_record mrs) = rnd_code (rec_code mrs).
Proof.
  destruct mrs as [m r s]. unfold rnd_code, rec_code, round_nearest_even.
  cbn [shr_m shr_r shr_s loc_of_shr_record].
  pose proof (Zmod_even m) as He.
  destruct r, s; cbv iota; destruct (Z.even m);
    repeat match goal with
    | |- context [Z.eqb ?a ?b] => destruct (Z.eqb_spec a b)
    end; cbn [orb]; cbv iota; zdm.
Qed.

Lemma iter_pos_nat {A} (f : A -> A) p x :
  SpecFloat.iter_pos f p x = Nat.iter (Pos.to_nat p) f x.
Proof.
  revert x. induction p as [p IH|p IH|]; intros x; cbn [SpecFloat.iter_pos].
  - rewrite !IH. rewrite Pos2Nat.inj_xI.
    rewrite <- Nat.iter_add. rewrite Nat.iter_succ_r. f_equal. lia.
  - rewrite !IH. rewrite Pos2Nat.inj_xO.
    rewrite <- Nat.iter_add. f_equal. lia.
  - reflexivity.
Qed.

Lemma shr_1_m_nonneg mrs : 0 <= shr_m mrs -> 0 <= shr_m (shr_1 mrs).
Proof.
  destruct mrs as [m r s]. simpl. destruct m as [|q|q]; simpl; try lia.
  destruct q; simpl; lia.
Qed.

Lemma shiftn_rec n mrs :
  0 <= shr_m mrs ->
  0 <= shr_m (Nat.iter n shr_1 mrs) /\
  rec_code (Nat.iter n shr_1 mrs) = shiftn n (rec_code mrs).
Proof.
  intros Hm. induction n as [|n [IH1 IH2]]; simpl.
  - auto.
  - split; [apply shr_1_m_nonneg, IH1|].
    rewrite shift1_rec by exact IH1. rewrite IH2. reflexivity.
Qed.

Lemma rec_code_of_loc m l : rec_code (shr_record_of_loc m l) = tenc m l.
Proof.
  destruct l as [|[]]; unfold rec_code, tenc;
    cbn [shr_m shr_r shr_s shr_record_of_loc loc_code]; lia.
Qed.

Lemma shr_m_of_loc m l : shr_m (shr_record_of_loc m l) = m.
Proof. destruct l as [|[]]; reflexivity. Qed.

Lemma rec_code_div mrs : rec_code mrs / 4 = shr_m mrs.
Proof.
  destruct mrs as [m r s]. unfold rec_code. cbn [shr_m shr_r shr_s]. destruct r, s; zdm.
Qed.

Lemma tenc_div m l : tenc m l / 4 = m.
Proof. unfold tenc. destruct l as [|[]]; cbn [loc_code]; zdm. Qed.

Lemma shr_fexp_code m e l :
  0 <= m ->
  let r := shr_fexp prec emax m e l in
  0 <= shr_m (fst r) /\
  rec_code (fst r) = shiftn (Z.to_nat (nshift m e)) (tenc m l) /\
  snd r = e + nshift m e.
Proof.
  intros Hm. unfold shr_fexp, shr, nshift.
  destruct (fexp prec emax (Zdigits2 m + e) - e) as [|p|p] eqn:E; simpl fst; simpl snd.
  - rewrite shr_m_of_loc, rec_code_of_loc. simpl. repeat split; try lia.
  - rewrite iter_pos_nat.
    destruct (shiftn_rec (Pos.to_nat p) (shr_record_of_loc m l)) as [H1 H2].
    { rewrite shr_m_of_loc. exact Hm. }
    rewrite rec_code_of_loc in H2.
    replace (Z.to_nat (Z.max 0 (Z.pos p))) with (Pos.to_nat p) by lia.
    repeat split; try assumption; lia.
  - rewrite shr_m_of_loc, rec_code_of_loc.
    replace (Z.to_nat (Z.max 0 (Z.neg p))) with 0%nat by lia.
    simpl. repeat split; try lia.
Qed.

Lemma rnd_code_nonneg T : 0 <= T -> 0 <= rnd_code T.
Proof.
  unfold rnd_code. intros.
  destruct ((T mod 4 =? 3) || (T mod 8 =? 6)); zdm.
Qed.

Lemma binary_round_aux_code s m e l :
  0 <= m -> binary_round_aux prec emax s m e l = round_T s (tenc m l) e.
Proof.
  intros Hm. unfold binary_round_aux, round_T.
  pose proof (shr_fexp_code m e l Hm) as H1. cbv zeta in H1.
  destruct (shr_fexp prec emax m e l) as [mrs' e']. simpl fst in H1; simpl snd in H1.
  destruct H1 as (Hn1 & Hc1 & ->).
  rewrite rnd_code_rec, Hc1, tenc_div.
  set (M := rnd_code (shiftn (Z.to_nat (nshift m e)) (tenc m l))).
  assert (HM : 0 <= M).
  { unfold M. rewrite <- Hc1. apply rnd_code_nonneg.
    unfold rec_code. destruct (shr_r mrs'), (shr_s mrs'); lia. }
  pose proof (shr_fexp_code M (e + nshift m e) loc_Exact HM) as H2. cbv zeta in H2.
  destruct (shr_fexp prec emax M (e + nshift m e) loc_Exact) as [mrs'' e''].
  simpl fst in H2; simpl snd in H2.
  destruct H2 as (Hn2 & Hc2 & ->).
  unfold tenc in Hc2. simpl loc_code in Hc2. rewrite Z.add_0_r in Hc2.
  rewrite <- Hc2, rec_code_div. reflexivity.
Qed.

(** ** Digits *)

Lemma digits2_size p : digits2_pos p = Pos.size p.
Proof. induction p; simpl; congruence. Qed.

Lemma digits_bounds m :
  0 < m -> 2 ^ (Zdigits2 m - 1) <= m < 2 ^ Zdigits2 m.
Proof.
  destruct m as [|p|p]; try lia. intros _. simpl Zdigits2. rewrite digits2_size.
  pose proof (Pos.size_gt p) as H1. pose proof (Pos.size_le p) as H2.
  apply Pos2Z.pos_lt_pos in H1. apply Pos2Z.pos_le_pos in H2.
  rewrite Pos2Z.inj_pow in H1, H2. rewrite Pos2Z.inj_xO in H2.
  replace (Z.pos (Pos.size p)) with (Z.succ (Z.pos (Pos.size p) - 1)) in H2 by lia.
  rewrite Z.pow_succ_r in H2 by lia. change (2 * 1) with 2 in H2. lia.
Qed.

Lemma digits_nonneg m : 0 <= Zdigits2 m.
Proof. destruct m; simpl; lia. Qed.

Lemma digits_pos m : 0 < m -> 0 < Zdigits2 m.
Proof. destruct m; simpl; lia. Qed.

Lemma digits_unique m d :
  0 < m -> 2 ^ (d - 1) <= m < 2 ^ d -> Zdigits2 m = d.
Proof.
  intros Hm [H1 H2]. pose proof (digits_bounds m Hm) as [H3 H4].
  pose proof (digits_pos m Hm).
  assert (0 < d).
  { destruct (Z.lt_ge_cases 0 d); [assumption|].
    destruct (Z.eq_dec d 0) as [->|]; [simpl in H2; lia|].
    rewrite Z.pow_neg_r in H2 by lia. lia. }
  destruct (Z.lt_trichotomy (Zdigits2 m) d) as [Hlt|[Heq|Hgt]]; [|assumption|].
  - assert (2 ^ Zdigits2 m <= 2 ^ (d - 1)) by (apply Z.pow_le_mono_r; lia). lia.
  - assert (2 ^ d <= 2 ^ (Zdigits2 m - 1)) by (apply Z.pow_le_mono_r; lia). lia.
Qed.

Lemma digits_mono m1 m2 : 0 <= m1 <= m2 -> Zdigits2 m1 <= Zdigits2 m2.
Proof.
  intros [H1 H2]. destruct (Z.eq_dec m1 0) as [->|]; [apply digits_nonneg|].
  pose proof (digits_bounds m1 ltac:(lia)) as [H3 H4].
  pose proof (digits_bounds m2 ltac:(lia)) as [H5 H6].
  destruct (Z.le_gt_cases (Zdigits2 m1) (Zdigits2 m2)); [assumption|].
  assert (2 ^ Zdigits2 m2 <= 2 ^ (Zdigits2 m1 - 1)).
  { apply Z.pow_le_mono_r; [lia|]. lia. }
  lia.
Qed.

Lemma digits_lt_pow m d : 0 <= d -> 0 <= m < 2 ^ d -> Zdigits2 m <= d.
Proof.
  intros Hd [H1 H2]. destruct (Z.eq_dec m 0) as [->|]; [simpl; lia|].
  pose proof (digits_bounds m ltac:(lia)) as [H3 H4].
  destruct (Z.le_gt_cases (Zdigits2 m) d); [assumption|].
  assert (2 ^ d <= 2 ^ (Zdigits2 m - 1)) by (apply Z.pow_le_mono_r; lia). lia.
Qed.

Lemma digits_ge_pow m d : 0 <= d -> 2 ^ d <= m -> d < Zdigits2 m.
Proof.
  intros Hd H. assert (0 < 2 ^ d) by (apply Z.pow_pos_nonneg; lia).
  pose proof (digits_bounds m ltac:(lia)) as [H3 H4].
  destruct (Z.lt_ge_cases d (Zdigits2 m)); [assumption|].
  assert (2 ^ Zdigits2 m <= 2 ^ d).
  { apply Z.pow_le_mono_r; [lia|]. lia. }
  lia.
Qed.

(** The digits of a quotient by a power of two. *)
Lemma digits_div_pow m n :
  0 <= n -> 2 ^ n <= m -> Zdigits2 (m / 2 ^ n) = Zdigits2 m - n.
Proof.
  intros Hn Hm. assert (Hp : 0 < 2 ^ n) by (apply Z.pow_pos_nonneg; lia).
  pose proof (digits_bounds m ltac:(lia)) as [H3 H4].
  pose proof (digits_ge_pow m n Hn Hm) as Hd.
  apply digits_unique.
  - apply Z.div_str_pos. lia.
  - split.
    + apply Z.div_le_lower_bound; [lia|].
      rewrite <- Z.pow_add_r by lia. replace (n + (Zdigits2 m - n - 1)) with (Zdigits2 m - 1) by lia.
      exact H3.
    + apply Z.div_lt_upper_bound; [lia|].
      rewrite <- Z.pow_add_r by lia. replace (n + (Zdigits2 m - n)) with (Zdigits2 m) by lia.
      exact H4.
Qed.

(** ** Shifts *)

Lemma shiftn_0 T : shiftn 0 T = T.
Proof. reflexivity. Qed.

Lemma shiftn_S n T : shiftn (S n) T = shift1 (shiftn n T).
Proof. reflexivity. Qed.

Lemma shift1_div T : shift1 T / 4 = T / 4 / 2.
Proof. unfold shift1. destruct (Z.eqb_spec (T mod 4) 1); zdm. Qed.

Lemma shiftn_div n T : shiftn n T / 4 = T / 4 / 2 ^ Z.of_nat n.
Proof.
  induction n as [|n IH].
  - rewrite shiftn_0. change (Z.of_nat 0) with 0. rewrite Z.pow_0_r, Z.div_1_r. reflexivity.
  - rewrite shiftn_S, shift1_div, IH.
    rewrite Nat2Z.inj_succ, Z.pow_succ_r by lia.
    rewrite Z.div_div by (try lia; apply Z.pow_pos_nonneg; lia).
    f_equal. lia.
Qed.

Lemma shiftn_mono n T1 T2 : T1 <= T2 -> shiftn n T1 <= shiftn n T2.
Proof.
  intros H. induction n as [|n IH]; [exact H|].
  rewrite !shiftn_S. apply shift1_mono, IH.
Qed.

Lemma shiftn_nonneg n T : 0 <= T -> 0 <= shiftn n T.
Proof.
  intros H. induction n as [|n IH]; [exact H|].
  rewrite shiftn_S. apply shift1_nonneg, IH.
Qed.

Lemma shiftn_add n k T : shiftn (n + k) T = shiftn n (shiftn k T).
Proof. unfold shiftn. apply Nat.iter_add. Qed.

(** Shifting an exact multiple loses nothing. *)
Lemma shiftn_exact n m : shiftn n (4 * (m * 2 ^ Z.of_nat n)) = 4 * m.
Proof.
  revert m. induction n as [|n IH]; intros m.
  - rewrite shiftn_0. change (Z.of_nat 0) with 0.
    rewrite Z.pow_0_r. lia.
  - replace (S n) with (n + 1)%nat by lia. rewrite shiftn_add.
    change (shiftn 1 ?x) with (shift1 x).
    replace (Z.of_nat (n + 1)) with (Z.succ (Z.of_nat n)) by lia.
    rewrite Z.pow_succ_r by lia.
    replace (shift1 (4 * (m * (2 * 2 ^ Z.of_nat n)))) with (4 * (m * 2 ^ Z.of_nat n)).
    + apply IH.
    + unfold shift1. set (x := m * 2 ^ Z.of_nat n).
      replace (4 * (m * (2 * 2 ^ Z.of_nat n))) with (8 * x) by (unfold x; lia).
      destruct (Z.eqb_spec ((8 * x) mod 4) 1); zdm.
Qed.

Lemma fexp_eq x : fexp prec emax x = Z.max (x - 24) (-149).
Proof. reflexivity. Qed.

Lemma rnd_code_bounds T : T / 4 <= rnd_code T <= T / 4 + 1.
Proof. unfold rnd_code. destruct ((T mod 4 =? 3) || (T mod 8 =? 6)); lia. Qed.

Lemma rnd_code_exact m : rnd_code (4 * m) = m.
Proof.
  unfold rnd_code.
  destruct (Z.eqb_spec ((4 * m) mod 4) 3), (Z.eqb_spec ((4 * m) mod 8) 6); cbn [orb]; zdm.
Qed.

(** ** The second stage *)

Lemma round_T_finish s T e :
  round_T s T e =
  finish s (rnd_code (shiftn (Z.to_nat (nshift (T / 4) e)) T)) (e + nshift (T / 4) e).
Proof. unfold round_T, finish, mk. change (emax - prec) with 104. reflexivity. Qed.

Lemma nshift_eq m e : nshift m e = Z.max 0 (Z.max (Zdigits2 m - 24) (-149 - e)).
Proof. unfold nshift. rewrite fexp_eq. lia. Qed.

Lemma finish_small s M e1 :
  -149 <= e1 -> 0 <= M < 2 ^ 24 -> finish s M e1 = mk s M e1.
Proof.
  intros He HM. unfold finish.
  assert (Hn : nshift M e1 = 0).
  { rewrite nshift_eq. pose proof (digits_lt_pow M 24 ltac:(lia) HM). lia. }
  rewrite Hn. change (Z.to_nat 0) with 0%nat. rewrite shiftn_0, Z.add_0_r.
  f_equal. zdm.
Qed.

Lemma finish_carry s e1 :
  -149 <= e1 -> finish s (2 ^ 24) e1 = mk s (2 ^ 23) (e1 + 1).
Proof.
  intros He. unfold finish.
  assert (Hn : nshift (2 ^ 24) e1 = 1).
  { rewrite nshift_eq. change (Zdigits2 (2 ^ 24)) with 25. lia. }
  rewrite Hn. reflexivity.
Qed.

(** The first stage leaves at most [prec] digits, at an exponent that is
    not below [emin]. *)
Lemma nshift_bounds m e :
  0 <= m ->
  0 <= nshift m e /\ -149 <= e + nshift m e /\ m / 2 ^ nshift m e < 2 ^ 24.
Proof.
  intros Hm. rewrite nshift_eq.
  set (n := Z.max 0 (Z.max (Zdigits2 m - 24) (-149 - e))).
  assert (Hn : 0 <= n) by lia.
  repeat split; try lia.
  assert (Hp : 0 < 2 ^ n) by (apply Z.pow_pos_nonneg; lia).
  apply Z.div_lt_upper_bound; [exact Hp|].
  rewrite <- Z.pow_add_r by lia.
  destruct (Z.eq_dec m 0) as [->|]; [apply Z.pow_pos_nonneg; lia|].
  pose proof (digits_bounds m ltac:(lia)) as [_ H].
  eapply Z.lt_le_trans; [exact H|]. apply Z.pow_le_mono_r; lia.
Qed.

Lemma first_stage_bounds T e :
  0 <= T ->
  let n := nshift (T / 4) e in
  let M := rnd_code (shiftn (Z.to_nat n) T) in
  0 <= n /\ -149 <= e + n /\ T / 4 / 2 ^ n <= M <= T / 4 / 2 ^ n + 1 /\ M <= 2 ^ 24.
Proof.
  intros HT n M.
  destruct (nshift_bounds (T / 4) e) as (Hn & He & Hlt); [zdm|].
  fold n in Hn, He, Hlt.
  pose proof (rnd_code_bounds (shiftn (Z.to_nat n) T)) as HM. fold M in HM.
  rewrite shiftn_div, Z2Nat.id in HM by exact Hn.
  repeat split; try lia.
Qed.

Lemma finish_eq s M e1 :
  -149 <= e1 -> 0 <= M <= 2 ^ 24 -> finish s M e1 = mk s (carry_m M) (carry_e M e1).
Proof.
  intros He HM. unfold carry_m, carry_e.
  destruct (Z.eqb_spec M (2 ^ 24)) as [->|Hne].
  - apply finish_carry, He.
  - apply finish_small; [exact He|lia].
Qed.

Lemma le_mk a ea b eb :
  0 <= a -> 0 <= b ->
  a = 0 \/ (0 < b /\ (ea < eb \/ (ea = eb /\ a <= b))) ->
  le (mk false a ea) (mk false b eb) = true.
Proof.
  intros Ha Hb H. unfold le, SFleb, mk.
  destruct a as [|pa|pa]; [|clear Ha|lia].
  - destruct b as [|pb|pb]; [reflexivity| |lia].
    destruct (eb <=? 104); reflexivity.
  - destruct H as [H|[Hb0 H]]; [discriminate|].
    destruct b as [|pb|pb]; [lia| |lia].
    destruct (Z.leb_spec ea 104), (Z.leb_spec eb 104); simpl; try reflexivity.
    + destruct (Z.compare_spec ea eb); try reflexivity; try lia.
      change (Pos.compare_cont Eq pa pb) with (Pos.compare pa pb).
      destruct (Pos.compare_spec pa pb); try reflexivity. lia.
    + lia.
Qed.

(** Rounding is monotone in the code, at a fixed exponent. *)
Lemma round_T_mono T1 T2 e :
  0 <= T1 <= T2 -> le (round_T false T1 e) (round_T false T2 e) = true.
Proof.
  intros [H1 H12]. rewrite !round_T_finish.
  pose proof (first_stage_bounds T1 e H1) as B1.
  pose proof (first_stage_bounds T2 e ltac:(lia)) as B2.
  cbv zeta in B1, B2.
  set (n1 := nshift (T1 / 4) e) in *. set (n2 := nshift (T2 / 4) e) in *.
  set (M1 := rnd_code (shiftn (Z.to_nat n1) T1)) in *.
  set (M2 := rnd_code (shiftn (Z.to_nat n2) T2)) in *.
  destruct B1 as (Hn1 & He1 & HM1 & HM1'). destruct B2 as (Hn2 & He2 & HM2 & HM2').
  assert (Hq1 : 0 <= T1 / 4 / 2 ^ n1).
  { apply Z.div_pos; [zdm|apply Z.pow_pos_nonneg; lia]. }
  assert (Hq2 : 0 <= T2 / 4 / 2 ^ n2).
  { apply Z.div_pos; [zdm|apply Z.pow_pos_nonneg; lia]. }
  rewrite !finish_eq by lia.
  assert (Hd : Zdigits2 (T1 / 4) <= Zdigits2 (T2 / 4)) by (apply digits_mono; zdm).
  assert (En1 : n1 = Z.max 0 (Z.max (Zdigits2 (T1 / 4) - 24) (-149 - e)))
    by apply nshift_eq.
  assert (En2 : n2 = Z.max 0 (Z.max (Zdigits2 (T2 / 4) - 24) (-149 - e)))
    by apply nshift_eq.
  assert (Hn12 : n1 <= n2) by lia.
  apply le_mk.
  { unfold carry_m. destruct (M1 =? 2 ^ 24); lia. }
  { unfold carry_m. destruct (M2 =? 2 ^ 24); lia. }
  destruct (Z.eq_dec n1 n2) as [Heq|Hne].
  - assert (HM : M1 <= M2).
    { unfold M1, M2. rewrite Heq. apply rnd_code_mono, shiftn_mono, H12. }
    unfold carry_m, carry_e.
    destruct (Z.eqb_spec M1 (2 ^ 24)), (Z.eqb_spec M2 (2 ^ 24)); lia.
  - assert (Hn2' : n2 = Zdigits2 (T2 / 4) - 24).
    { lia. }
    assert (Hm2 : 0 < T2 / 4).
    { destruct (Z.eq_dec (T2 / 4) 0) as [E|]; [|zdm].
      rewrite E in Hn2'. simpl in Hn2'. lia. }
    pose proof (digits_bounds (T2 / 4) Hm2) as [Hlo _].
    assert (Hge : 2 ^ 23 <= T2 / 4 / 2 ^ n2).
    { apply Z.div_le_lower_bound; [apply Z.pow_pos_nonneg; lia|].
      rewrite <- Z.pow_add_r by lia.
      replace (n2 + 23) with (Zdigits2 (T2 / 4) - 1) by lia. exact Hlo. }
    unfold carry_m, carry_e.
    destruct (Z.eqb_spec M1 (2 ^ 24)), (Z.eqb_spec M2 (2 ^ 24)); lia.
Qed.

(** ** Codes of rationals *)

Lemma qcode_nonneg N D : 0 <= N -> 0 < D -> 0 <= qcode N D.
Proof.
  intros. unfold qcode. assert (0 <= N / D) by (apply Z.div_pos; lia).
  destruct (N mod D =? 0); lia.
Qed.

Lemma qcode_mono N1 D1 N2 D2 :
  0 < D1 -> 0 < D2 -> N1 * D2 <= N2 * D1 -> qcode N1 D1 <= qcode N2 D2.
Proof.
  intros H1 H2 H. unfold qcode.
  pose proof (Z.div_mod N1 D1 ltac:(lia)) as E1.
  pose proof (Z.div_mod N2 D2 ltac:(lia)) as E2.
  pose proof (Z.mod_pos_bound N1 D1 H1) as B1.
  pose proof (Z.mod_pos_bound N2 D2 H2) as B2.
  set (q1 := N1 / D1) in *. set (r1 := N1 mod D1) in *.
  set (q2 := N2 / D2) in *. set (r2 := N2 mod D2) in *.
  assert (Hq : q1 <= q2).
  { destruct (Z.le_gt_cases q1 q2); [assumption|]. exfalso.
    assert (q2 + 1 <= q1) by lia.
    assert (N2 * D1 < (q2 + 1) * D2 * D1) by nia.
    assert ((q2 + 1) * D2 * D1 <= q1 * D1 * D2) by nia.
    nia. }
  destruct (Z.eqb_spec r1 0), (Z.eqb_spec r2 0); try lia.
  destruct (Z.eq_dec q1 q2) as [Heq|]; [|lia]. exfalso.
  subst r2. assert (N2 = D2 * q2) by lia. nia.
Qed.

(** Halving the rational shifts the code. *)
Lemma qcode_shift N D : 0 < D -> shift1 (qcode (2 * N) D) = qcode N D.
Proof.
  intros HD. unfold shift1, qcode.
  pose proof (Z.div_mod N D ltac:(lia)) as E.
  pose proof (Z.mod_pos_bound N D HD) as B.
  set (q := N / D) in *. set (r := N mod D) in *.
  assert (H2 : 2 * N = D * (2 * q) + 2 * r) by lia.
  destruct (Z.lt_ge_cases (2 * r) D) as [Hlt|Hge].
  - assert (Hd : (2 * N) / D = 2 * q).
    { symmetry. apply (Z.div_unique_pos _ _ _ (2 * r)); lia. }
    assert (Hm : (2 * N) mod D = 2 * r).
    { symmetry. apply (Z.mod_unique_pos _ _ (2 * q)); lia. }
    rewrite Hd, Hm.
    destruct (Z.eqb_spec (2 * r) 0), (Z.eqb_spec r 0); try lia;
      match goal with |- context [Z.eqb ?a 1] => destruct (Z.eqb_spec a 1) end; zdm.
  - assert (Hd : (2 * N) / D = 2 * q + 1).
    { symmetry. apply (Z.div_unique_pos _ _ _ (2 * r - D)); lia. }
    assert (Hm : (2 * N) mod D = 2 * r - D).
    { symmetry. apply (Z.mod_unique_pos _ _ (2 * q + 1)); lia. }
    rewrite Hd, Hm.
    destruct (Z.eqb_spec (2 * r - D) 0), (Z.eqb_spec r 0); try lia;
      match goal with |- context [Z.eqb ?a 1] => destruct (Z.eqb_spec a 1) end; zdm.
Qed.

Lemma qcode_shiftn k N D :
  0 < D -> shiftn k (qcode (N * 2 ^ Z.of_nat k) D) = qcode N D.
Proof.
  intros HD. revert N. induction k as [|k IH]; intros N.
  - rewrite shiftn_0. change (Z.of_nat 0) with 0. rewrite Z.pow_0_r, Z.mul_1_r. reflexivity.
  - replace (S k) with (k + 1)%nat by lia. rewrite shiftn_add.
    change (shiftn 1 ?x) with (shift1 x).
    replace (Z.of_nat (k + 1)) with (Z.succ (Z.of_nat k)) by lia.
    rewrite Z.pow_succ_r by lia.
    replace (N * (2 * 2 ^ Z.of_nat k)) with (2 * (N * 2 ^ Z.of_nat k)) by lia.
    rewrite qcode_shift by exact HD. apply IH.
Qed.

Lemma qcode_div N D : 0 < D -> qcode (2 * N) D / 4 = N / D.
Proof.
  intros HD. unfold qcode.
  pose proof (Z.div_mod N D ltac:(lia)) as E.
  pose proof (Z.mod_pos_bound N D HD) as B.
  set (q := N / D) in *. set (r := N mod D) in *.
  destruct (Z.lt_ge_cases (2 * r) D) as [Hlt|Hge].
  - assert (Hd : (2 * N) / D = 2 * q).
    { symmetry. apply (Z.div_unique_pos _ _ _ (2 * r)); lia. }
    rewrite Hd. destruct ((2 * N) mod D =? 0); zdm.
  - assert (Hd : (2 * N) / D = 2 * q + 1).
    { symmetry. apply (Z.div_unique_pos _ _ _ (2 * r - D)); lia. }
    rewrite Hd. destruct ((2 * N) mod D =? 0); zdm.
Qed.

Lemma qcode_one N : qcode (2 * N) 1 = 4 * N.
Proof.
  unfold qcode. rewrite Z.div_1_r, Z.mod_1_r. change (0 =? 0) with true. cbv iota. lia.
Qed.

(** ** Refinement *)

Lemma round_T_refine s Tf k e :
  0 <= Tf -> genuine (shiftn k Tf) e ->
  round_T s Tf (e - Z.of_nat k) = round_T s (shiftn k Tf) e.
Proof.
  intros HT Hg. rewrite !round_T_finish.
  assert (Hmc : shiftn k Tf / 4 = Tf / 4 / 2 ^ Z.of_nat k) by apply shiftn_div.
  assert (Hp : 0 < 2 ^ Z.of_nat k) by (apply Z.pow_pos_nonneg; lia).
  assert (Hmf : 0 <= Tf / 4) by zdm.
  assert (Hn : nshift (Tf / 4) (e - Z.of_nat k) = nshift (shiftn k Tf / 4) e + Z.of_nat k).
  { rewrite !nshift_eq, Hmc. unfold genuine in Hg. rewrite Hmc in Hg.
    destruct (Z.le_gt_cases (2 ^ Z.of_nat k) (Tf / 4)) as [Hge|Hlt].
    - rewrite digits_div_pow in * by lia. lia.
    - assert (E0 : Tf / 4 / 2 ^ Z.of_nat k = 0) by (apply Z.div_small; lia).
      rewrite E0 in *. change (Zdigits2 0) with 0 in *.
      pose proof (digits_lt_pow (Tf / 4) (Z.of_nat k) ltac:(lia) ltac:(lia)).
      lia. }
  rewrite Hn.
  assert (Hnc : 0 <= nshift (shiftn k Tf / 4) e) by (rewrite nshift_eq; lia).
  replace (Z.to_nat (nshift (shiftn k Tf / 4) e + Z.of_nat k))
    with (Z.to_nat (nshift (shiftn k Tf / 4) e) + k)%nat by lia.
  rewrite shiftn_add. f_equal. lia.
Qed.

Lemma Rq_refine s N D e k :
  0 <= N -> 0 < D -> 0 <= k -> genuine_q N D e ->
  Rq s (N * 2 ^ k) D (e - k) = Rq s N D e.
Proof.
  intros HN HD Hk Hg. unfold Rq.
  rewrite <- (Z2Nat.id k Hk).
  rewrite <- (qcode_shiftn (Z.to_nat k) (2 * N) D HD).
  replace (2 * (N * 2 ^ Z.of_nat (Z.to_nat k))) with (2 * N * 2 ^ Z.of_nat (Z.to_nat k)) by lia.
  apply round_T_refine.
  - apply qcode_nonneg; [|exact HD].
    assert (0 < 2 ^ Z.of_nat (Z.to_nat k)) by (apply Z.pow_pos_nonneg; lia). nia.
  - rewrite qcode_shiftn by exact HD. unfold genuine. rewrite qcode_div by exact HD.
    exact Hg.
Qed.

Lemma Rq_mono N1 D1 N2 D2 e :
  0 <= N1 -> 0 < D1 -> 0 < D2 -> N1 * D2 <= N2 * D1 ->
  le (Rq false N1 D1 e) (Rq false N2 D2 e) = true.
Proof.
  intros HN H1 H2 H. unfold Rq. apply round_T_mono. split.
  - apply qcode_nonneg; lia.
  - apply qcode_mono; lia.
Qed.

(** Monotonicity across exponents. *)
Lemma Rq_le N1 D1 e1 N2 D2 e2 e :
  0 <= N1 -> 0 < D1 -> 0 <= N2 -> 0 < D2 -> e <= e1 -> e <= e2 ->
  genuine_q N1 D1 e1 -> genuine_q N2 D2 e2 ->
  N1 * 2 ^ (e1 - e) * D2 <= N2 * 2 ^ (e2 - e) * D1 ->
  le (Rq false N1 D1 e1) (Rq false N2 D2 e2) = true.
Proof.
  intros HN1 HD1 HN2 HD2 He1 He2 Hg1 Hg2 H.
  rewrite <- (Rq_refine false N1 D1 e1 (e1 - e)) by (try assumption; lia).
  rewrite <- (Rq_refine false N2 D2 e2 (e2 - e)) by (try assumption; lia).
  replace (e1 - (e1 - e)) with e by lia. replace (e2 - (e2 - e)) with e by lia.
  assert (0 < 2 ^ (e1 - e)) by (apply Z.pow_pos_nonneg; lia).
  apply Rq_mono; try assumption. nia.
Qed.

(** ** Exact values and validity *)

Lemma bounded_spec m e :
  bounded prec emax m e = true <->
  Z.max (Zdigits2 (Z.pos m) + e - 24) (-149) = e /\ e <= 104.
Proof.
  unfold bounded, canonical_mantissa. rewrite andb_true_iff, Z.eqb_eq, Z.leb_le.
  rewrite fexp_eq. reflexivity.
Qed.

Lemma mk_pos s m e : 0 < m -> e <= 104 -> mk s m e = S754_finite s (Z.to_pos m) e.
Proof.
  intros Hm He. unfold mk. destruct m as [|p|p]; try lia.
  destruct (Z.leb_spec e 104); [reflexivity|lia].
Qed.

Lemma Rq_exact s m e :
  bounded prec emax m e = true ->
  Rq s (Z.pos m) 1 e = S754_finite s m e /\ genuine_q (Z.pos m) 1 e.
Proof.
  intros [Hc He]%bounded_spec. split.
  - unfold Rq. rewrite qcode_one, round_T_finish.
    replace (4 * Z.pos m / 4) with (Z.pos m) by zdm.
    assert (Hn : nshift (Z.pos m) e = 0) by (rewrite nshift_eq; lia).
    rewrite Hn. change (Z.to_nat 0) with 0%nat. rewrite shiftn_0, rnd_code_exact, Z.add_0_r.
    unfold finish. rewrite Hn. change (Z.to_nat 0) with 0%nat.
    rewrite shiftn_0, Z.add_0_r.
    replace (4 * Z.pos m / 4) with (Z.pos m) by zdm.
    rewrite mk_pos by lia. reflexivity.
  - unfold genuine_q. rewrite Z.div_1_r. lia.
Qed.

Lemma mk_valid s m e :
  0 <= m -> (0 < m -> e <= 104 -> Z.max (Zdigits2 m + e - 24) (-149) = e) ->
  valid (mk s m e) = true.
Proof.
  intros Hm H. unfold mk. destruct m as [|p|p]; [reflexivity| |lia].
  destruct (Z.leb_spec e 104); [|reflexivity].
  unfold valid, valid_binary. apply bounded_spec. split; [apply H; lia|lia].
Qed.

Lemma round_T_valid s T e : 0 <= T -> genuine T e -> valid (round_T s T e) = true.
Proof.
  intros HT Hg. rewrite round_T_finish.
  pose proof (first_stage_bounds T e HT) as B. cbv zeta in B.
  pose proof (nshift_eq (T / 4) e) as En.
  set (n := nshift (T / 4) e) in *.
  set (M := rnd_code (shiftn (Z.to_nat n) T)) in *.
  destruct B as (Hn & He & HM & HM').
  assert (Hq : 0 <= T / 4 / 2 ^ n).
  { apply Z.div_pos; [zdm|apply Z.pow_pos_nonneg; lia]. }
  rewrite finish_eq by lia.
  unfold carry_m, carry_e. destruct (Z.eqb_spec M (2 ^ 24)) as [E|NE].
  - apply mk_valid; [lia|]. intros _ _. change (Zdigits2 (2 ^ 23)) with 24. lia.
  - apply mk_valid; [lia|]. intros HMpos _.
    pose proof (digits_lt_pow M 24 ltac:(lia) ltac:(lia)) as Hd.
    destruct (Z.eq_dec (e + n) (-149)) as [E1|NE1]; [lia|].
    assert (Hn' : n = Zdigits2 (T / 4) - 24).
    { unfold genuine in Hg. lia. }
    assert (Hm : 0 < T / 4).
    { destruct (Z.eq_dec (T / 4) 0) as [E0|]; [|zdm].
      rewrite E0 in Hn'. change (Zdigits2 0) with 0 in Hn'. lia. }
    pose proof (digits_bounds (T / 4) Hm) as [Hlo _].
    assert (Hge : 2 ^ 23 <= T / 4 / 2 ^ n).
    { apply Z.div_le_lower_bound; [apply Z.pow_pos_nonneg; lia|].
      rewrite <- Z.pow_add_r by lia.
      replace (n + 23) with (Zdigits2 (T / 4) - 1) by lia. exact Hlo. }
    pose proof (digits_ge_pow M 23 ltac:(lia) ltac:(lia)). lia.
Qed.

Lemma Rq_valid s N D e :
  0 <= N -> 0 < D -> genuine_q N D e -> valid (Rq s N D e) = true.
Proof.
  intros HN HD Hg. unfold Rq. apply round_T_valid.
  - apply qcode_nonneg; lia.
  - unfold genuine. rewrite qcode_div by exact HD. exact Hg.
Qed.

(** ** Signs *)

Lemma mk_opp m e : 0 <= m -> mk true m e = SFopp (mk false m e).
Proof.
  intros Hm. unfold mk. destruct m as [|p|p]; [reflexivity| |lia].
  destruct (e <=? 104); reflexivity.
Qed.

Lemma round_T_opp T e : 0 <= T -> round_T true T e = SFopp (round_T false T e).
Proof.
  intros HT. rewrite !round_T_finish. unfold finish. apply mk_opp.
  assert (H : 0 <= shiftn (Z.to_nat (nshift (rnd_code (shiftn (Z.to_nat (nshift (T / 4) e)) T))
                 (e + nshift (T / 4) e)))
              (4 * rnd_code (shiftn (Z.to_nat (nshift (T / 4) e)) T))).
  { apply shiftn_nonneg.
    pose proof (rnd_code_nonneg (shiftn (Z.to_nat (nshift (T / 4) e)) T)
                  (shiftn_nonneg _ _ HT)). lia. }
  zdm.
Qed.

Lemma le_opp a b : le (SFopp a) (SFopp b) = le b a.
Proof.
  unfold le, SFleb.
  destruct a as [sa|sa| |sa ma ea], b as [sb|sb| |sb mb eb]; simpl;
    try reflexivity; try (destruct sa; reflexivity); try (destruct sb; reflexivity);
    try (destruct sa, sb; reflexivity).
  destruct sa, sb; simpl; try reflexivity.
  - rewrite (Z.compare_antisym ea eb). destruct (ea ?= eb); simpl; try reflexivity.
    change (Pos.compare_cont Eq ma mb) with (Pos.compare ma mb).
    change (Pos.compare_cont Eq mb ma) with (Pos.compare mb ma).
    rewrite (Pos.compare_antisym ma mb). destruct (Pos.compare ma mb); reflexivity.
  - rewrite (Z.compare_antisym ea eb). destruct (ea ?= eb); simpl; try reflexivity.
    change (Pos.compare_cont Eq ma mb) with (Pos.compare ma mb).
    change (Pos.compare_cont Eq mb ma) with (Pos.compare mb ma).
    rewrite (Pos.compare_antisym ma mb). destruct (Pos.compare ma mb); reflexivity.
Qed.

(** ** Rounding of dyadic numbers *)

Lemma iter_xO m d : Z.pos (Pos.iter xO m d) = Z.pos m * 2 ^ Z.pos d.
Proof.
  induction d as [|d IH] using Pos.peano_ind.
  - simpl. lia.
  - rewrite Pos.iter_succ, Pos2Z.inj_succ, Z.pow_succ_r by lia.
    rewrite Pos2Z.inj_xO, IH. lia.
Qed.

Lemma shl_align_spec m e e' :
  let '(mz, ez) := shl_align m e e' in
  ez = Z.min e e' /\ Z.pos mz = Z.pos m * 2 ^ (e - ez).
Proof.
  unfold shl_align. destruct (e' - e) as [|d|d] eqn:E.
  - split; [lia|]. replace (e - e) with 0 by lia. lia.
  - split; [lia|]. replace (e - e) with 0 by lia. lia.
  - split; [lia|]. rewrite iter_xO. f_equal. f_equal. lia.
Qed.

Lemma digits_mul_pow m k :
  0 < m -> 0 <= k -> Zdigits2 (m * 2 ^ k) = Zdigits2 m + k.
Proof.
  intros Hm Hk. assert (Hp : 0 < 2 ^ k) by (apply Z.pow_pos_nonneg; lia).
  pose proof (digits_bounds m Hm) as [H1 H2]. pose proof (digits_pos m Hm).
  apply digits_unique; [nia|]. split.
  - replace (Zdigits2 m + k - 1) with (Zdigits2 m - 1 + k) by lia.
    rewrite Z.pow_add_r by lia. nia.
  - rewrite Z.pow_add_r by lia. nia.
Qed.

Lemma binary_round_aux_exact s m e :
  0 <= m -> binary_round_aux prec emax s m e loc_Exact = Rq s m 1 e.
Proof.
  intros Hm. rewrite binary_round_aux_code by exact Hm.
  unfold Rq. rewrite qcode_one. unfold tenc. cbn [loc_code]. rewrite Z.add_0_r.
  reflexivity.
Qed.

(** [binary_round] rounds [m * 2 ^ e]; the value may be given at any
    exponent [E] that is fine enough. *)
Lemma binary_round_Rq s m e E :
  E <= e -> E <= Z.max (Zdigits2 (Z.pos m) + e - 24) (-149) ->
  binary_round prec emax s m e = Rq s (Z.pos m * 2 ^ (e - E)) 1 E.
Proof.
  intros HE1 HE2. unfold binary_round.
  pose proof (shl_align_spec m e (fexp prec emax (Z.pos (digits2_pos m) + e))) as Hs.
  destruct (shl_align m e _) as [mz ez]. destruct Hs as [Hez Hmz].
  rewrite fexp_eq in Hez. change (Z.pos (digits2_pos m)) with (Zdigits2 (Z.pos m)) in Hez.
  rewrite binary_round_aux_exact by lia.
  assert (Hg : genuine_q (Z.pos mz) 1 ez).
  { unfold genuine_q. rewrite Z.div_1_r, Hmz.
    rewrite digits_mul_pow by lia. lia. }
  rewrite <- (Rq_refine s (Z.pos mz) 1 ez (ez - E)) by (try assumption; lia).
  replace (ez - (ez - E)) with E by lia. f_equal.
  rewrite Hmz, <- Z.mul_assoc, <- Z.pow_add_r by lia. f_equal. f_equal. lia.
Qed.

Lemma binary_round_valid s m e : valid (binary_round prec emax s m e) = true.
Proof.
  rewrite (binary_round_Rq s m e (Z.min e (Z.max (Zdigits2 (Z.pos m) + e - 24) (-149))))
    by lia.
  set (E := Z.min e (Z.max (Zdigits2 (Z.pos m) + e - 24) (-149))).
  apply Rq_valid.
  - assert (0 < 2 ^ (e - E)) by (apply Z.pow_pos_nonneg; lia). nia.
  - lia.
  - unfold genuine_q. rewrite Z.div_1_r. rewrite digits_mul_pow by lia. lia.
Qed.

Lemma RN_valid v e : valid (RN v e) = true.
Proof.
  unfold RN, binary_normalize. destruct v; [reflexivity|apply binary_round_valid..].
Qed.

Lemma mk_sign s m e : 0 <= m -> has_sign s (mk s m e).
Proof.
  intros Hm. unfold mk. destruct m as [|p|p]; [reflexivity| |lia].
  destruct (e <=? 104); reflexivity.
Qed.

Lemma round_T_sign s T e : 0 <= T -> has_sign s (round_T s T e).
Proof.
  intros HT. rewrite round_T_finish. unfold finish. apply mk_sign.
  assert (H : 0 <= shiftn (Z.to_nat (nshift (rnd_code (shiftn (Z.to_nat (nshift (T / 4) e)) T))
                 (e + nshift (T / 4) e)))
              (4 * rnd_code (shiftn (Z.to_nat (nshift (T / 4) e)) T))).
  { apply shiftn_nonneg.
    pose proof (rnd_code_nonneg (shiftn (Z.to_nat (nshift (T / 4) e)) T)
                  (shiftn_nonneg _ _ HT)). lia. }
  zdm.
Qed.

Lemma Rq_sign s N D e : 0 <= N -> 0 < D -> has_sign s (Rq s N D e).
Proof. intros. apply round_T_sign, qcode_nonneg; lia. Qed.

Lemma Rq_opp_sign N D e : 0 <= N -> 0 < D -> has_sign true (SFopp (Rq false N D e)).
Proof.
  intros HN HD. unfold Rq. rewrite <- round_T_opp by (apply qcode_nonneg; lia).
  apply round_T_sign, qcode_nonneg; lia.
Qed.

Lemma le_signs a b : has_sign true a -> has_sign false b -> le a b = true.
Proof.
  destruct a as [sa|sa| |sa ma ea], b as [sb|sb| |sb mb eb]; simpl;
    try contradiction; intros -> ->; reflexivity.
Qed.

Lemma le_zero_r a : has_sign true a -> le a (S754_zero false) = true.
Proof. destruct a as [sa|sa| |sa ma ea]; simpl; try contradiction; intros ->; reflexivity. Qed.

Lemma le_zero_l b : has_sign false b -> le (S754_zero false) b = true.
Proof. destruct b as [sa|sa| |sa ma ea]; simpl; try contradiction; intros ->; reflexivity. Qed.

Lemma RN_pos v e E :
  0 < v -> E <= fine v e -> RN v e = Rq false (v * 2 ^ (e - E)) 1 E.
Proof.
  intros Hv HE. unfold RN, binary_normalize, fine in *. destruct v as [|p|p]; try lia.
  apply binary_round_Rq; lia.
Qed.

Lemma RN_neg v e E :
  v < 0 -> E <= fine v e -> RN v e = SFopp (Rq false (- v * 2 ^ (e - E)) 1 E).
Proof.
  intros Hv HE. unfold RN, binary_normalize, fine in *. destruct v as [|p|p]; try lia.
  change (Zdigits2 (Z.neg p)) with (Zdigits2 (Z.pos p)) in HE.
  rewrite (binary_round_Rq true p e E) by lia.
  change (- Z.neg p) with (Z.pos p). unfold Rq. apply round_T_opp.
  apply qcode_nonneg; [|lia].
  assert (0 < 2 ^ (e - E)) by (apply Z.pow_pos_nonneg; lia). nia.
Qed.

Lemma pow_scale a b k : 0 <= k -> a <= b -> a * 2 ^ k <= b * 2 ^ k.
Proof. intros Hk H. assert (0 < 2 ^ k) by (apply Z.pow_pos_nonneg; lia). nia. Qed.

Lemma pow_split x y z : z <= y -> y <= x -> 2 ^ (x - z) = 2 ^ (x - y) * 2 ^ (y - z).
Proof. intros. rewrite <- Z.pow_add_r by lia. f_equal. lia. Qed.

(** Rounding of dyadic numbers is monotone. *)
Lemma RN_le v1 e1 v2 e2 E :
  E <= e1 -> E <= e2 -> v1 * 2 ^ (e1 - E) <= v2 * 2 ^ (e2 - E) ->
  le (RN v1 e1) (RN v2 e2) = true.
Proof.
  intros H1 H2 H.
  assert (P1 : 0 < 2 ^ (e1 - E)) by (apply Z.pow_pos_nonneg; lia).
  assert (P2 : 0 < 2 ^ (e2 - E)) by (apply Z.pow_pos_nonneg; lia).
  set (F := Z.min E (Z.min (fine v1 e1) (fine v2 e2))).
  assert (HF : v1 * 2 ^ (e1 - F) <= v2 * 2 ^ (e2 - F)).
  { rewrite (pow_split e1 E F), (pow_split e2 E F) by (unfold F; lia).
    rewrite !Z.mul_assoc. apply pow_scale; [unfold F; lia|exact H]. }
  assert (PF1 : 0 < 2 ^ (e1 - F)) by (apply Z.pow_pos_nonneg; unfold F; lia).
  assert (PF2 : 0 < 2 ^ (e2 - F)) by (apply Z.pow_pos_nonneg; unfold F; lia).
  destruct (Z.lt_trichotomy v1 0) as [N1|[Z1|Q1]];
    destruct (Z.lt_trichotomy v2 0) as [N2|[Z2|Q2]]; try nia.
  - rewrite (RN_neg v1 e1 F), (RN_neg v2 e2 F) by (try assumption; unfold F; lia).
    rewrite le_opp. apply Rq_mono; nia.
  - subst v2. rewrite (RN_neg v1 e1 F) by (try assumption; unfold F; lia).
    apply le_zero_r, Rq_opp_sign; nia.
  - rewrite (RN_neg v1 e1 F), (RN_pos v2 e2 F) by (try assumption; unfold F; lia).
    apply le_signs; [apply Rq_opp_sign; nia|apply Rq_sign; nia].
  - subst. reflexivity.
  - subst v1. rewrite (RN_pos v2 e2 F) by (try assumption; unfold F; lia).
    apply le_zero_l, Rq_sign; nia.
  - rewrite (RN_pos v1 e1 F), (RN_pos v2 e2 F) by (try assumption; unfold F; lia).
    apply Rq_mono; nia.
Qed.

(** ** Values of valid numbers *)

Lemma RN_exact s m e :
  bounded prec emax m e = true -> RN (cond_Zopp s (Z.pos m)) e = S754_finite s m e.
Proof.
  intros Hb. pose proof Hb as [Hc He]%bounded_spec.
  destruct (Rq_exact s m e Hb) as [Hx _].
  destruct s.
  - change (RN (cond_Zopp true (Z.pos m)) e) with (binary_round prec emax true m e).
    rewrite (binary_round_Rq true m e e) by lia.
    rewrite Z.sub_diag, Z.pow_0_r, Z.mul_1_r. exact Hx.
  - change (RN (cond_Zopp false (Z.pos m)) e) with (binary_round prec emax false m e).
    rewrite (binary_round_Rq false m e e) by lia.
    rewrite Z.sub_diag, Z.pow_0_r, Z.mul_1_r. exact Hx.
Qed.

Lemma le_antisym_finite m1 e1 m2 e2 :
  le (S754_finite false m1 e1) (S754_finite false m2 e2) = true ->
  le (S754_finite false m2 e2) (S754_finite false m1 e1) = true ->
  m1 = m2 /\ e1 = e2.
Proof.
  unfold le, SFleb. simpl.
  rewrite (Z.compare_antisym e1 e2).
  change (Pos.compare_cont Eq m1 m2) with (Pos.compare m1 m2).
  change (Pos.compare_cont Eq m2 m1) with (Pos.compare m2 m1).
  rewrite (Pos.compare_antisym m1 m2).
  destruct (Z.compare_spec e1 e2); simpl; try discriminate.
  destruct (Pos.compare_spec m1 m2); simpl; try discriminate. auto.
Qed.

Lemma le_pos_finite m1 e1 m2 e2 E :
  bounded prec emax m1 e1 = true -> bounded prec emax m2 e2 = true ->
  E <= e1 -> E <= e2 ->
  (le (S754_finite false m1 e1) (S754_finite false m2 e2) = true <->
   Z.pos m1 * 2 ^ (e1 - E) <= Z.pos m2 * 2 ^ (e2 - E)).
Proof.
  intros B1 B2 H1 H2.
  pose proof (RN_exact false m1 e1 B1) as X1. pose proof (RN_exact false m2 e2 B2) as X2.
  simpl cond_Zopp in X1, X2. split.
  - intros Hle. destruct (Z.le_gt_cases (Z.pos m1 * 2 ^ (e1 - E)) (Z.pos m2 * 2 ^ (e2 - E)))
      as [|Hgt]; [assumption|exfalso].
    assert (Hge : le (S754_finite false m2 e2) (S754_finite false m1 e1) = true).
    { rewrite <- X1, <- X2. apply (RN_le _ _ _ _ E); lia. }
    destruct (le_antisym_finite _ _ _ _ Hle Hge) as [-> ->]. lia.
  - intros H. rewrite <- X1, <- X2. apply (RN_le _ _ _ _ E); lia.
Qed.

Lemma sval_pos m e E : E <= e -> 0 < Z.pos m * 2 ^ (e - E).
Proof.
  intros H. assert (0 < 2 ^ (e - E)) by (apply Z.pow_pos_nonneg; lia). nia.
Qed.

Lemma le_sval a b E :
  valid a = true -> valid b = true -> is_finite a = true -> is_finite b = true ->
  fits a E -> fits b E ->
  (le a b = true <-> sval a E <= sval b E).
Proof.
  destruct a as [sa|sa| |sa ma ea], b as [sb|sb| |sb mb eb]; try discriminate;
    unfold valid, valid_binary, fits, sval; intros Va Vb _ _ Fa Fb.
  - split; [lia|reflexivity].
  - pose proof (sval_pos mb eb E Fb).
    destruct sb; cbn [cond_Zopp]; unfold le, SFleb; cbn [SFcompare]; split;
      try discriminate; try lia; reflexivity.
  - pose proof (sval_pos ma ea E Fa).
    destruct sa; cbn [cond_Zopp]; unfold le, SFleb; cbn [SFcompare]; split;
      try discriminate; try lia; reflexivity.
  - pose proof (sval_pos ma ea E Fa). pose proof (sval_pos mb eb E Fb).
    destruct sa, sb; cbn [cond_Zopp].
    + change (S754_finite true ma ea) with (SFopp (S754_finite false ma ea)).
      change (S754_finite true mb eb) with (SFopp (S754_finite false mb eb)).
      rewrite le_opp, (le_pos_finite mb eb ma ea E) by assumption. lia.
    + unfold le, SFleb; cbn [SFcompare]. split; [lia|reflexivity].
    + unfold le, SFleb; cbn [SFcompare]. split; [discriminate|lia].
    + apply le_pos_finite; assumption.
Qed.

(** ** The operations on finite numbers *)

Lemma shl_align_fst m e ez :
  ez <= e -> Z.pos (fst (shl_align m e ez)) = Z.pos m * 2 ^ (e - ez).
Proof.
  intros H. pose proof (shl_align_spec m e ez) as Hs.
  destruct (shl_align m e ez) as [mz ez']. destruct Hs as [He Hm]. cbn [fst].
  rewrite Hm. f_equal. f_equal. lia.
Qed.

Lemma cond_Zopp_mul s a b : cond_Zopp s (a * b) = cond_Zopp s a * b.
Proof. destruct s; simpl; lia. Qed.

Lemma add_finite sa ma ea sb mb eb :
  let a := S754_finite sa ma ea in
  let b := S754_finite sb mb eb in
  add a b = RN (sval a (Z.min ea eb) + sval b (Z.min ea eb)) (Z.min ea eb).
Proof.
  intros a b. unfold add, SFadd, a, b, RN, sval. cbv zeta.
  rewrite !shl_align_fst by lia. reflexivity.
Qed.

Lemma sub_finite sa ma ea sb mb eb :
  let a := S754_finite sa ma ea in
  let b := S754_finite sb mb eb in
  sub a b = RN (sval a (Z.min ea eb) - sval b (Z.min ea eb)) (Z.min ea eb).
Proof.
  intros a b. unfold sub, SFsub, a, b, RN, sval. cbv zeta.
  rewrite !shl_align_fst by lia. reflexivity.
Qed.

Lemma of_int_RN n : of_int n = RN n 0.
Proof. reflexivity. Qed.

Lemma RN_sign v e : 0 <= v -> has_sign false (RN v e).
Proof.
  intros Hv. destruct (Z.eq_dec v 0) as [->|]; [reflexivity|].
  rewrite (RN_pos v e (fine v e)) by lia. apply Rq_sign; [|lia].
  assert (0 < 2 ^ (e - fine v e)) by (apply Z.pow_pos_nonneg; unfold fine; lia). nia.
Qed.

Lemma RN_sign_neg v e : v < 0 -> has_sign true (RN v e).
Proof.
  intros Hv. rewrite (RN_neg v e (fine v e)) by lia. apply Rq_opp_sign; [|lia].
  assert (0 < 2 ^ (e - fine v e)) by (apply Z.pow_pos_nonneg; unfold fine; lia). nia.
Qed.

Lemma of_int_le a b : a <= b -> le (of_int a) (of_int b) = true.
Proof.
  intros H. rewrite !of_int_RN. apply (RN_le _ _ _ _ 0); try lia.
Qed.

(** Scaling the unit of [sval]. *)
Lemma sval_scale a E F :
  F <= E -> fits a E -> sval a F = sval a E * 2 ^ (E - F).
Proof.
  intros HF Ha. destruct a as [s|s| |s m e]; cbn [sval fits] in *; try lia.
  rewrite (pow_split e E F) by lia. destruct s; cbn [cond_Zopp]; lia.
Qed.

(** A valid finite number is the rounding of its own value. *)
Lemma RN_sval s m e E :
  bounded prec emax m e = true -> E <= e ->
  RN (sval (S754_finite s m e) E) E = S754_finite s m e.
Proof.
  intros Va HE. rewrite <- (RN_exact s m e Va) at 2. unfold sval.
  pose proof Va as [Hc _]%bounded_spec.
  assert (P : 0 < 2 ^ (e - E)) by (apply Z.pow_pos_nonneg; lia).
  destruct (Z.pos m * 2 ^ (e - E)) as [|p|p] eqn:Ep; try lia.
  assert (Hd : Zdigits2 (Z.pos p) = Zdigits2 (Z.pos m) + (e - E)).
  { rewrite <- Ep. apply digits_mul_pow; lia. }
  destruct s.
  - change (RN (cond_Zopp true (Z.pos p)) E) with (binary_round prec emax true p E).
    change (RN (cond_Zopp true (Z.pos m)) e) with (binary_round prec emax true m e).
    rewrite (binary_round_Rq true p E E), (binary_round_Rq true m e E) by lia.
    rewrite Ep, Z.sub_diag, Z.pow_0_r, Z.mul_1_r. reflexivity.
  - change (RN (cond_Zopp false (Z.pos p)) E) with (binary_round prec emax false p E).
    change (RN (cond_Zopp false (Z.pos m)) e) with (binary_round prec emax false m e).
    rewrite (binary_round_Rq false p E E), (binary_round_Rq false m e E) by lia.
    rewrite Ep, Z.sub_diag, Z.pow_0_r, Z.mul_1_r. reflexivity.
Qed.

(** ** Products *)

Lemma digits_mul_ge a b : 0 < a -> 0 < b -> Zdigits2 a + Zdigits2 b - 1 <= Zdigits2 (a * b).
Proof.
  intros Ha Hb.
  pose proof (digits_bounds a Ha) as [A1 _]. pose proof (digits_bounds b Hb) as [B1 _].
  pose proof (digits_pos a Ha). pose proof (digits_pos b Hb).
  assert (H1 : 2 ^ (Zdigits2 a + Zdigits2 b - 2) <= a * b).
  { replace (Zdigits2 a + Zdigits2 b - 2) with ((Zdigits2 a - 1) + (Zdigits2 b - 1)) by lia.
    rewrite Z.pow_add_r by lia.
    assert (0 < 2 ^ (Zdigits2 a - 1)) by (apply Z.pow_pos_nonneg; lia).
    assert (0 < 2 ^ (Zdigits2 b - 1)) by (apply Z.pow_pos_nonneg; lia). nia. }
  pose proof (digits_ge_pow (a * b) (Zdigits2 a + Zdigits2 b - 2) ltac:(lia) H1). lia.
Qed.

Lemma mul_finite sa ma ea sb mb eb :
  mul (S754_finite sa ma ea) (S754_finite sb mb eb)
  = Rq (xorb sa sb) (Z.pos ma * Z.pos mb) 1 (ea + eb).
Proof.
  unfold mul, SFmul. rewrite binary_round_aux_exact by lia. reflexivity.
Qed.

Lemma mul_genuine ma ea mb eb :
  bounded prec emax ma ea = true -> bounded prec emax mb eb = true ->
  genuine_q (Z.pos ma * Z.pos mb) 1 (ea + eb).
Proof.
  intros [Ha _]%bounded_spec [Hb _]%bounded_spec. unfold genuine_q. rewrite Z.div_1_r.
  pose proof (digits_mul_ge (Z.pos ma) (Z.pos mb) ltac:(lia) ltac:(lia)).
  pose proof (digits_pos (Z.pos ma) ltac:(lia)). pose proof (digits_pos (Z.pos mb) ltac:(lia)).
  lia.
Qed.

(** ** Quotients *)

Lemma digits_div_ge a b : 0 < b -> b <= a -> Zdigits2 a - Zdigits2 b <= Zdigits2 (a / b).
Proof.
  intros Hb Hab.
  pose proof (digits_bounds a ltac:(lia)) as [A1 _]. pose proof (digits_bounds b Hb) as [_ B2].
  pose proof (digits_pos b Hb). pose proof (digits_mono b a ltac:(lia)) as Hd.
  destruct (Z.eq_dec (Zdigits2 a) (Zdigits2 b)) as [E|NE].
  { pose proof (digits_nonneg (a / b)). lia. }
  assert (H1 : 2 ^ (Zdigits2 a - Zdigits2 b - 1) <= a / b).
  { apply Z.div_le_lower_bound; [lia|].
    assert (P : 0 < 2 ^ (Zdigits2 a - Zdigits2 b - 1)) by (apply Z.pow_pos_nonneg; lia).
    assert (b * 2 ^ (Zdigits2 a - Zdigits2 b - 1) <= 2 ^ Zdigits2 b * 2 ^ (Zdigits2 a - Zdigits2 b - 1))
      by nia.
    rewrite <- Z.pow_add_r in H0 by lia.
    replace (Zdigits2 b + (Zdigits2 a - Zdigits2 b - 1)) with (Zdigits2 a - 1) in H0 by lia.
    lia. }
  pose proof (digits_ge_pow (a / b) (Zdigits2 a - Zdigits2 b - 1) ltac:(lia) H1). lia.
Qed.

Lemma new_location_code m2 m' :
  0 < m2 -> 0 <= m' ->
  tenc (m' / m2) (new_location m2 (m' mod m2)) = qcode (2 * m') m2.
Proof.
  intros H2 Hm. unfold tenc, qcode.
  pose proof (Z.div_mod m' m2 ltac:(lia)) as E.
  pose proof (Z.mod_pos_bound m' m2 H2) as B.
  set (q := m' / m2) in *. set (r := m' mod m2) in *.
  assert (HN : 2 * m' = m2 * (2 * q) + 2 * r) by lia.
  pose proof (Zmod_even m2) as Hev.
  unfold new_location, new_location_even, new_location_odd.
  destruct (Z.lt_ge_cases (2 * r) m2) as [Hlt|Hge].
  - assert (Hd : (2 * m') / m2 = 2 * q).
    { symmetry. apply (Z.div_unique_pos _ _ _ (2 * r)); lia. }
    assert (Hmod : (2 * m') mod m2 = 2 * r).
    { symmetry. apply (Z.mod_unique_pos _ _ (2 * q)); lia. }
    rewrite Hd, Hmod.
    destruct (Z.even m2); destruct (Z.eqb_spec r 0); destruct (Z.eqb_spec (2 * r) 0);
      cbn [loc_code]; try lia;
      match goal with |- context [Z.compare ?a ?b] => destruct (Z.compare_spec a b) end;
      cbn [loc_code]; try lia; Z.div_mod_to_equations; lia.
  - assert (Hd : (2 * m') / m2 = 2 * q + 1).
    { symmetry. apply (Z.div_unique_pos _ _ _ (2 * r - m2)); lia. }
    assert (Hmod : (2 * m') mod m2 = 2 * r - m2).
    { symmetry. apply (Z.mod_unique_pos _ _ (2 * q + 1)); lia. }
    rewrite Hd, Hmod.
    destruct (Z.even m2); destruct (Z.eqb_spec r 0); destruct (Z.eqb_spec (2 * r - m2) 0);
      cbn [loc_code]; try lia;
      match goal with |- context [Z.compare ?a ?b] => destruct (Z.compare_spec a b) end;
      cbn [loc_code]; try lia; Z.div_mod_to_equations; lia.
Qed.

Lemma div_finite s1 m1 e1 s2 m2 e2 :
  let e' := div_exp (Z.pos m1) e1 (Z.pos m2) e2 in
  div (S754_finite s1 m1 e1) (S754_finite s2 m2 e2)
  = Rq (xorb s1 s2) (Z.pos m1 * 2 ^ (e1 - e2 - e')) (Z.pos m2) e' /\
  genuine_q (Z.pos m1 * 2 ^ (e1 - e2 - e')) (Z.pos m2) e'.
Proof.
  intros e'. unfold div, SFdiv, SFdiv_core_binary.
  rewrite fexp_eq. fold (div_exp (Z.pos m1) e1 (Z.pos m2) e2). fold e'.
  assert (He' : e' <= e1 - e2) by (unfold e', div_exp; lia).
  set (s := e1 - e2 - e') in *.
  assert (Hm' : match s with Z.pos _ => Z.shiftl (Z.pos m1) s | 0 => Z.pos m1 | Z.neg _ => 0 end
                = Z.pos m1 * 2 ^ s).
  { destruct s as [|p|p] eqn:Es; [lia| |lia].
    rewrite Z.shiftl_mul_pow2 by lia. reflexivity. }
  rewrite Hm'. set (m' := Z.pos m1 * 2 ^ s) in *.
  assert (P : 0 < 2 ^ s) by (apply Z.pow_pos_nonneg; lia).
  assert (Hpos : 0 < m') by (unfold m'; nia).
  destruct (Z.div_eucl m' (Z.pos m2)) as [q r] eqn:Ed.
  assert (Hq : q = m' / Z.pos m2) by (unfold Z.div; rewrite Ed; reflexivity).
  assert (Hr : r = m' mod Z.pos m2) by (unfold Z.modulo; rewrite Ed; reflexivity).
  subst q r.
  split.
  - rewrite binary_round_aux_code by (apply Z.div_pos; lia).
    rewrite new_location_code by lia. unfold Rq. f_equal.
  - unfold genuine_q.
    destruct (Z.le_gt_cases e' (-149)) as [|Hgt]; [right; assumption|left].
    destruct (Z.lt_ge_cases m' (Z.pos m2)) as [Hsmall|Hbig].
    + exfalso.
      pose proof (digits_mono m' (Z.pos m2) ltac:(lia)) as Hd.
      unfold m' in Hd. rewrite digits_mul_pow in Hd by lia.
      unfold s, e', div_exp in *. lia.
    + pose proof (digits_div_ge m' (Z.pos m2) ltac:(lia) Hbig) as Hd.
      unfold m' in Hd at 1. rewrite digits_mul_pow in Hd by lia.
      unfold s, e', div_exp in *. lia.
Qed.

(** The decoder on a well-formed tensor: it returns the emissions of the
    anchors in anchor order, and each anchor's emission is decided by its
    first maximum score. *)
Lemma parse_spec inputs conf_thres num_channels num_anchors num_labels img_w img_h :
  well_formed_tensor inputs num_channels num_anchors num_labels ->
  exists emit : nat -> option Object,
    parse_yolov11_detections inputs conf_thres num_channels num_anchors num_labels
      img_w img_h = Some (omap emit (seq 0 (Z.to_nat num_anchors))) /\
    forall i, (i < Z.to_nat num_anchors)%nat ->
      exists k m,
        is_first_max inputs (Z.to_nat num_anchors) (Z.to_nat num_labels) i k m /\
        emitted_for inputs conf_thres (Z.to_nat num_anchors) img_w img_h i k m (emit i).
Proof.
  intros (HA & HL & HC & Hlen & Hnan).
  unfold parse_yolov11_detections.
  destruct (Z.ltb_spec num_channels 0); [lia|].
  destruct (Z.ltb_spec num_anchors 0); [lia|].
  destruct (Z.ltb_spec num_labels 0); [lia|].
  cbn [orb andb].
  destruct (transpose_total inputs (Z.to_nat num_channels) (Z.to_nat num_anchors))
    as [output Htr]; [nia|].
  rewrite Htr. cbn [mbind option_bind].
  assert (HC' : Z.to_nat num_channels = (4 + Z.to_nat num_labels)%nat) by lia.
  assert (HL' : (0 < Z.to_nat num_labels)%nat) by lia.
  exists (emitted conf_thres (Z.to_nat num_channels) (Z.to_nat num_labels) img_w img_h output).
  split.
  - rewrite (parse_rows_spec inputs conf_thres _ (Z.to_nat num_anchors) _ img_w img_h
               output Htr HC' HL' Hnan) by lia.
    reflexivity.
  - intros i Hi.
    destruct (decode_row_spec inputs conf_thres _ _ _ img_w img_h output Htr HC' HL' Hnan i Hi)
      as (k & m & r & Hfm & Hrow & Hem).
    exists k, m. split; [exact Hfm|]. unfold emitted. rewrite Hrow. exact Hem.
Qed.

(** * The pipeline on binary32 numbers *)

(** ** Order facts used below *)

Lemma le_inf_r a : is_nan a = false -> le a (S754_infinity false) = true.
Proof. destruct a as [s|s| |s m e]; try discriminate; intros _; destruct s; reflexivity. Qed.

Lemma le_inf_l a : is_nan a = false -> le (S754_infinity true) a = true.
Proof. destruct a as [s|s| |s m e]; try discriminate; intros _; destruct s; reflexivity. Qed.

Lemma le_zero_sign s a : le (S754_zero s) a = le zero a.
Proof. destruct a as [s'|s'| |s' m e]; reflexivity. Qed.

Lemma le_sign_zero s a : le a (S754_zero s) = le a zero.
Proof. destruct a as [s'|s'| |s' m e]; reflexivity. Qed.

Lemma le_zero_cases a :
  le zero a = true ->
  (exists s, a = S754_zero s) \/ a = S754_infinity false \/
  (exists m e, a = S754_finite false m e).
Proof.
  destruct a as [s|s| |s m e]; try discriminate.
  - eauto.
  - destruct s; [discriminate|auto].
  - destruct s; [discriminate|]. eauto.
Qed.

Lemma finite_between a hi :
  le zero a = true -> le a hi = true -> is_finite hi = true -> is_finite a = true.
Proof.
  destruct a as [s|s| |s m e]; try discriminate; try reflexivity.
  destruct s; [discriminate|]. intros _.
  destruct hi as [s'|s'| |s' m' e']; try discriminate.
Qed.

Lemma valid_opp a : valid (SFopp a) = valid a.
Proof. destruct a; reflexivity. Qed.

Lemma sub_valid a b : valid a = true -> valid b = true -> valid (sub a b) = true.
Proof.
  intros Va Vb.
  destruct a as [sa|sa| |sa ma ea], b as [sb|sb| |sb mb eb];
    try reflexivity; try exact Va; try exact Vb;
    try (destruct sa, sb; reflexivity).
  rewrite sub_finite. apply RN_valid.
Qed.

Lemma add_valid a b : valid a = true -> valid b = true -> valid (add a b) = true.
Proof.
  intros Va Vb.
  destruct a as [sa|sa| |sa ma ea], b as [sb|sb| |sb mb eb];
    try reflexivity; try exact Va; try exact Vb;
    try (destruct sa, sb; reflexivity).
  rewrite add_finite. apply RN_valid.
Qed.

Lemma mul_valid a b : valid a = true -> valid b = true -> valid (mul a b) = true.
Proof.
  intros Va Vb.
  destruct a as [sa|sa| |sa ma ea], b as [sb|sb| |sb mb eb]; try reflexivity.
  rewrite mul_finite. apply Rq_valid; [lia|lia|]. apply mul_genuine; assumption.
Qed.

Lemma div_valid a b : valid (div a b) = true.
Proof.
  destruct a as [sa|sa| |sa ma ea], b as [sb|sb| |sb mb eb]; try reflexivity.
  destruct (div_finite sa ma ea sb mb eb) as [-> Hg].
  apply Rq_valid; [|lia|exact Hg].
  apply Z.mul_nonneg_nonneg; [lia|]. apply Z.pow_nonneg. lia.
Qed.

Lemma of_int_valid n : valid (of_int n) = true.
Proof. apply RN_valid. Qed.

(** ** Differences of ordered numbers *)

Lemma sub_nonneg a b :
  valid a = true -> valid b = true -> is_finite a = true -> is_finite b = true ->
  le a b = true -> le zero (sub b a) = true.
Proof.
  intros Va Vb Fa Fb Hle.
  destruct a as [sa|sa| |sa ma ea], b as [sb|sb| |sb mb eb]; try discriminate.
  - destruct sa, sb; reflexivity.
  - destruct sb; [discriminate|reflexivity].
  - destruct sa; [reflexivity|discriminate].
  - rewrite sub_finite. apply has_sign_false_le, RN_sign.
    apply (le_sval _ _ (Z.min eb ea)) in Hle; try assumption; try reflexivity;
      cbn [fits]; lia.
Qed.

(** ** The two corners of one axis *)

Lemma sval_finite_pos m e E : E <= e -> 0 < sval (S754_finite false m e) E.
Proof. intros H. cbn [sval cond_Zopp]. apply sval_pos, H. Qed.

(** [x - hw <= x + hw] for [hw >= 0], whenever both sides are numbers. *)
Lemma sub_le_add x hw :
  le zero hw = true ->
  is_nan (sub x hw) = false -> is_nan (add x hw) = false ->
  le (sub x hw) (add x hw) = true.
Proof.
  intros Hhw.
  destruct (le_zero_cases hw Hhw) as [[s ->]|[->|(m & e & ->)]];
    destruct x as [sx|sx| |sx mx ex]; try discriminate;
    try (destruct s, sx; (discriminate || reflexivity));
    try (destruct sx; (discriminate || reflexivity)).
  - (* finite x, zero hw *)
    intros _ _. change (sub (S754_finite sx mx ex) (S754_zero s)) with (S754_finite sx mx ex).
    change (add (S754_finite sx mx ex) (S754_zero s)) with (S754_finite sx mx ex).
    apply le_refl. reflexivity.
  - (* finite x, finite hw *)
    intros _ _. rewrite sub_finite, add_finite.
    apply (RN_le _ _ _ _ (Z.min ex e)); try lia.
    pose proof (sval_finite_pos m e (Z.min ex e) ltac:(lia)).
    apply pow_scale; lia.
Qed.

Lemma RN_not_nan v e : is_nan (RN v e) = false.
Proof.
  destruct (Z.lt_ge_cases v 0) as [Hn|Hp].
  - pose proof (RN_sign_neg _ e Hn) as Hs.
    destruct (RN v e); simpl in Hs; try contradiction; reflexivity.
  - pose proof (RN_sign _ e Hp) as Hs.
    destruct (RN v e); simpl in Hs; try contradiction; reflexivity.
Qed.

(** When [x - hw] is NaN for [hw >= 0], [x + hw] is NaN or [+inf]. *)
Lemma sub_nan_add x hw :
  le zero hw = true -> is_nan (sub x hw) = true ->
  is_nan (add x hw) = true \/ add x hw = S754_infinity false.
Proof.
  intros Hhw Hn.
  destruct (le_zero_cases hw Hhw) as [[s ->]|[->|(m & e & ->)]];
    destruct x as [sx|sx| |sx mx ex];
    try (left; reflexivity); try (right; reflexivity);
    try (destruct s, sx; discriminate Hn); try (destruct sx; discriminate Hn);
    try (destruct s; discriminate Hn);
    try (destruct sx; ((left; reflexivity) || (right; reflexivity) || discriminate Hn)).
  exfalso. rewrite sub_finite, RN_not_nan in Hn. discriminate.
Qed.

(** [clampf] is monotone on numbers. *)
Lemma clampf_mono d0 d1 lo hi :
  le lo hi = true -> le d0 d1 = true ->
  le (clampf d0 lo hi) (clampf d1 lo hi) = true.
Proof.
  intros Hb Hd.
  destruct (le_not_nan _ _ Hb) as [Nlo Nhi]. destruct (le_not_nan _ _ Hd) as [N0 N1].
  assert (Hv : le (std_min hi d0) (std_min hi d1) = true).
  { unfold std_min. destruct (lt d0 hi) eqn:E0, (lt d1 hi) eqn:E1.
    - exact Hd.
    - apply lt_le, E0.
    - exfalso. apply not_lt_le in E0; try assumption.
      pose proof (le_trans _ _ _ E0 Hd) as H. apply le_not_lt in H. congruence.
    - apply le_refl, Nhi. }
  destruct (le_not_nan _ _ Hv) as [Nv0 Nv1].
  unfold clampf, std_max.
  destruct (lt lo (std_min hi d0)) eqn:E0, (lt lo (std_min hi d1)) eqn:E1.
  - exact Hv.
  - exfalso. apply not_lt_le in E1; try assumption.
    pose proof (le_trans _ _ _ Hv E1) as H. apply le_not_lt in H. congruence.
  - apply lt_le, E1.
  - apply le_refl, Nlo.
Qed.

(** A value that is not below [hi] is clamped to the top of the range. *)
Lemma clampf_top d lo hi :
  le lo hi = true -> lt d hi = false -> le hi (clampf d lo hi) = true.
Proof.
  intros Hb Hd. destruct (le_not_nan _ _ Hb) as [Nlo Nhi].
  unfold clampf, std_max, std_min. rewrite Hd.
  destruct (lt lo hi) eqn:E.
  - apply le_refl, Nhi.
  - apply not_lt_le; assumption.
Qed.

Lemma lt_nan_l a : lt S754_nan a = false.
Proof. reflexivity. Qed.

Lemma lt_inf_l a : lt (S754_infinity false) a = false.
Proof. destruct a as [s|s| |s m e]; try reflexivity; destruct s; reflexivity. Qed.

(** The clamped corners of one axis are in order. *)
Lemma corners_ordered x hw lo hi :
  le lo hi = true -> le zero hw = true ->
  le (clampf (sub x hw) lo hi) (clampf (add x hw) lo hi) = true.
Proof.
  intros Hb Hhw.
  destruct (is_nan (add x hw)) eqn:N1.
  { destruct (add x hw); try discriminate.
    apply le_trans with hi; [apply clampf_range, Hb|apply clampf_top; [exact Hb|reflexivity]]. }
  destruct (is_nan (sub x hw)) eqn:N0.
  { destruct (sub_nan_add x hw Hhw N0) as [H|H]; [congruence|]. rewrite H.
    apply le_trans with hi; [apply clampf_range, Hb|apply clampf_top; [exact Hb|apply lt_inf_l]]. }
  apply clampf_mono; [exact Hb|]. apply sub_le_add; assumption.
Qed.

(** Half of a non-negative number is non-negative. *)
Lemma half_nonneg w : le zero w = true -> le zero (mul half w) = true.
Proof.
  intros Hw. destruct (le_zero_cases w Hw) as [[s ->]|[->|(m & e & ->)]];
    try reflexivity.
  unfold half. rewrite mul_finite. apply has_sign_false_le. apply Rq_sign; lia.
Qed.

Lemma clampf_valid d lo hi :
  valid d = true -> valid lo = true -> valid hi = true -> valid (clampf d lo hi) = true.
Proof.
  intros Vd Vl Vh. unfold clampf, std_max, std_min.
  destruct (lt d hi); destruct (lt lo _); assumption.
Qed.

Lemma of_int_finite n : 0 <= n <= int_max -> is_finite (of_int n) = true.
Proof.
  intros Hn. apply (finite_between _ (of_int int_max)).
  - apply of_int_nonneg. lia.
  - apply of_int_le. lia.
  - vm_compute. reflexivity.
Qed.

(** The width computed from the two clamped corners of one axis. *)
Lemma axis_width_nonneg x w n :
  valid x = true -> valid w = true -> le zero w = true -> 0 <= n <= int_max ->
  le zero (sub (clampf (add x (mul half w)) zero (of_int n))
               (clampf (sub x (mul half w)) zero (of_int n))) = true.
Proof.
  intros Vx Vw Hw Hn.
  assert (Hb : le zero (of_int n) = true) by (apply of_int_nonneg; lia).
  assert (Vh : valid (mul half w) = true) by (apply mul_valid; [reflexivity|exact Vw]).
  pose proof (clampf_range (sub x (mul half w)) zero (of_int n) Hb) as [L0 U0].
  pose proof (clampf_range (add x (mul half w)) zero (of_int n) Hb) as [L1 U1].
  apply sub_nonneg.
  - apply clampf_valid; [apply sub_valid; assumption|reflexivity|apply of_int_valid].
  - apply clampf_valid; [apply add_valid; assumption|reflexivity|apply of_int_valid].
  - eapply finite_between; [exact L0|exact U0|apply of_int_finite, Hn].
  - eapply finite_between; [exact L1|exact U1|apply of_int_finite, Hn].
  - apply corners_ordered; [exact Hb|apply half_nonneg, Hw].
Qed.

(** ** Monotonicity of the mapper's operations *)

Lemma add_nonneg_le a w :
  valid a = true -> is_finite a = true -> le zero w = true ->
  le a (add a w) = true.
Proof.
  intros Va Fa Hw.
  destruct (le_zero_cases w Hw) as [[s ->]|[->|(m & e & ->)]];
    destruct a as [sa|sa| |sa ma ea]; try discriminate;
    try (destruct s, sa; reflexivity); try (destruct sa; reflexivity).
  - change (add (S754_finite sa ma ea) (S754_zero s)) with (S754_finite sa ma ea).
    apply le_refl. reflexivity.
  - rewrite add_finite.
    rewrite <- (RN_sval sa ma ea (Z.min ea e)) at 1 by (try exact Va; lia).
    apply (RN_le _ _ _ _ (Z.min ea e)); try lia.
    pose proof (sval_finite_pos m e (Z.min ea e) ltac:(lia)).
    apply pow_scale; lia.
Qed.

Lemma cond_Zopp_negb s v : cond_Zopp (negb s) v = - cond_Zopp s v.
Proof. destruct s; simpl; lia. Qed.

(** [a - p] for a finite [p], as the rounding of the exact difference. *)
Lemma sub_fin_RN a sp mp ep E :
  valid a = true -> bounded prec emax mp ep = true -> is_finite a = true ->
  fits a E -> E <= ep ->
  exists v e, sub a (S754_finite sp mp ep) = RN v e /\ E <= e /\
    v * 2 ^ (e - E) = sval a E - sval (S754_finite sp mp ep) E.
Proof.
  intros Va Vp Fa Ha HE. destruct a as [sa|sa| |sa ma ea]; try discriminate.
  - exists (cond_Zopp (negb sp) (Z.pos mp)), ep. split; [|split; [exact HE|]].
    + rewrite RN_exact by exact Vp. reflexivity.
    + cbn [sval]. rewrite cond_Zopp_negb, cond_Zopp_mul. lia.
  - cbn [fits] in Ha. rewrite sub_finite.
    eexists _, _. split; [reflexivity|]. split; [lia|].
    rewrite Z.mul_sub_distr_r.
    rewrite <- !sval_scale by (cbn [fits]; lia). reflexivity.
Qed.

Lemma sub_zero_r_le a s x :
  is_nan a = false -> le (sub a (S754_zero s)) x = le a x /\ le x (sub a (S754_zero s)) = le x a.
Proof.
  destruct a as [sa|sa| |sa ma ea]; try discriminate; intros _;
    try (split; reflexivity).
  destruct sa, s; cbn [sub SFsub]; rewrite ?le_zero_sign, ?le_sign_zero;
    split; rewrite ?le_zero_sign, ?le_sign_zero; reflexivity.
Qed.

Lemma sub_not_nan a p :
  is_finite a = true -> is_finite p = true -> is_nan (sub a p) = false.
Proof.
  destruct a as [sa|sa| |sa ma ea], p as [sp|sp| |sp mp ep]; try discriminate; intros _ _;
    try reflexivity; try (destruct sa, sp; reflexivity).
  rewrite sub_finite. apply RN_not_nan.
Qed.

Lemma fits_min a E : E <= expo a -> fits a E.
Proof. destruct a; simpl; auto. Qed.

(** Subtracting a finite [p] is monotone: [a <= b] gives [a - p <= b - p],
    for a finite [a] and a [b] that is finite or [+inf]. *)
Lemma sub_mono_l a b p :
  valid a = true -> valid b = true -> valid p = true ->
  is_finite a = true -> is_finite p = true -> le a b = true ->
  le (sub a p) (sub b p) = true.
Proof.
  intros Va Vb Vp Fa Fp Hle.
  destruct (le_not_nan _ _ Hle) as [Na Nb].
  destruct (is_finite b) eqn:Fb.
  2:{ destruct b as [sb|sb| |sb mb eb]; try discriminate.
      destruct sb.
      - destruct a as [sa|sa| |sa ma ea]; try discriminate; destruct sa; discriminate.
      - replace (sub (S754_infinity false) p) with (S754_infinity false)
          by (destruct p as [sp|sp| |sp mp ep]; try discriminate; reflexivity).
        apply le_inf_r, sub_not_nan; assumption. }
  destruct p as [sp|sp| |sp mp ep]; try discriminate.
  - destruct (sub_zero_r_le a sp (sub b (S754_zero sp)) Na) as [-> _].
    destruct (sub_zero_r_le b sp a Nb) as [_ ->]. exact Hle.
  - set (E := Z.min ep (Z.min (expo a) (expo b))).
    destruct (sub_fin_RN a sp mp ep E) as (v1 & e1 & -> & He1 & Hv1);
      try assumption; try (apply fits_min; unfold E; lia); try (unfold E; lia).
    destruct (sub_fin_RN b sp mp ep E) as (v2 & e2 & -> & He2 & Hv2);
      try assumption; try (apply fits_min; unfold E; lia); try (unfold E; lia).
    apply (RN_le _ _ _ _ E); try assumption.
    rewrite Hv1, Hv2.
    apply (le_sval a b E) in Hle; try assumption;
      try (apply fits_min; unfold E; lia). lia.
Qed.

Lemma Rq_opp N D e : 0 <= N -> 0 < D -> Rq true N D e = SFopp (Rq false N D e).
Proof. intros HN HD. unfold Rq. apply round_T_opp, qcode_nonneg; lia. Qed.

(** [a / s] for finite [a] and a positive finite [s], at any exponent that
    is fine enough. *)
Lemma div_fin_Rq sa ma ea ms es E :
  E <= div_exp (Z.pos ma) ea (Z.pos ms) es ->
  div (S754_finite sa ma ea) (S754_finite false ms es)
  = Rq sa (Z.pos ma * 2 ^ (ea - es - E)) (Z.pos ms) E.
Proof.
  intros HE. destruct (div_finite sa ma ea false ms es) as [-> Hg].
  set (e' := div_exp (Z.pos ma) ea (Z.pos ms) es) in *.
  assert (He' : e' <= ea - es) by (unfold e', div_exp; lia).
  rewrite xorb_false_r.
  assert (HN : 0 <= Z.pos ma * 2 ^ (ea - es - e')).
  { apply Z.mul_nonneg_nonneg; [lia|]. apply Z.pow_nonneg. lia. }
  rewrite <- (Rq_refine sa _ (Z.pos ms) e' (e' - E) HN) by (try assumption; lia).
  replace (e' - (e' - E)) with E by lia. f_equal.
  rewrite <- Z.mul_assoc, <- Z.pow_add_r by lia. f_equal. f_equal. lia.
Qed.

Lemma has_sign_true_le a : has_sign true a -> le a zero = true.
Proof. destruct a as [s|s| |s m e]; simpl; try contradiction; intros ->; reflexivity. Qed.

Lemma div_fin_sign sa ma ea ms es :
  has_sign sa (div (S754_finite sa ma ea) (S754_finite false ms es)).
Proof.
  rewrite (div_fin_Rq sa ma ea ms es (div_exp (Z.pos ma) ea (Z.pos ms) es)) by lia.
  apply Rq_sign; [|lia].
  apply Z.mul_nonneg_nonneg; [lia|]. apply Z.pow_nonneg. lia.
Qed.

Lemma has_sign_not_nan s a : has_sign s a -> is_nan a = false.
Proof. destruct a; simpl; try contradiction; reflexivity. Qed.

Lemma div_not_nan a ms es :
  is_nan a = false -> is_nan (div a (S754_finite false ms es)) = false.
Proof.
  destruct a as [sa|sa| |sa ma ea]; try discriminate; intros _; try reflexivity.
  eapply has_sign_not_nan, div_fin_sign.
Qed.

(** Dividing by a positive finite number is monotone. *)
Lemma div_mono_num a b ms es :
  valid a = true -> valid b = true -> le a b = true ->
  le (div a (S754_finite false ms es)) (div b (S754_finite false ms es)) = true.
Proof.
  intros Va Vb Hle. destruct (le_not_nan _ _ Hle) as [Na Nb].
  set (s := S754_finite false ms es).
  destruct b as [sb|sb| |sb mb eb]; try discriminate.
  - (* b zero *)
    destruct a as [sa|sa| |sa ma ea]; try discriminate.
    + destruct sa, sb; reflexivity.
    + destruct sa; [|discriminate]. destruct sb; reflexivity.
    + destruct sa; [|discriminate].
      change (div (S754_zero sb) s) with (S754_zero (xorb sb false)).
      rewrite le_sign_zero. apply has_sign_true_le, div_fin_sign.
  - (* b infinite *)
    destruct sb.
    + destruct a as [sa|sa| |sa ma ea]; try discriminate; destruct sa; try discriminate.
      reflexivity.
    + change (div (S754_infinity false) s) with (S754_infinity false).
      apply le_inf_r, div_not_nan, Na.
  - (* b finite *)
    destruct a as [sa|sa| |sa ma ea]; try discriminate.
    + destruct sb; [discriminate|].
      change (div (S754_zero sa) s) with (S754_zero (xorb sa false)).
      rewrite le_zero_sign. apply has_sign_false_le, div_fin_sign.
    + destruct sa; [|discriminate].
      change (div (S754_infinity true) s) with (S754_infinity true).
      apply le_inf_l, div_not_nan. reflexivity.
    + set (E := Z.min (div_exp (Z.pos ma) ea (Z.pos ms) es)
                      (div_exp (Z.pos mb) eb (Z.pos ms) es)).
      assert (HEa : E + es <= ea) by (unfold E, div_exp; lia).
      assert (HEb : E + es <= eb) by (unfold E, div_exp; lia).
      unfold s. rewrite (div_fin_Rq sa ma ea ms es E), (div_fin_Rq sb mb eb ms es E)
        by (unfold E; lia).
      apply (le_sval _ _ (E + es)) in Hle; try assumption; try reflexivity.
      cbn [sval] in Hle.
      replace (ea - (E + es)) with (ea - es - E) in Hle by lia.
      replace (eb - (E + es)) with (eb - es - E) in Hle by lia.
      assert (Pa : 0 < Z.pos ma * 2 ^ (ea - es - E)).
      { apply Z.mul_pos_pos; [lia|]. apply Z.pow_pos_nonneg; lia. }
      assert (Pb : 0 < Z.pos mb * 2 ^ (eb - es - E)).
      { apply Z.mul_pos_pos; [lia|]. apply Z.pow_pos_nonneg; lia. }
      destruct sa, sb; cbn [cond_Zopp] in Hle.
      * rewrite !Rq_opp by lia. rewrite le_opp. apply Rq_mono; nia.
      * apply le_signs; apply Rq_sign; lia.
      * lia.
      * apply Rq_mono; nia.
Qed.

(** The width computed by the coordinate mapper on one axis. *)
Lemma mapped_width_nonneg rx rw p ms es hi :
  valid rx = true -> valid rw = true -> valid p = true -> valid hi = true ->
  is_finite rx = true -> is_finite p = true -> is_finite hi = true ->
  le zero rw = true -> le zero hi = true ->
  let s := S754_finite false ms es in
  le zero (sub (clampf (div (sub (add rx rw) p) s) zero hi)
               (clampf (div (sub rx p) s) zero hi)) = true.
Proof.
  intros Vx Vw Vp Vh Fx Fp Fh Hw Hh s.
  pose proof (add_nonneg_le rx rw Vx Fx Hw) as H1.
  pose proof (sub_mono_l rx (add rx rw) p Vx (add_valid _ _ Vx Vw) Vp Fx Fp H1) as H2.
  pose proof (div_mono_num _ _ ms es (sub_valid _ _ Vx Vp)
                (sub_valid _ _ (add_valid _ _ Vx Vw) Vp) H2) as H3.
  pose proof (clampf_mono _ _ zero hi Hh H3) as H4.
  pose proof (clampf_range (div (sub rx p) s) zero hi Hh) as [L0 U0].
  pose proof (clampf_range (div (sub (add rx rw) p) s) zero hi Hh) as [L1 U1].
  apply sub_nonneg.
  - apply clampf_valid; [apply div_valid|reflexivity|exact Vh].
  - apply clampf_valid; [apply div_valid|reflexivity|exact Vh].
  - eapply finite_between; [exact L0|exact U0|exact Fh].
  - eapply finite_between; [exact L1|exact U1|exact Fh].
  - exact H4.
Qed.

(** ** The letterbox scale *)

Lemma finite_between2 lo a hi :
  le lo a = true -> le a hi = true -> is_finite lo = true -> is_finite hi = true ->
  is_finite a = true.
Proof.
  destruct a as [s|s| |s m e]; try discriminate; try reflexivity.
  destruct s.
  - destruct lo as [s'|s'| |s' m' e']; try discriminate; try (destruct s'; discriminate).
  - intros _. destruct hi as [s'|s'| |s' m' e']; try discriminate;
      try (destruct s'; discriminate).
Qed.

Lemma of_int_finite_range n : int_min <= n <= int_max -> is_finite (of_int n) = true.
Proof.
  intros Hn. apply (finite_between2 (of_int int_min) _ (of_int int_max)).
  - apply of_int_le. lia.
  - apply of_int_le. lia.
  - vm_compute. reflexivity.
  - vm_compute. reflexivity.
Qed.

Lemma pow2_lt_inv a b : 0 <= b -> 2 ^ a < 2 ^ b -> a < b.
Proof.
  intros Hb H. destruct (Z.lt_ge_cases a b); [assumption|].
  assert (2 ^ b <= 2 ^ a) by (apply Z.pow_le_mono_r; lia). lia.
Qed.

Lemma pow2_le_inv a b : 0 <= a -> 2 ^ a <= 2 ^ b -> a <= b.
Proof.
  intros Ha H. destruct (Z.le_gt_cases a b); [assumption|].
  destruct (Z.lt_ge_cases b 0).
  - rewrite (Z.pow_neg_r 2 b) in H by lia.
    assert (0 < 2 ^ a) by (apply Z.pow_pos_nonneg; lia). lia.
  - assert (2 ^ b < 2 ^ a) by (apply Z.pow_lt_mono_r; lia). lia.
Qed.

(** A positive [int] converts to a normal number between 1 and 2^31. *)
Lemma of_int_normal n :
  1 <= n <= int_max ->
  exists m e, of_int n = S754_finite false m e /\ bounded prec emax m e = true /\
    2 ^ 23 <= Z.pos m < 2 ^ 24 /\ -23 <= e <= 8.
Proof.
  intros Hn.
  assert (Hlo : le one (of_int n) = true).
  { change one with (of_int 1). apply of_int_le. lia. }
  assert (Hhi : le (of_int n) (S754_finite false 8388608 8) = true).
  { change (S754_finite false 8388608 8) with (of_int int_max). apply of_int_le. lia. }
  pose proof (of_int_valid n) as Hv.
  destruct (of_int n) as [s|s| |s m e]; try discriminate.
  { destruct s; discriminate. }
  destruct s; [discriminate|].
  exists m, e. split; [reflexivity|]. unfold valid, valid_binary in Hv.
  split; [exact Hv|]. pose proof Hv as [Hc He]%bounded_spec.
  pose proof (digits_bounds (Z.pos m) ltac:(lia)) as [D1 D2].
  pose proof (digits_pos (Z.pos m) ltac:(lia)) as Dp.
  apply (le_pos_finite 8388608 (-23) m e (Z.min e (-23))) in Hlo;
    try assumption; try reflexivity; try lia.
  apply (le_pos_finite m e 8388608 8 (Z.min e (-23))) in Hhi;
    try assumption; try reflexivity; try lia.
  change (Z.pos 8388608) with (2 ^ 23) in Hlo, Hhi.
  rewrite <- Z.pow_add_r in Hlo, Hhi by lia.
  assert (Hd : Zdigits2 (Z.pos m) = 24 /\ -23 <= e).
  { destruct (Z.lt_ge_cases e (-23)) as [Hlt|Hge].
    - exfalso. replace (Z.min e (-23)) with e in Hlo by lia.
      rewrite Z.sub_diag, Z.pow_0_r, Z.mul_1_r in Hlo.
      assert (H24 : 2 ^ Zdigits2 (Z.pos m) <= 2 ^ 24) by (apply Z.pow_le_mono_r; lia).
      assert (H : 2 ^ (23 + (-23 - e)) < 2 ^ 24) by lia.
      apply pow2_lt_inv in H; lia.
    - split; [|lia]. lia. }
  destruct Hd as [Hd He'].
  rewrite Hd in D1, D2. change (24 - 1) with 23 in D1.
  repeat split; try lia.
  replace (Z.min e (-23)) with (-23) in Hhi by lia.
  assert (P : 0 < 2 ^ (e - -23)) by (apply Z.pow_pos_nonneg; lia).
  assert (H : 2 ^ 23 * 2 ^ (e - -23) <= 2 ^ (23 + (8 - -23))) by nia.
  rewrite <- Z.pow_add_r in H by lia.
  apply pow2_le_inv in H; lia.
Qed.

Lemma of_int_480 : of_int target_size = c480.
Proof. vm_compute. reflexivity. Qed.

Lemma bounded_15 e : -149 <= e <= 104 -> bounded prec emax 15728640 e = true.
Proof.
  intros He. apply bounded_spec. change (Zdigits2 (Z.pos 15728640)) with 24. lia.
Qed.

(** Truncation of a number between 0 and 960. *)
Lemma trunc_le_960 a :
  valid a = true -> le zero a = true -> le a c960 = true ->
  exists w, trunc a = Some w /\ 0 <= w <= 960.
Proof.
  intros Va H0 H1. destruct (le_zero_cases a H0) as [[s ->]|[->|(m & e & ->)]].
  - exists 0. split; [reflexivity|lia].
  - discriminate.
  - unfold valid, valid_binary in Va.
    assert (B15 : bounded prec emax 15728640 (-14) = true) by (apply bounded_15; lia).
    apply (proj1 (le_pos_finite m e 15728640 (-14) (Z.min e (-14)) Va B15
                    ltac:(lia) ltac:(lia))) in H1.
    change (Z.pos 15728640) with (960 * 2 ^ 14) in H1.
    assert (Hmag : (if 0 <=? e then Z.pos m * 2 ^ e else Z.pos m / 2 ^ (- e)) <= 960
                   /\ 0 <= (if 0 <=? e then Z.pos m * 2 ^ e else Z.pos m / 2 ^ (- e))).
    { destruct (Z.leb_spec 0 e) as [He|He].
      - replace (Z.min e (-14)) with (-14) in H1 by lia.
        change (2 ^ (-14 - -14)) with 1 in H1.
        replace (e - -14) with (e + 14) in H1 by lia.
        rewrite Z.pow_add_r in H1 by lia.
        assert (0 < 2 ^ e) by (apply Z.pow_pos_nonneg; lia). split; nia.
      - assert (P : 0 < 2 ^ (- e)) by (apply Z.pow_pos_nonneg; lia).
        split; [|apply Z.div_pos; lia].
        apply Z.div_le_upper_bound; [exact P|].
        destruct (Z.le_gt_cases (-14) e) as [Hge|Hlt].
        + replace (Z.min e (-14)) with (-14) in H1 by lia.
          change (2 ^ (-14 - -14)) with 1 in H1.
          assert (E14 : 2 ^ 14 = 2 ^ (e - -14) * 2 ^ (- e)).
          { rewrite <- Z.pow_add_r by lia. f_equal. lia. }
          assert (0 < 2 ^ (e - -14)) by (apply Z.pow_pos_nonneg; lia).
          nia.
        + replace (Z.min e (-14)) with e in H1 by lia.
          rewrite Z.sub_diag, Z.pow_0_r, Z.mul_1_r in H1.
          assert (E14 : 2 ^ (- e) = 2 ^ 14 * 2 ^ (-14 - e)).
          { rewrite <- Z.pow_add_r by lia. f_equal. lia. }
          nia. }
    unfold trunc.
    set (mag := if 0 <=? e then Z.pos m * 2 ^ e else Z.pos m / 2 ^ (- e)) in *.
    exists mag. split; [|lia].
    destruct (Z.leb_spec int_min mag), (Z.leb_spec mag int_max); try reflexivity;
      unfold int_min, int_max in *; lia.
Qed.

(** The scale [480 / M] for an [int] [M >= 1]: a positive finite number,
    at most [480 * 2 ^ (-23 - e)] when [(float)M] has exponent [e]. *)
Lemma scale_bounds m e :
  bounded prec emax m e = true -> 2 ^ 23 <= Z.pos m < 2 ^ 24 -> -23 <= e <= 8 ->
  exists ms es,
    div c480 (S754_finite false m e) = S754_finite false ms es /\
    bounded prec emax ms es = true /\
    le (S754_finite false ms es) (S754_finite false 15728640 (-38 - e)) = true.
Proof.
  intros Bm Hm He.
  assert (Hdm : Zdigits2 (Z.pos m) = 24) by (apply digits_unique; lia).
  destruct (div_finite false 15728640 (-15) false m e) as [Hdiv Hg].
  assert (Hexp : div_exp (Z.pos 15728640) (-15) (Z.pos m) e = -39 - e).
  { unfold div_exp. rewrite Hdm. change (Zdigits2 (Z.pos 15728640)) with 24. lia. }
  rewrite Hexp in Hdiv, Hg. replace (-15 - e - (-39 - e)) with 24 in Hdiv, Hg by lia.
  cbn [xorb] in Hdiv. fold c480 in Hdiv.
  assert (B1 : bounded prec emax 15728640 (-38 - e) = true) by (apply bounded_15; lia).
  assert (B0 : bounded prec emax 15728640 (-39 - e) = true) by (apply bounded_15; lia).
  destruct (Rq_exact false _ _ B1) as [X1 G1]. destruct (Rq_exact false _ _ B0) as [X0 G0].
  assert (Hup : le (div c480 (S754_finite false m e)) (S754_finite false 15728640 (-38 - e)) = true).
  { rewrite Hdiv, <- X1. apply (Rq_le _ _ _ _ _ _ (-39 - e)); try assumption; try lia.
    replace (-39 - e - (-39 - e)) with 0 by lia. replace (-38 - e - (-39 - e)) with 1 by lia.
    change (2 ^ 0) with 1. change (2 ^ 1) with 2. change (2 ^ 24) with (2 * 2 ^ 23). nia. }
  assert (Hlo : le (S754_finite false 15728640 (-39 - e)) (div c480 (S754_finite false m e)) = true).
  { rewrite Hdiv, <- X0. apply Rq_mono; try lia. }
  pose proof (div_valid c480 (S754_finite false m e)) as Hv.
  destruct (div c480 (S754_finite false m e)) as [s|s| |s ms es]; try discriminate.
  - destruct s; discriminate.
  - destruct s; [discriminate|]. exists ms, es. auto.
Qed.

(** [n * scale], converted back to [int], for [1 <= n <= M]. *)
Lemma scaled_total n M :
  1 <= n <= M -> M <= int_max ->
  exists w, scaled n (div (of_int target_size) (of_int M)) = Some w /\ 0 <= w <= 960.
Proof.
  intros Hn HM. unfold scaled. rewrite of_int_480.
  destruct (of_int_normal M ltac:(lia)) as (m & e & EM & Bm & Hm & He).
  destruct (of_int_normal n ltac:(lia)) as (mn & en & En & Bn & Hmn & Hen).
  assert (Hle : le (of_int n) (of_int M) = true) by (apply of_int_le; lia).
  rewrite EM, En in *.
  destruct (scale_bounds m e Bm Hm He) as (ms & es & -> & Bs & Hs).
  apply trunc_le_960.
  - apply mul_valid; assumption.
  - rewrite mul_finite. apply has_sign_false_le, Rq_sign; lia.
  - rewrite mul_finite. unfold c960.
    assert (B960 : bounded prec emax 15728640 (-14) = true) by (apply bounded_15; lia).
    destruct (Rq_exact false _ _ B960) as [<- G960].
    set (Ex := Z.min en e). set (Es := Z.min es (-38 - e)).
    assert (B1 : bounded prec emax 15728640 (-38 - e) = true) by (apply bounded_15; lia).
    apply (proj1 (le_pos_finite mn en m e Ex Bn Bm ltac:(unfold Ex; lia) ltac:(unfold Ex; lia)))
      in Hle.
    apply (proj1 (le_pos_finite ms es 15728640 (-38 - e) Es Bs B1
                    ltac:(unfold Es; lia) ltac:(unfold Es; lia))) in Hs.
    apply (Rq_le _ _ _ _ _ _ (Ex + Es)); try lia.
    + apply mul_genuine; assumption.
    + exact G960.
    + rewrite !Z.mul_1_r.
      replace (en + es - (Ex + Es)) with ((en - Ex) + (es - Es)) by lia.
      replace (-14 - (Ex + Es)) with (24 + (e - Ex) + (-38 - e - Es)) by lia.
      rewrite !Z.pow_add_r by (unfold Ex, Es; lia).
      assert (P1 : 0 < 2 ^ (en - Ex)) by (apply Z.pow_pos_nonneg; unfold Ex; lia).
      assert (P2 : 0 < 2 ^ (e - Ex)) by (apply Z.pow_pos_nonneg; unfold Ex; lia).
      assert (P3 : 0 < 2 ^ (es - Es)) by (apply Z.pow_pos_nonneg; unfold Es; lia).
      assert (P4 : 0 < 2 ^ (-38 - e - Es)) by (apply Z.pow_pos_nonneg; unfold Es; lia).
      set (a := Z.pos mn * 2 ^ (en - Ex)) in *. set (b := Z.pos m * 2 ^ (e - Ex)) in *.
      set (sc := Z.pos ms * 2 ^ (es - Es)) in *.
      set (cv := 15728640 * 2 ^ (-38 - e - Es)) in *.
      assert (Ha : 0 < a) by (unfold a; nia). assert (Hsc : 0 < sc) by (unfold sc; nia).
      assert (Hb : b <= 2 ^ 24 * 2 ^ (e - Ex)) by (unfold b; nia).
      assert (H1 : Z.pos mn * Z.pos ms * (2 ^ (en - Ex) * 2 ^ (es - Es)) = a * sc)
        by (unfold a, sc; ring).
      assert (H2 : 15728640 * (2 ^ 24 * 2 ^ (e - Ex) * 2 ^ (-38 - e - Es))
                   = 2 ^ 24 * 2 ^ (e - Ex) * cv) by (unfold cv; ring).
      rewrite H1, H2.
      assert (a * sc <= b * cv) by nia.
      assert (b * cv <= 2 ^ 24 * 2 ^ (e - Ex) * cv) by (apply Z.mul_le_mono_nonneg_r; lia).
      lia.
Qed.

(** Dividing a positive number by a larger positive number gives less. *)
Lemma div_anti_den ma ea m1 e1 m2 e2 :
  bounded prec emax m1 e1 = true -> bounded prec emax m2 e2 = true ->
  le (S754_finite false m1 e1) (S754_finite false m2 e2) = true ->
  le (div (S754_finite false ma ea) (S754_finite false m2 e2))
     (div (S754_finite false ma ea) (S754_finite false m1 e1)) = true.
Proof.
  intros B1 B2 Hle.
  set (E := Z.min (div_exp (Z.pos ma) ea (Z.pos m1) e1) (div_exp (Z.pos ma) ea (Z.pos m2) e2)).
  set (F := Z.min e1 e2).
  assert (HE1 : E <= ea - e1) by (unfold E, div_exp; lia).
  assert (HE2 : E <= ea - e2) by (unfold E, div_exp; lia).
  rewrite (div_fin_Rq false ma ea m2 e2 E), (div_fin_Rq false ma ea m1 e1 E)
    by (unfold E; lia).
  apply (proj1 (le_pos_finite m1 e1 m2 e2 F B1 B2 ltac:(unfold F; lia) ltac:(unfold F; lia)))
    in Hle.
  set (K := ea - E - e1 - e2 + F).
  assert (HK : 0 <= K) by (unfold K, F; lia).
  assert (P2 : 2 ^ (ea - e2 - E) = 2 ^ K * 2 ^ (e1 - F)).
  { rewrite <- Z.pow_add_r by (unfold F; lia). f_equal. unfold K. lia. }
  assert (P1 : 2 ^ (ea - e1 - E) = 2 ^ K * 2 ^ (e2 - F)).
  { rewrite <- Z.pow_add_r by (unfold F; lia). f_equal. unfold K. lia. }
  assert (PK : 0 < 2 ^ K) by (apply Z.pow_pos_nonneg; lia).
  assert (Q1 : 0 < 2 ^ (e1 - F)) by (apply Z.pow_pos_nonneg; unfold F; lia).
  assert (Q2 : 0 < 2 ^ (e2 - F)) by (apply Z.pow_pos_nonneg; unfold F; lia).
  apply Rq_mono; try lia. rewrite P2. nia.
Qed.

(** Multiplying by a positive number is monotone on positive numbers. *)
Lemma mul_mono_l m1 e1 m2 e2 ms es :
  bounded prec emax m1 e1 = true -> bounded prec emax m2 e2 = true ->
  bounded prec emax ms es = true ->
  le (S754_finite false m1 e1) (S754_finite false m2 e2) = true ->
  le (mul (S754_finite false m1 e1) (S754_finite false ms es))
     (mul (S754_finite false m2 e2) (S754_finite false ms es)) = true.
Proof.
  intros B1 B2 Bs Hle. rewrite !mul_finite. cbn [xorb].
  set (F := Z.min e1 e2).
  apply (proj1 (le_pos_finite m1 e1 m2 e2 F B1 B2 ltac:(unfold F; lia) ltac:(unfold F; lia)))
    in Hle.
  apply (Rq_le _ _ _ _ _ _ (F + es)); try lia;
    try (apply mul_genuine; assumption).
  rewrite !Z.mul_1_r.
  replace (e1 + es - (F + es)) with (e1 - F) by lia.
  replace (e2 + es - (F + es)) with (e2 - F) by lia.
  nia.
Qed.

(** The integer part of a positive finite number, from its value in units
    of [2 ^ E]. *)
Lemma mag_units (m : positive) e E :
  E <= e -> E <= 0 ->
  (if 0 <=? e then Z.pos m * 2 ^ e else Z.pos m / 2 ^ (- e))
  = (Z.pos m * 2 ^ (e - E)) / 2 ^ (- E).
Proof.
  intros H1 H2. assert (P : 0 < 2 ^ (- E)) by (apply Z.pow_pos_nonneg; lia).
  destruct (Z.leb_spec 0 e) as [He|He].
  - replace (e - E) with (e + - E) by lia. rewrite Z.pow_add_r by lia.
    rewrite Z.mul_assoc, Z.div_mul by lia. reflexivity.
  - replace (- E) with (- e + (e - E)) by lia. rewrite Z.pow_add_r by lia.
    rewrite Z.div_mul_cancel_r; try reflexivity.
    + apply Z.pow_nonzero; lia.
    + apply Z.pow_nonzero; lia.
Qed.

(** Truncation is monotone on valid non-negative numbers. *)
Lemma trunc_mono a b wa wb :
  valid a = true -> valid b = true -> le zero a = true -> le a b = true ->
  trunc a = Some wa -> trunc b = Some wb -> wa <= wb.
Proof.
  intros Va Vb H0 Hle Ta Tb.
  assert (H0b : le zero b = true) by (eapply le_trans; eassumption).
  destruct (le_zero_cases b H0b) as [[s ->]|[->|(mb & eb & ->)]]; try discriminate.
  - destruct (le_zero_cases a H0) as [[s' ->]|[->|(ma & ea & ->)]]; try discriminate.
    cbn [trunc] in Ta, Tb. injection Ta as <-. injection Tb as <-. lia.
  - destruct (le_zero_cases a H0) as [[s' ->]|[->|(ma & ea & ->)]]; try discriminate.
    + cbn [trunc] in Ta. injection Ta as <-. unfold trunc in Tb.
      cbv beta zeta iota in Tb.
      destruct (_ && _) in Tb; [|discriminate]. injection Tb as <-.
      destruct (Z.leb_spec 0 eb).
      * apply Z.mul_nonneg_nonneg; [lia|apply Z.pow_nonneg; lia].
      * apply Z.div_pos; [lia|]. apply Z.pow_pos_nonneg; lia.
    + unfold valid, valid_binary in Va, Vb.
      set (E := Z.min 0 (Z.min ea eb)).
      apply (proj1 (le_pos_finite ma ea mb eb E Va Vb ltac:(unfold E; lia)
                      ltac:(unfold E; lia))) in Hle.
      unfold trunc in Ta, Tb. cbv beta zeta iota in Ta, Tb.
      rewrite (mag_units ma ea E) in Ta by (unfold E; lia).
      rewrite (mag_units mb eb E) in Tb by (unfold E; lia).
      destruct (_ && _) in Ta; [|discriminate]. injection Ta as <-.
      destruct (_ && _) in Tb; [|discriminate]. injection Tb as <-.
      apply Z.div_le_mono; [apply Z.pow_pos_nonneg; unfold E; lia|exact Hle].
Qed.

(** ** The letterbox transform *)

Lemma scale_of_max W H : scale_of W H = div (of_int target_size) (of_int (Z.max W H)).
Proof.
  unfold scale_of. rewrite Z.gtb_ltb. destruct (Z.ltb_spec H W).
  - rewrite Z.max_l by lia. reflexivity.
  - rewrite Z.max_r by lia. reflexivity.
Qed.

(** The scale factor is a positive finite number. *)
Lemma scale_normal M :
  1 <= M <= int_max ->
  exists ms es, div (of_int target_size) (of_int M) = S754_finite false ms es /\
    bounded prec emax ms es = true.
Proof.
  intros HM. rewrite of_int_480.
  destruct (of_int_normal M HM) as (m & e & -> & Bm & Hm & He).
  destruct (scale_bounds m e Bm Hm He) as (ms & es & -> & Bs & _). eauto.
Qed.

Lemma scaled_mono n1 n2 M w1 w2 :
  1 <= n1 <= n2 -> n2 <= int_max -> 1 <= M <= int_max ->
  scaled n1 (div (of_int target_size) (of_int M)) = Some w1 ->
  scaled n2 (div (of_int target_size) (of_int M)) = Some w2 ->
  w1 <= w2.
Proof.
  intros H1 H2 HM. unfold scaled.
  destruct (scale_normal M HM) as (ms & es & -> & Bs).
  destruct (of_int_normal n1 ltac:(lia)) as (m1 & e1 & E1 & B1 & _).
  destruct (of_int_normal n2 ltac:(lia)) as (m2 & e2 & E2 & B2 & _).
  assert (Hle : le (of_int n1) (of_int n2) = true) by (apply of_int_le; lia).
  rewrite E1, E2 in *.
  apply trunc_mono.
  - apply mul_valid; assumption.
  - apply mul_valid; assumption.
  - rewrite mul_finite. apply has_sign_false_le, Rq_sign; lia.
  - apply mul_mono_l; assumption.
Qed.

(** For images of at least one pixel per side the transform is defined:
    both products are truncated to [int], and the side whose truncated
    product is larger is replaced by [target_size] (the height on a tie). *)
Lemma letterbox_spec W H :
  1 <= W <= int_max -> 1 <= H <= int_max ->
  exists w0 h0,
    scaled W (scale_of W H) = Some w0 /\ scaled H (scale_of W H) = Some h0 /\
    0 <= w0 <= 960 /\ 0 <= h0 <= 960 /\ (W <= H -> w0 <= h0) /\
    letterbox W H
    = Some (mkLetterbox (scale_of W H)
              (if w0 >? h0 then target_size else w0)
              (if w0 >? h0 then h0 else target_size)
              (480 - (if w0 >? h0 then target_size else w0))
              (480 - (if w0 >? h0 then h0 else target_size))).
Proof.
  intros HW HH. unfold letterbox. rewrite scale_of_max.
  destruct (scaled_total W (Z.max W H)) as (w0 & Hw & Bw); [lia|lia|].
  destruct (scaled_total H (Z.max W H)) as (h0 & Hh & Bh); [lia|lia|].
  exists w0, h0. rewrite Hw, Hh. cbn [mbind option_bind].
  repeat split; try lia.
  intros HWH. apply (scaled_mono W H (Z.max W H)); try assumption; lia.
Qed.

(** The padded input is always [480 x 480]. *)
Lemma letterbox_in_pad W H lb :
  letterbox W H = Some lb -> in_pad_w lb = 480 /\ in_pad_h lb = 480.
Proof.
  unfold letterbox.
  destruct (scaled W (scale_of W H)) as [w|]; [|discriminate].
  destruct (scaled H (scale_of W H)) as [h|]; [|discriminate].
  cbn [mbind option_bind]. intros [= <-]. unfold in_pad_w, in_pad_h.
  cbn [lb_w lb_h lb_wpad lb_hpad].
  change (Z.quot (target_size + MAX_STRIDE - 1) MAX_STRIDE * MAX_STRIDE) with 480.
  split; lia.
Qed.

(** ** The clamping bounds of the mapper *)

Lemma valid_one : valid one = true.
Proof. reflexivity. Qed.

Lemma image_bound n :
  1 <= n <= int_max ->
  let hi := sub (of_int n) one in
  valid hi = true /\ is_finite hi = true /\ le zero hi = true.
Proof.
  intros Hn hi.
  assert (Hv : valid hi = true) by (apply sub_valid; [apply of_int_valid|apply valid_one]).
  assert (H0 : le zero hi = true).
  { apply sub_nonneg; [apply valid_one|apply of_int_valid|reflexivity| |].
    - apply of_int_finite. lia.
    - change one with (of_int 1). apply of_int_le. lia. }
  repeat split; try assumption.
  apply (finite_between hi (of_int n) H0); [|apply of_int_finite; lia].
  destruct (of_int_normal n Hn) as (m & e & E & B & _ & He).
  unfold hi, one. rewrite E, sub_finite.
  rewrite <- (RN_sval false m e (Z.min e (-23)) B) at 2 by lia.
  apply (RN_le _ _ _ _ (Z.min e (-23))); try lia.
  rewrite Z.sub_diag. change (2 ^ 0) with 1.
  pose proof (sval_finite_pos 8388608 (-23) (Z.min e (-23)) ltac:(lia)). lia.
Qed.

(** The padding offsets are finite numbers. *)
Lemma pad_finite W H lb :
  1 <= W <= int_max -> 1 <= H <= int_max -> letterbox W H = Some lb ->
  is_finite (of_int (Z.quot (lb_wpad lb) 2)) = true /\
  is_finite (of_int (Z.quot (lb_hpad lb) 2)) = true.
Proof.
  intros HW HH Hlb.
  destruct (letterbox_spec W H HW HH) as (w0 & h0 & _ & _ & Bw & Bh & _ & E).
  rewrite E in Hlb. injection Hlb as <-. cbn [lb_wpad lb_hpad].
  unfold target_size.
  split; apply of_int_finite_range; unfold int_min, int_max;
    destruct (w0 >? h0); split;
    try (apply Z.quot_le_lower_bound; lia); try (apply Z.quot_le_upper_bound; lia).
Qed.

Lemma letterbox_scale W H lb :
  1 <= W <= int_max -> 1 <= H <= int_max -> letterbox W H = Some lb ->
  exists ms es, lb_scale lb = S754_finite false ms es.
Proof.
  intros HW HH Hlb.
  destruct (letterbox_spec W H HW HH) as (w0 & h0 & _ & _ & _ & _ & _ & E).
  rewrite E in Hlb. injection Hlb as <-. cbn [lb_scale]. rewrite scale_of_max.
  destruct (scale_normal (Z.max W H) ltac:(lia)) as (ms & es & -> & _). eauto.
Qed.

(** ** Boxes along the pipeline *)

Lemma corner_proper x w n :
  valid x = true -> valid w = true -> 0 <= n <= int_max ->
  valid (clampf (sub x (mul half w)) zero (of_int n)) = true /\
  valid (clampf (add x (mul half w)) zero (of_int n)) = true /\
  is_finite (clampf (sub x (mul half w)) zero (of_int n)) = true.
Proof.
  intros Vx Vw Hn.
  assert (Vh : valid (mul half w) = true) by (apply mul_valid; [reflexivity|exact Vw]).
  repeat split.
  - apply clampf_valid; [apply sub_valid; assumption|reflexivity|apply of_int_valid].
  - apply clampf_valid; [apply add_valid; assumption|reflexivity|apply of_int_valid].
  - destruct (clampf_range (sub x (mul half w)) zero (of_int n)) as [Hlo Hhi];
      [apply of_int_nonneg; lia|].
    apply (finite_between _ (of_int n)); [exact Hlo|exact Hhi|apply of_int_finite; lia].
Qed.

Lemma corners_proper x y w h n k o :
  valid x = true -> valid y = true -> valid w = true -> valid h = true ->
  le zero w = true -> le zero h = true -> 0 <= n <= int_max -> 0 <= k <= int_max ->
  rect o = rect_of_corners (corners x y w h n k) -> proper_box o.
Proof.
  intros Vx Vy Vw Vh Hw Hh Hn Hk Hr. unfold proper_box, nonneg_box. rewrite Hr.
  unfold corners, rect_of_corners. cbn [rx ry rwidth rheight].
  destruct (corner_proper x w n Vx Vw Hn) as (V0 & V1 & F0).
  destruct (corner_proper y h k Vy Vh Hk) as (U0 & U1 & G0).
  repeat split; try assumption.
  - apply sub_valid; assumption.
  - apply sub_valid; assumption.
  - apply axis_width_nonneg; assumption.
  - apply axis_width_nonneg; assumption.
Qed.

(** The mapper keeps the sizes of proper boxes non-negative. *)
Lemma map_back_nonneg W H lb p :
  1 <= W <= int_max -> 1 <= H <= int_max -> letterbox W H = Some lb ->
  proper_box p -> nonneg_box (map_back lb W H p).
Proof.
  intros HW HH Hlb (Vx & Vy & Vw & Vh & Fx & Fy & Nw & Nh).
  destruct (letterbox_scale W H lb HW HH Hlb) as (ms & es & Es).
  destruct (pad_finite W H lb HW HH Hlb) as [Pw Ph].
  destruct (image_bound W HW) as (V1 & F1 & N1).
  destruct (image_bound H HH) as (V2 & F2 & N2).
  unfold nonneg_box, map_back, mapped_corners. cbn [rect rect_of_corners rwidth rheight].
  rewrite Es. split.
  - apply mapped_width_nonneg; try assumption. apply of_int_valid.
  - apply mapped_width_nonneg; try assumption. apply of_int_valid.
Qed.

(** Proposals have probabilities that are numbers: they compared above
    the threshold. *)
Lemma emitted_prob_number inputs conf_thres A W H i k m o :
  emitted_for inputs conf_thres A W H i k m (Some o) -> is_nan (prob o) = false.
Proof.
  intros [Hiff Hobj]. destruct (Hobj o eq_refl) as (-> & _).
  assert (Hgt : gt m conf_thres = true) by (apply Hiff; discriminate).
  unfold gt in Hgt. apply lt_not_nan in Hgt. tauto.
Qed.

(** [detect] on a well-formed network output: every stage returns. *)
Lemma detect_spec fconf_thres fnms_thres W H out :
  1 <= W <= int_max -> 1 <= H <= int_max ->
  well_formed_tensor (mat_data out) (mat_h out) (mat_w out) (mat_h out - 4) ->
  exists lb emit proposals sorted kept,
    letterbox W H = Some lb /\
    proposals = omap emit (seq 0 (Z.to_nat (mat_w out))) /\
    (forall i, (i < Z.to_nat (mat_w out))%nat ->
       exists k m,
         is_first_max (mat_data out) (Z.to_nat (mat_w out)) (Z.to_nat (mat_h out - 4)) i k m /\
         emitted_for (mat_data out) fconf_thres (Z.to_nat (mat_w out)) 480 480 i k m (emit i)) /\
    parse_yolov11_detections (mat_data out) fconf_thres (mat_h out) (mat_w out)
      (mat_h out - 4) 480 480 = Some proposals /\
    sorted ≡ₚ proposals /\ descending sorted /\ sublist kept sorted /\
    detect fconf_thres fnms_thres W H out = Some (0, map (map_back lb W H) kept).
Proof.
  intros HW HH Hwf.
  destruct (letterbox_spec W H HW HH) as (w0 & h0 & _ & _ & _ & _ & _ & Hlb).
  destruct (letterbox_in_pad W H _ Hlb) as [Ew Eh].
  destruct (parse_spec (mat_data out) fconf_thres (mat_h out) (mat_w out) (mat_h out - 4)
              480 480 Hwf) as (emit & Hparse & Hemit).
  set (proposals := omap emit (seq 0 (Z.to_nat (mat_w out)))) in *.
  assert (Hnn : no_nan proposals).
  { apply Forall_forall. intros o Ho.
    apply list_elem_of_omap in Ho as (i & Hi & Ho).
    apply elem_of_seq in Hi. destruct (Hemit i ltac:(lia)) as (k & m & _ & Hem).
    rewrite Ho in Hem. eapply emitted_prob_number, Hem. }
  destruct (qsort_descent_inplace_spec proposals Hnn) as (sorted & Hsort & Hperm & Hdesc).
  destruct (nms_run_inv sorted fnms_thres false) as (picked & log & Hrun & Hinv).
  destruct Hinv as (_ & _ & _ & kept & Hsel & Hsub).
  rewrite firstn_all in Hsub.
  eexists _, emit, proposals, sorted, kept.
  split; [exact Hlb|]. split; [reflexivity|]. split; [exact Hemit|].
  split; [exact Hparse|]. split; [exact Hperm|]. split; [exact Hdesc|].
  split; [exact Hsub|].
  unfold detect. rewrite Hlb. cbn [mbind option_bind]. rewrite Ew, Eh, Hparse.
  cbn [mbind option_bind]. rewrite Hsort. cbn [mbind option_bind].
  unfold nms_sorted_bboxes. rewrite Hrun. cbn [fmap option_fmap option_map mbind option_bind fst].
  rewrite Hsel. reflexivity.
Qed.

(** Whatever [detect] returns, it is the code [0] with the mapped boxes of
    some list of kept proposals. *)
Lemma detect_inv fconf_thres fnms_thres W H out r objs :
  detect fconf_thres fnms_thres W H out = Some (r, objs) ->
  r = 0 /\ exists lb kept, letterbox W H = Some lb /\ objs = map (map_back lb W H) kept.
Proof.
  unfold detect.
  destruct (letterbox W H) as [lb|]; [|discriminate]. cbn [mbind option_bind].
  destruct (parse_yolov11_detections _ _ _ _ _ _ _) as [proposals|]; [|discriminate].
  cbn [mbind option_bind].
  destruct (qsort_descent_inplace proposals) as [sorted|]; [|discriminate].
  cbn [mbind option_bind].
  destruct (nms_sorted_bboxes sorted fnms_thres false) as [picked|]; [|discriminate].
  cbn [mbind option_bind].
  destruct (select sorted picked) as [kept|]; [|discriminate].
  cbn [mbind option_bind]. intros [= <- <-]. split; [reflexivity|]. eauto.
Qed.

(** The scale factor is not above the quotient for any side of the image. *)
Lemma scale_le n M :
  1 <= n <= M -> M <= int_max ->
  le (div (of_int target_size) (of_int M)) (div (of_int target_size) (of_int n)) = true.
Proof.
  intros Hn HM. rewrite of_int_480. unfold c480.
  destruct (of_int_normal M ltac:(lia)) as (m & e & EM & Bm & _).
  destruct (of_int_normal n ltac:(lia)) as (mn & en & En & Bn & _).
  assert (Hle : le (of_int n) (of_int M) = true) by (apply of_int_le; lia).
  rewrite EM, En in *. apply div_anti_den; assumption.
Qed.

(** ** Clamping, the image bound and the stages of [detect] *)

(** [clampf(d, 0.f, (float)n)] clamps. *)
Lemma clampf_clamped d n : 0 <= n -> clamped d n (clampf d zero (of_int n)).
Proof.
  intros Hn. split; [apply clampf_range, of_int_nonneg, Hn|].
  split; [|split].
  - intros H0 H1. unfold clampf, std_max, std_min. rewrite H1, H0. reflexivity.
  - intros H0 H1. unfold clampf, std_max, std_min. rewrite H1, H0. reflexivity.
  - intros H1. apply clampf_upper_zero; assumption.
Qed.

(** Integers below [2 ^ 24] are binary32 numbers. *)
Lemma of_int_exact n :
  1 <= n < 2 ^ 24 ->
  exists m e, of_int n = S754_finite false m e /\ bounded prec emax m e = true /\
    -23 <= e <= 0 /\ Z.pos m * 2 ^ (e + 23) = n * 2 ^ 23.
Proof.
  intros Hn. set (d := Zdigits2 n).
  assert (Hd : 1 <= d <= 24).
  { pose proof (digits_pos n ltac:(lia)). pose proof (digits_lt_pow n 24 ltac:(lia) ltac:(lia)).
    unfold d. lia. }
  assert (Hp : 0 < n * 2 ^ (24 - d)).
  { assert (0 < 2 ^ (24 - d)) by (apply Z.pow_pos_nonneg; lia). nia. }
  rewrite of_int_RN, (RN_pos n 0 (d - 24)) by (unfold fine; fold d; lia).
  replace (0 - (d - 24)) with (24 - d) by lia.
  assert (Hid : Z.pos (Z.to_pos (n * 2 ^ (24 - d))) = n * 2 ^ (24 - d))
    by (apply Z2Pos.id; exact Hp).
  assert (Hb : bounded prec emax (Z.to_pos (n * 2 ^ (24 - d))) (d - 24) = true).
  { apply bounded_spec. rewrite Hid, digits_mul_pow by lia. fold d. lia. }
  exists (Z.to_pos (n * 2 ^ (24 - d))), (d - 24).
  destruct (Rq_exact false _ _ Hb) as [Hx _]. rewrite Hid in Hx.
  split; [exact Hx|]. split; [exact Hb|]. split; [lia|].
  rewrite Hid, <- Z.mul_assoc, <- Z.pow_add_r by lia. do 2 f_equal. lia.
Qed.

(** For a width below [2 ^ 24] the bound [img_w - 1.f] is [img_w - 1]. *)
Lemma image_bound_exact n : 1 <= n < 2 ^ 24 -> sub (of_int n) one = of_int (n - 1).
Proof.
  intros Hn. destruct (Z.eq_dec n 1) as [->|Hne]; [reflexivity|].
  destruct (of_int_exact n Hn) as (m & e & -> & Bm & He & Hval).
  unfold one. rewrite sub_finite. replace (Z.min e (-23)) with (-23) by lia.
  cbn [sval cond_Zopp].
  replace (Z.pos m * 2 ^ (e - -23) - 8388608 * 2 ^ (-23 - -23)) with ((n - 1) * 2 ^ 23).
  - assert (Hv : 0 < (n - 1) * 2 ^ 23) by lia.
    assert (Hdv : 24 <= Zdigits2 ((n - 1) * 2 ^ 23)).
    { pose proof (digits_ge_pow ((n - 1) * 2 ^ 23) 23 ltac:(lia) ltac:(lia)). lia. }
    pose proof (digits_pos (n - 1) ltac:(lia)) as Hd1.
    rewrite (RN_pos ((n - 1) * 2 ^ 23) (-23) (-23)) by (unfold fine; lia).
    rewrite of_int_RN, (RN_pos (n - 1) 0 (-23)) by (unfold fine; lia).
    replace (-23 - -23) with 0 by lia. replace (0 - -23) with 23 by lia.
    change (2 ^ 0) with 1. rewrite Z.mul_1_r. reflexivity.
  - replace (e - -23) with (e + 23) by lia. rewrite Hval.
    change (2 ^ (-23 - -23)) with 1. change (2 ^ 23) with 8388608. lia.
Qed.

(** The stages of [detect] on a well-formed network output: each one
    returns, and [detect] returns the kept proposals, mapped. *)
Lemma detect_pipeline fconf_thres fnms_thres W H out :
  1 <= W <= int_max -> 1 <= H <= int_max ->
  well_formed_tensor (mat_data out) (mat_h out) (mat_w out) (mat_h out - 4) ->
  exists lb emit proposals sorted picked kept,
    letterbox W H = Some lb /\
    parse_yolov11_detections (mat_data out) fconf_thres (mat_h out) (mat_w out)
      (mat_h out - 4) 480 480 = Some proposals /\
    proposals = omap emit (seq 0 (Z.to_nat (mat_w out))) /\
    (forall i, (i < Z.to_nat (mat_w out))%nat ->
       exists k m,
         is_first_max (mat_data out) (Z.to_nat (mat_w out)) (Z.to_nat (mat_h out - 4)) i k m /\
         emitted_for (mat_data out) fconf_thres (Z.to_nat (mat_w out)) 480 480 i k m (emit i)) /\
    qsort_descent_inplace proposals = Some sorted /\
    nms_sorted_bboxes sorted fnms_thres false = Some picked /\
    select sorted picked = Some kept /\
    (forall p, p ∈ kept -> p ∈ proposals) /\
    detect fconf_thres fnms_thres W H out = Some (0, map (map_back lb W H) kept).
Proof.
  intros HW HH Hwf.
  destruct (letterbox_spec W H HW HH) as (w0 & h0 & _ & _ & _ & _ & _ & Hlb).
  destruct (letterbox_in_pad W H _ Hlb) as [Ew Eh].
  destruct (parse_spec (mat_data out) fconf_thres (mat_h out) (mat_w out) (mat_h out - 4)
              480 480 Hwf) as (emit & Hparse & Hemit).
  set (proposals := omap emit (seq 0 (Z.to_nat (mat_w out)))) in *.
  assert (Hnn : no_nan proposals).
  { apply Forall_forall. intros o Ho.
    apply list_elem_of_omap in Ho as (i & Hi & Ho).
    apply elem_of_seq in Hi. destruct (Hemit i ltac:(lia)) as (k & m & _ & Hem).
    rewrite Ho in Hem. eapply emitted_prob_number, Hem. }
  destruct (qsort_descent_inplace_spec proposals Hnn) as (sorted & Hsort & Hperm & _).
  destruct (nms_run_inv sorted fnms_thres false) as (picked & log & Hrun & Hinv).
  destruct Hinv as (_ & _ & _ & kept & Hsel & Hsub).
  rewrite firstn_all in Hsub.
  assert (Hnms : nms_sorted_bboxes sorted fnms_thres false = Some picked)
    by (unfold nms_sorted_bboxes; rewrite Hrun; reflexivity).
  eexists _, emit, proposals, sorted, picked, kept.
  split; [exact Hlb|]. split; [exact Hparse|]. split; [reflexivity|].
  split; [exact Hemit|]. split; [exact Hsort|]. split; [exact Hnms|].
  split; [exact Hsel|].
  split; [intros p Hp; rewrite <- Hperm; eapply elem_of_sublist; eassumption|].
  unfold detect. rewrite Hlb. cbn [mbind option_bind]. rewrite Ew, Eh, Hparse.
  cbn [mbind option_bind]. rewrite Hsort. cbn [mbind option_bind].
  rewrite Hnms. cbn [mbind option_bind]. rewrite Hsel. reflexivity.
Qed.

(** A tensor whose entries are all numbers, of the assumed shape. *)
Lemma numbers_well_formed inputs num_channels num_anchors num_labels :
  0 <= num_anchors -> 1 <= num_labels -> num_channels = 4 + num_labels ->
  Z.of_nat (length inputs) = num_channels * num_anchors ->
  Forall (fun s => is_nan s = false) inputs ->
  well_formed_tensor inputs num_channels num_anchors num_labels.
Proof.
  intros HA HL HC Hlen Hall. repeat split; try assumption.
  intros i c s Hs. unfold score_at in Hs.
  apply (proj1 (Forall_forall _ _) Hall). eapply list_elem_of_lookup_2, Hs.
Qed.

(** * The claims *)

(** C1: for every list of candidate detections (probabilities that are
    numbers, not NaN), the sorter returns, its result is a permutation of
    the input, and in the result every adjacent pair has the earlier
    probability greater than or equal to the later one. *)
Theorem sorter_descending_permutation (objects : list Object) :
  no_nan objects ->
  exists sorted, qsort_descent_inplace objects = Some sorted /\
    sorted ≡ₚ objects /\ descending sorted.
Proof. apply qsort_descent_inplace_spec. Qed.

Lemma sorter_descending_permutation_witness :
  no_nan sample_objects /\
  exists sorted, qsort_descent_inplace sample_objects = Some sorted /\
    sorted ≡ₚ sample_objects /\ descending sorted.
Proof.
  assert (H : no_nan sample_objects) by (repeat constructor).
  split; [exact H|]. exact (sorter_descending_permutation sample_objects H).
Defined.

(** C2 as stated fails: two zero-area boxes of one class are both kept,
    and their IoU is [0/0], NaN, which is not [<= tau_nms]. *)
Lemma nms_iou_bound_counterexample :
  descending flat_objects /\
  nms_sorted_bboxes flat_objects thr_045 false = Some [0%nat; 1%nat] /\
  exists a b, flat_objects !! 1%nat = Some a /\ flat_objects !! 0%nat = Some b /\
    label a = label b /\
    le (IoU a b) thr_045 = false /\ le (IoU b a) thr_045 = false.
Proof.
  split.
  - intros [|[|k]] o1 o2 H1 H2; simpl in *; try discriminate.
    injection H1 as <-. injection H2 as <-. vm_compute. reflexivity.
  - split; [vm_compute; reflexivity|].
    eexists _, _. split; [reflexivity|]. split; [reflexivity|].
    split; [reflexivity|]. split; vm_compute; reflexivity.
Qed.

(** C2, amended: for every candidate list and every threshold, with
    [class_agnostic = false], two detections of the output that share a
    label never satisfy the suppression test: for the later one [a] and the
    earlier one [b], [IoU a b > tau_nms] is false, so [IoU a b <= tau_nms]
    whenever neither the IoU nor the threshold is NaN. *)
Theorem nms_kept_pairs_not_suppressing (objs : list Object) (thr : float32)
    (picked : list nat) (p q jp jq : nat) (a b : Object) :
  nms_sorted_bboxes objs thr false = Some picked ->
  (p < q)%nat -> picked !! p = Some jp -> picked !! q = Some jq ->
  objs !! jp = Some b -> objs !! jq = Some a -> label a = label b ->
  gt (IoU a b) thr = false /\
  (is_nan (IoU a b) = false -> is_nan thr = false -> le (IoU a b) thr = true).
Proof.
  intros Hrun Hpq Hp Hq Hb Ha Hlab.
  destruct (nms_run_inv objs thr false) as (picked' & log & Hrun' & _ & _ & Hns & _).
  unfold nms_sorted_bboxes in Hrun. rewrite Hrun' in Hrun. simpl in Hrun.
  injection Hrun as <-.
  assert (Hgt : gt (IoU a b) thr = false).
  { eapply Hns; eauto. }
  split; [exact Hgt|]. intros Hn1 Hn2. apply not_lt_le; assumption.
Qed.

Lemma nms_kept_pairs_not_suppressing_witness :
  exists a b,
    nms_sorted_bboxes sample_objects thr_045 false = Some [0; 1; 2]%nat /\
    sample_objects !! 1%nat = Some a /\ sample_objects !! 0%nat = Some b /\
    label a = label b /\
    gt (IoU a b) thr_045 = false /\
    (is_nan (IoU a b) = false -> is_nan thr_045 = false -> le (IoU a b) thr_045 = true).
Proof.
  eexists _, _.
  assert (Hrun : nms_sorted_bboxes sample_objects thr_045 false = Some [0; 1; 2]%nat)
    by (vm_compute; reflexivity).
  split; [exact Hrun|]. split; [reflexivity|]. split; [reflexivity|].
  split; [reflexivity|].
  exact (nms_kept_pairs_not_suppressing sample_objects thr_045 [0; 1; 2]%nat
           0%nat 1%nat 0%nat 1%nat _ _ Hrun (Nat.lt_0_succ 0)
           eq_refl eq_refl eq_refl eq_refl eq_refl).
Defined.

(** C3: for every input list the NMS filter returns; the picked indices
    are strictly increasing, the objects at those indices form a
    subsequence of the input, and there are at most as many as inputs. *)
Theorem nms_output_subsequence (objs : list Object) (thr : float32) (agnostic : bool) :
  exists picked kept,
    nms_sorted_bboxes objs thr agnostic = Some picked /\
    increasing picked /\
    select objs picked = Some kept /\
    sublist kept objs /\
    (length kept <= length objs)%nat.
Proof.
  destruct (nms_run_inv objs thr agnostic)
    as (picked & log & Hrun & _ & Hinc & _ & kept & Hsel & Hsub).
  exists picked, kept. rewrite firstn_all in Hsub.
  unfold nms_sorted_bboxes. rewrite Hrun.
  repeat split; try assumption. apply sublist_length, Hsub.
Qed.

(** C8 as stated fails: for two zero-area boxes of one class the inner loop
    does divide, the denominator [union_area] is zero, and the quotient is
    NaN, not 0.  The denominator is not guarded. *)
Lemma nms_divides_by_zero :
  nms_run flat_objects thr_045 false = Some ([0%nat; 1%nat], [(zero, zero)]) /\
  div zero zero = S754_nan /\
  exists a b, flat_objects !! 1%nat = Some a /\ flat_objects !! 0%nat = Some b /\
    is_zero (CV.area (rect a)) = true /\ is_zero (CV.area (rect b)) = true /\
    is_zero (intersection_area a b) = true /\ is_nan (IoU a b) = true.
Proof.
  split; [vm_compute; reflexivity|]. split; [reflexivity|].
  eexists _, _. split; [reflexivity|]. split; [reflexivity|].
  repeat split; vm_compute; reflexivity.
Qed.

Lemma zero_union_is_zero ai aj inter_area :
  is_zero ai = true -> is_zero aj = true -> is_zero inter_area = true ->
  is_zero (union_area ai aj inter_area) = true.
Proof.
  destruct ai as [s1| | |], aj as [s2| | |], inter_area as [s3| | |]; try discriminate.
  intros _ _ _. destruct s1, s2, s3; reflexivity.
Qed.

Lemma div_zero_zero_nan a b :
  is_zero a = true -> is_zero b = true -> div a b = S754_nan.
Proof. destruct a, b; try discriminate. reflexivity. Qed.

Lemma gt_nan_l thr : gt S754_nan thr = false.
Proof. unfold gt, SFltb. rewrite compare_nan_r by reflexivity. reflexivity. Qed.

(** C8, amended: when a candidate [a] is compared with a kept object [b]
    and both areas and the intersection area are zero, the code divides by
    the zero [union_area] without a guard; the quotient is NaN, the test
    [NaN > nms_threshold] is false for every threshold, and the pair leaves
    [keep] as it was: the pair never suppresses the candidate. *)
Theorem nms_zero_union_never_suppresses (objs : list Object) (areas : list float32)
    (thr : float32) (agnostic : bool) (i j : nat) (a b : Object) (ai aj : float32)
    (keep : bool) (log : div_log) :
  objs !! j = Some b -> areas !! i = Some ai -> areas !! j = Some aj ->
  is_zero ai = true -> is_zero aj = true -> is_zero (intersection_area a b) = true ->
  agnostic = true \/ label a = label b ->
  let u := union_area ai aj (intersection_area a b) in
  nms_inner objs areas thr agnostic i a [j] keep log
    = Some (keep, log ++ [(intersection_area a b, u)]) /\
  is_zero u = true /\
  div (intersection_area a b) u = S754_nan /\
  gt (div (intersection_area a b) u) thr = false.
Proof.
  intros Hb Hai Haj Zi Zj Zint Hlab u.
  assert (Hu : is_zero u = true) by (apply zero_union_is_zero; assumption).
  assert (Hd : div (intersection_area a b) u = S754_nan)
    by (apply div_zero_zero_nan; assumption).
  assert (Hskip : negb agnostic && negb (label a =? label b) = false).
  { destruct Hlab as [->| ->]; [reflexivity|].
    rewrite Z.eqb_refl. apply andb_false_r. }
  cbn [nms_inner]. rewrite Hb. cbn [mbind option_bind]. rewrite Hskip, Hai, Haj.
  cbn [mbind option_bind]. fold u. rewrite Hd, gt_nan_l.
  repeat split; assumption.
Qed.

Lemma nms_zero_union_never_suppresses_witness :
  let a := mkObject (mkRect (of_int 480) (of_int 300) zero (of_int 10)) 1
             (div (of_int 8) (of_int 10)) in
  let b := mkObject (mkRect (of_int 480) (of_int 100) zero (of_int 10)) 1
             (div (of_int 9) (of_int 10)) in
  let areas := map (fun o => CV.area (rect o)) flat_objects in
  flat_objects !! 0%nat = Some b /\
  areas !! 1%nat = Some zero /\ areas !! 0%nat = Some zero /\
  is_zero (intersection_area a b) = true /\
  (let u := union_area zero zero (intersection_area a b) in
   nms_inner flat_objects areas thr_045 false 1 a [0%nat] true []
     = Some (true, [] ++ [(intersection_area a b, u)]) /\
   is_zero u = true /\
   div (intersection_area a b) u = S754_nan /\
   gt (div (intersection_area a b) u) thr_045 = false).
Proof.
  intros a b areas.
  assert (H0 : flat_objects !! 0%nat = Some b) by reflexivity.
  assert (H1 : areas !! 1%nat = Some zero) by reflexivity.
  assert (H2 : areas !! 0%nat = Some zero) by reflexivity.
  assert (H3 : is_zero (intersection_area a b) = true) by reflexivity.
  split; [exact H0|]. split; [exact H1|]. split; [exact H2|]. split; [exact H3|].
  exact (nms_zero_union_never_suppresses flat_objects areas thr_045 false 1 0 a b
           zero zero true [] H0 H1 H2 eq_refl eq_refl H3 (or_intror eq_refl)).
Defined.

(** C4: on every raw tensor of the assumed shape (class scores that are
    numbers), the decoder returns the emissions of the anchors in anchor
    order; an anchor emits a candidate exactly when the maximum of its class
    scores is strictly above [conf_thres], the candidate's probability is
    that maximum and its label is the first index where the maximum occurs;
    so every emitted candidate has probability above [conf_thres]. *)
Theorem decoder_emits_iff_max_exceeds (inputs : list float32) (conf_thres : float32)
    (num_channels num_anchors num_labels img_w img_h : Z) :
  well_formed_tensor inputs num_channels num_anchors num_labels ->
  exists (emit : nat -> option Object) (dets : list Object),
    parse_yolov11_detections inputs conf_thres num_channels num_anchors num_labels
      img_w img_h = Some dets /\
    dets = omap emit (seq 0 (Z.to_nat num_anchors)) /\
    (forall i, (i < Z.to_nat num_anchors)%nat ->
       exists k m,
         is_first_max inputs (Z.to_nat num_anchors) (Z.to_nat num_labels) i k m /\
         (emit i <> None <-> gt m conf_thres = true) /\
         (forall o, emit i = Some o -> prob o = m /\ label o = Z.of_nat k)) /\
    Forall (fun o => gt (prob o) conf_thres = true) dets.
Proof.
  intros Hwf.
  destruct (parse_spec inputs conf_thres num_channels num_anchors num_labels img_w img_h Hwf)
    as (emit & Hrun & Hrows).
  exists emit, (omap emit (seq 0 (Z.to_nat num_anchors))).
  split; [exact Hrun|]. split; [reflexivity|]. split.
  - intros i Hi. destruct (Hrows i Hi) as (k & m & Hfm & Hiff & Hobj).
    exists k, m. split; [exact Hfm|]. split; [exact Hiff|].
    intros o Ho. destruct (Hobj o Ho) as (Hp & Hl & _). auto.
  - apply Forall_forall. intros o Ho.
    apply list_elem_of_omap in Ho as (i & Hi & Ho).
    apply elem_of_seq in Hi.
    destruct (Hrows i ltac:(lia)) as (k & m & _ & Hiff & Hobj).
    destruct (Hobj o Ho) as (-> & _).
    apply Hiff. congruence.
Qed.

Lemma sample_tensor_well_formed : well_formed_tensor sample_tensor 5 1 1.
Proof.
  unfold well_formed_tensor. repeat split; try lia; try reflexivity.
  intros i c s. unfold score_at, sample_tensor.
  destruct i as [|i], c as [|c]; simpl.
  - intros [= <-]. vm_compute. reflexivity.
  - rewrite lookup_ge_None_2 by (simpl; lia). discriminate.
  - rewrite lookup_ge_None_2 by (simpl; lia). discriminate.
  - rewrite lookup_ge_None_2 by (simpl; lia). discriminate.
Qed.

Lemma decoder_emits_iff_max_exceeds_witness :
  well_formed_tensor sample_tensor 5 1 1 /\
  exists (emit : nat -> option Object) (dets : list Object),
    parse_yolov11_detections sample_tensor thr_025 5 1 1 480 480 = Some dets /\
    dets = omap emit (seq 0 (Z.to_nat 1)) /\
    (forall i, (i < Z.to_nat 1)%nat ->
       exists k m,
         is_first_max sample_tensor (Z.to_nat 1) (Z.to_nat 1) i k m /\
         (emit i <> None <-> gt m thr_025 = true) /\
         (forall o, emit i = Some o -> prob o = m /\ label o = Z.of_nat k)) /\
    Forall (fun o => gt (prob o) thr_025 = true) dets.
Proof.
  split; [exact sample_tensor_well_formed|].
  exact (decoder_emits_iff_max_exceeds sample_tensor thr_025 5 1 1 480 480
           sample_tensor_well_formed).
Defined.

(** C5. For a well-formed tensor and a padded image of non-negative size
    the decoder returns the emissions of the anchors in anchor order; the
    box emitted for an anchor is [(x0, y0, x1 - x0, y1 - y0)], where the
    four corners are the corners [x -+ 0.5 * w], [y -+ 0.5 * h] of that
    anchor's raw box, each clamped to [[0, img_w]] on the x axis and to
    [[0, img_h]] on the y axis: a corner strictly inside the range is
    kept, a corner not above [0] becomes [0], a corner not below the bound
    becomes the bound.  In particular a computed corner [x + 0.5 * w]
    equal to [img_w + 50] is emitted as exactly [img_w]. *)
Theorem decoder_corners_clamped (inputs : list float32) (conf_thres : float32)
    (num_channels num_anchors num_labels img_w img_h : Z) :
  well_formed_tensor inputs num_channels num_anchors num_labels ->
  0 <= img_w -> 0 <= img_h ->
  exists (emit : nat -> option Object) (dets : list Object),
    parse_yolov11_detections inputs conf_thres num_channels num_anchors num_labels
      img_w img_h = Some dets /\
    dets = omap emit (seq 0 (Z.to_nat num_anchors)) /\
    forall i, (i < Z.to_nat num_anchors)%nat ->
      exists k m,
        is_first_max inputs (Z.to_nat num_anchors) (Z.to_nat num_labels) i k m /\
        (emit i <> None <-> gt m conf_thres = true) /\
        forall o, emit i = Some o ->
          exists x y w h x0 y0 x1 y1,
            raw_box inputs (Z.to_nat num_anchors) i = Some (x, y, w, h) /\
            rect o = mkRect x0 y0 (sub x1 x0) (sub y1 y0) /\
            clamped (sub x (mul half w)) img_w x0 /\
            clamped (sub y (mul half h)) img_h y0 /\
            clamped (add x (mul half w)) img_w x1 /\
            clamped (add y (mul half h)) img_h y1 /\
            (add x (mul half w) = of_int (img_w + 50) -> x1 = of_int img_w).
Proof.
  intros Hwf HW HH.
  destruct (parse_spec inputs conf_thres num_channels num_anchors num_labels img_w img_h Hwf)
    as (emit & Hparse & Hemit).
  exists emit, (omap emit (seq 0 (Z.to_nat num_anchors))).
  split; [exact Hparse|]. split; [reflexivity|].
  intros i Hi. destruct (Hemit i Hi) as (k & m & Hfm & Hiff & Hobj).
  exists k, m. split; [exact Hfm|]. split; [exact Hiff|].
  intros o Ho. destruct (Hobj o Ho) as (_ & _ & x & y & w & h & Hraw & Hrect).
  exists x, y, w, h.
  exists (clampf (sub x (mul half w)) zero (of_int img_w)),
         (clampf (sub y (mul half h)) zero (of_int img_h)),
         (clampf (add x (mul half w)) zero (of_int img_w)),
         (clampf (add y (mul half h)) zero (of_int img_h)).
  split; [exact Hraw|]. split; [exact Hrect|].
  repeat split; try (apply clampf_clamped; assumption).
  intros Hx1. apply clampf_upper_zero; [exact HW|].
  rewrite Hx1. apply le_not_lt, of_int_le. lia.
Qed.

(** A tensor of one anchor and one class whose score is a number. *)
Lemma one_anchor_well_formed x y w h s :
  is_nan s = false -> well_formed_tensor [x; y; w; h; s] 5 1 1.
Proof.
  intros Hs. unfold well_formed_tensor. repeat split; try lia; try reflexivity.
  intros i c s'. unfold score_at.
  destruct i as [|i], c as [|c]; simpl.
  - intros [= <-]. exact Hs.
  - rewrite lookup_ge_None_2 by (simpl; lia). discriminate.
  - rewrite lookup_ge_None_2 by (simpl; lia). discriminate.
  - rewrite lookup_ge_None_2 by (simpl; lia). discriminate.
Qed.

Lemma decoder_corners_clamped_witness :
  exists (emit : nat -> option Object) (dets : list Object),
    parse_yolov11_detections wide_tensor thr_025 5 1 1 480 480 = Some dets /\
    dets = omap emit (seq 0 (Z.to_nat 1)) /\
    forall i, (i < Z.to_nat 1)%nat ->
      exists k m,
        is_first_max wide_tensor (Z.to_nat 1) (Z.to_nat 1) i k m /\
        (emit i <> None <-> gt m thr_025 = true) /\
        forall o, emit i = Some o ->
          exists x y w h x0 y0 x1 y1,
            raw_box wide_tensor (Z.to_nat 1) i = Some (x, y, w, h) /\
            rect o = mkRect x0 y0 (sub x1 x0) (sub y1 y0) /\
            clamped (sub x (mul half w)) 480 x0 /\
            clamped (sub y (mul half h)) 480 y0 /\
            clamped (add x (mul half w)) 480 x1 /\
            clamped (add y (mul half h)) 480 y1 /\
            (add x (mul half w) = of_int (480 + 50) -> x1 = of_int 480).
Proof.
  apply (decoder_corners_clamped wide_tensor thr_025 5 1 1 480 480).
  - apply one_anchor_well_formed. vm_compute. reflexivity.
  - lia.
  - lia.
Defined.

(** The clamping scenario, run: the raw corner [530 = 480 + 50] leaves the
    decoder as [x1 = 480], stored as [x0 = 470] and width [10]. *)
Lemma decoder_clamps_530_to_480 :
  add (of_int 500) (mul half (of_int 60)) = of_int (480 + 50) /\
  parse_yolov11_detections wide_tensor thr_025 5 1 1 480 480
  = Some [mkObject (mkRect (of_int 470) (of_int 95) (of_int 10) (of_int 10)) 0
            (div (of_int 9) (of_int 10))].
Proof. split; vm_compute; reflexivity. Qed.

(** C6, refuted as stated: for the raw row [(100, 100, -20, 10)] the
    decoder emits a box of width [-20], and the mapper's rewritten box
    has a negative width too. *)
Lemma negative_width_counterexample :
  exists o o',
    parse_yolov11_detections negative_tensor thr_025 5 1 1 480 480 = Some [o] /\
    lt (rwidth (rect o)) zero = true /\
    detect thr_025 thr_045 640 425 (mkMat 1 5 negative_tensor) = Some (0, [o']) /\
    lt (rwidth (rect o')) zero = true.
Proof. do 2 eexists. repeat split; vm_compute; reflexivity. Qed.

(** C6, amended. For an image of [1 <= W, H <= INT_MAX] and a well-formed
    network output every stage of [detect] returns, and every candidate
    whose own raw row has a width and a height that are not negative has a
    box of non-negative width and height at every stage: as emitted by the
    decoder for its anchor, and as rewritten by the coordinate mapper
    (the objects returned by [detect] are the kept proposals, each
    rewritten by [map_back]).  Nothing is assumed of the other rows. *)
Theorem boxes_nonneg_when_raw_sizes_nonneg (fconf_thres fnms_thres : float32)
    (img_w img_h : Z) (out : Mat) :
  1 <= img_w <= int_max -> 1 <= img_h <= int_max ->
  well_formed_tensor (mat_data out) (mat_h out) (mat_w out) (mat_h out - 4) ->
  exists lb emit proposals sorted picked kept,
    letterbox img_w img_h = Some lb /\
    parse_yolov11_detections (mat_data out) fconf_thres (mat_h out) (mat_w out)
      (mat_h out - 4) 480 480 = Some proposals /\
    proposals = omap emit (seq 0 (Z.to_nat (mat_w out))) /\
    (forall i, (i < Z.to_nat (mat_w out))%nat ->
       exists k m,
         is_first_max (mat_data out) (Z.to_nat (mat_w out)) (Z.to_nat (mat_h out - 4)) i k m /\
         emitted_for (mat_data out) fconf_thres (Z.to_nat (mat_w out)) 480 480 i k m (emit i)) /\
    qsort_descent_inplace proposals = Some sorted /\
    nms_sorted_bboxes sorted fnms_thres false = Some picked /\
    select sorted picked = Some kept /\
    (forall p, p ∈ kept -> exists i, (i < Z.to_nat (mat_w out))%nat /\ emit i = Some p) /\
    detect fconf_thres fnms_thres img_w img_h out
    = Some (0, map (map_back lb img_w img_h) kept) /\
    forall i x y w h p,
      (i < Z.to_nat (mat_w out))%nat ->
      raw_box (mat_data out) (Z.to_nat (mat_w out)) i = Some (x, y, w, h) ->
      emit i = Some p ->
      valid x = true -> valid y = true -> valid w = true -> valid h = true ->
      le zero w = true -> le zero h = true ->
      nonneg_box p /\ nonneg_box (map_back lb img_w img_h p).
Proof.
  intros HW HH Hwf.
  destruct (detect_pipeline fconf_thres fnms_thres img_w img_h out HW HH Hwf)
    as (lb & emit & proposals & sorted & picked & kept & Hlb & Hparse & Hprop & Hemit
        & Hsort & Hnms & Hsel & Hkept & Hdet).
  exists lb, emit, proposals, sorted, picked, kept.
  split; [exact Hlb|]. split; [exact Hparse|]. split; [exact Hprop|].
  split; [exact Hemit|]. split; [exact Hsort|]. split; [exact Hnms|].
  split; [exact Hsel|]. split.
  { intros p Hp. apply Hkept in Hp. rewrite Hprop in Hp.
    apply list_elem_of_omap in Hp as (i & Hi & Hp). apply elem_of_seq in Hi.
    exists i. split; [lia|exact Hp]. }
  split; [exact Hdet|].
  intros i x y w h p Hi Hraw Hp Vx Vy Vw Vh Nw Nh.
  destruct (Hemit i Hi) as (k & m & _ & _ & Hobj).
  destruct (Hobj p Hp) as (_ & _ & x' & y' & w' & h' & Hraw' & Hrect).
  rewrite Hraw in Hraw'. injection Hraw' as <- <- <- <-.
  assert (Hproper : proper_box p).
  { apply (corners_proper x y w h 480 480); try assumption; unfold int_max; lia. }
  split.
  - apply Hproper.
  - apply (map_back_nonneg img_w img_h lb p HW HH Hlb Hproper).
Qed.

Lemma boxes_nonneg_when_raw_sizes_nonneg_witness :
  exists lb emit proposals sorted picked kept,
    letterbox 640 425 = Some lb /\
    parse_yolov11_detections (mat_data (mkMat 2 5 two_anchor_tensor)) thr_025 5 2 (5 - 4)
      480 480 = Some proposals /\
    proposals = omap emit (seq 0 (Z.to_nat 2)) /\
    (forall i, (i < Z.to_nat 2)%nat ->
       exists k m,
         is_first_max two_anchor_tensor (Z.to_nat 2) (Z.to_nat (5 - 4)) i k m /\
         emitted_for two_anchor_tensor thr_025 (Z.to_nat 2) 480 480 i k m (emit i)) /\
    qsort_descent_inplace proposals = Some sorted /\
    nms_sorted_bboxes sorted thr_045 false = Some picked /\
    select sorted picked = Some kept /\
    (forall p, p ∈ kept -> exists i, (i < Z.to_nat 2)%nat /\ emit i = Some p) /\
    detect thr_025 thr_045 640 425 (mkMat 2 5 two_anchor_tensor)
    = Some (0, map (map_back lb 640 425) kept) /\
    forall i x y w h p,
      (i < Z.to_nat 2)%nat ->
      raw_box two_anchor_tensor (Z.to_nat 2) i = Some (x, y, w, h) ->
      emit i = Some p ->
      valid x = true -> valid y = true -> valid w = true -> valid h = true ->
      le zero w = true -> le zero h = true ->
      nonneg_box p /\ nonneg_box (map_back lb 640 425 p).
Proof.
  apply (boxes_nonneg_when_raw_sizes_nonneg thr_025 thr_045 640 425
           (mkMat 2 5 two_anchor_tensor)).
  - unfold int_max. lia.
  - unfold int_max. lia.
  - apply (numbers_well_formed two_anchor_tensor 5 2 1);
      [lia|lia|reflexivity|reflexivity|repeat constructor].
Defined.

(** The run of [detect] on the tensor of two anchors: the row of negative
    width is never emitted, and the one candidate has a box of
    non-negative width and height before and after the mapper. *)
Lemma two_anchor_run :
  exists p o,
    parse_yolov11_detections two_anchor_tensor thr_025 5 2 1 480 480 = Some [p] /\
    detect thr_025 thr_045 640 425 (mkMat 2 5 two_anchor_tensor) = Some (0, [o]) /\
    nonneg_box p /\ nonneg_box o.
Proof. do 2 eexists. repeat split; vm_compute; reflexivity. Qed.

(** C7, refuted as stated: for a [640 x 425] image the product
    [425 * scale] is [318.75]; its nearest integer is [319], the resized
    height computed by the code is [318]. *)
Lemma letterbox_rounding_counterexample :
  exists lb,
    letterbox 640 425 = Some lb /\
    mul (of_int 425) (lb_scale lb) = S754_finite false 10444800 (-15) /\
    nearest_int (mul (of_int 425) (lb_scale lb)) = Some 319 /\
    lb_h lb = 318 /\ lb_w lb = target_size.
Proof. eexists. repeat split; vm_compute; reflexivity. Qed.

(** For a [533 x 532] image both products truncate to [479]: the height,
    the smaller side, is set to [480] and the width stays [479]. *)
Lemma letterbox_533_532 :
  exists lb, letterbox 533 532 = Some lb /\ lb_w lb = 479 /\ lb_h lb = target_size.
Proof. eexists. repeat split; vm_compute; reflexivity. Qed.

(** C7, amended. For an image of [1 <= W, H <= INT_MAX] the preprocessor
    returns; its scale is the smaller of the two binary32 quotients
    [T / W] and [T / H]; the resized sizes start as the binary32 products
    [W * scale] and [H * scale] converted to [int] by truncation; the
    width is then replaced by [T] when the truncated width exceeds the
    truncated height, and the height is replaced by [T] otherwise, which
    is always the case when [W <= H]. *)
Theorem letterbox_scale_and_truncated_size (img_w img_h : Z) :
  1 <= img_w <= int_max -> 1 <= img_h <= int_max ->
  exists lb w0 h0,
    letterbox img_w img_h = Some lb /\
    (let tw := div (of_int target_size) (of_int img_w) in
     let th := div (of_int target_size) (of_int img_h) in
     (lb_scale lb = tw \/ lb_scale lb = th) /\
     le (lb_scale lb) tw = true /\ le (lb_scale lb) th = true) /\
    trunc (mul (of_int img_w) (lb_scale lb)) = Some w0 /\
    trunc (mul (of_int img_h) (lb_scale lb)) = Some h0 /\
    lb_w lb = (if w0 >? h0 then target_size else w0) /\
    lb_h lb = (if w0 >? h0 then h0 else target_size) /\
    (img_w <= img_h -> lb_w lb = w0 /\ lb_h lb = target_size).
Proof.
  intros HW HH.
  destruct (letterbox_spec img_w img_h HW HH) as (w0 & h0 & Hw & Hh & _ & _ & Hmono & Hlb).
  eexists _, w0, h0. split; [exact Hlb|]. cbn [lb_scale lb_w lb_h].
  split; [|split; [exact Hw|split; [exact Hh|split; [reflexivity|split; [reflexivity|]]]]].
  - rewrite scale_of_max. split; [|split].
    + destruct (Z.max_spec img_w img_h) as [[_ ->]|[_ ->]]; tauto.
    + apply scale_le; lia.
    + apply scale_le; lia.
  - intros Hle. specialize (Hmono Hle).
    destruct (Z.gtb_spec w0 h0); [lia|]. split; reflexivity.
Qed.

Lemma letterbox_scale_and_truncated_size_witness :
  exists lb w0 h0,
    letterbox 425 640 = Some lb /\
    (let tw := div (of_int target_size) (of_int 425) in
     let th := div (of_int target_size) (of_int 640) in
     (lb_scale lb = tw \/ lb_scale lb = th) /\
     le (lb_scale lb) tw = true /\ le (lb_scale lb) th = true) /\
    trunc (mul (of_int 425) (lb_scale lb)) = Some w0 /\
    trunc (mul (of_int 640) (lb_scale lb)) = Some h0 /\
    lb_w lb = (if w0 >? h0 then target_size else w0) /\
    lb_h lb = (if w0 >? h0 then h0 else target_size) /\
    (425 <= 640 -> lb_w lb = w0 /\ lb_h lb = target_size).
Proof.
  apply (letterbox_scale_and_truncated_size 425 640); unfold int_max; lia.
Defined.

(** C9, refuted as stated: for a [640 x 425] image and a candidate that
    reaches beyond the right edge, the rewritten box has [x = 0.80000...]
    and the width [638.20001...], the binary32 difference of the clamped
    corners [639] and [x]; in exact arithmetic [x + width] is above
    [639 = W - 1]. *)
Lemma mapper_box_beyond_bound_counterexample :
  exists o,
    detect thr_025 thr_045 640 425 (mkMat 1 5 edge_tensor) = Some (0, [o]) /\
    rx (rect o) = S754_finite false 13421909 (-24) /\
    rwidth (rect o) = S754_finite false 10456269 (-14) /\
    sub (of_int 640) one = of_int 639 /\
    sval (of_int 639) (-24) < sval (rx (rect o)) (-24) + sval (rwidth (rect o)) (-24).
Proof. eexists. repeat split; vm_compute; reflexivity. Qed.

(** For a width above [2 ^ 24] the bound [img_w - 1.f] is not [img_w - 1]. *)
Lemma image_bound_above_width : sub (of_int 16777219) one = of_int (16777219 + 1).
Proof. vm_compute. reflexivity. Qed.

(** C9, amended. For an image of [1 <= W, H <= INT_MAX] and a well-formed
    network output every stage of [detect] returns, and [detect] returns
    one object for every candidate kept by the NMS filter, in the same
    order: the kept candidate with its box rewritten as
    [(x0, y0, x1 - x0, y1 - y0)], where the corners are [(p - pad) / scale]
    computed in binary32 with the scale and the paddings of the letterbox
    of this call, clamped to [[0, (float)W - 1.f]] on the x axis and to
    [[0, (float)H - 1.f]] on the y axis.  The four clamped corners lie in
    these ranges, whose upper bounds are [W - 1] and [H - 1] for sizes
    below [2 ^ 24]; the stored width and height are the binary32
    differences of the corners. *)
Theorem mapper_corners_within_image (fconf_thres fnms_thres : float32)
    (img_w img_h : Z) (out : Mat) :
  1 <= img_w <= int_max -> 1 <= img_h <= int_max ->
  well_formed_tensor (mat_data out) (mat_h out) (mat_w out) (mat_h out - 4) ->
  exists lb proposals sorted picked kept objects,
    letterbox img_w img_h = Some lb /\
    parse_yolov11_detections (mat_data out) fconf_thres (mat_h out) (mat_w out)
      (mat_h out - 4) 480 480 = Some proposals /\
    qsort_descent_inplace proposals = Some sorted /\
    nms_sorted_bboxes sorted fnms_thres false = Some picked /\
    select sorted picked = Some kept /\
    detect fconf_thres fnms_thres img_w img_h out = Some (0, objects) /\
    length objects = length kept /\
    (img_w < 2 ^ 24 -> sub (of_int img_w) one = of_int (img_w - 1)) /\
    (img_h < 2 ^ 24 -> sub (of_int img_h) one = of_int (img_h - 1)) /\
    forall i p, kept !! i = Some p ->
      exists x0 y0 x1 y1,
        let wpad2 := of_int (Z.quot (lb_wpad lb) 2) in
        let hpad2 := of_int (Z.quot (lb_hpad lb) 2) in
        let xmax := sub (of_int img_w) one in
        let ymax := sub (of_int img_h) one in
        x0 = clampf (div (sub (rx (rect p)) wpad2) (lb_scale lb)) zero xmax /\
        y0 = clampf (div (sub (ry (rect p)) hpad2) (lb_scale lb)) zero ymax /\
        x1 = clampf (div (sub (add (rx (rect p)) (rwidth (rect p))) wpad2) (lb_scale lb))
               zero xmax /\
        y1 = clampf (div (sub (add (ry (rect p)) (rheight (rect p))) hpad2) (lb_scale lb))
               zero ymax /\
        objects !! i
        = Some (mkObject (mkRect x0 y0 (sub x1 x0) (sub y1 y0)) (label p) (prob p)) /\
        (le zero x0 = true /\ le x0 xmax = true) /\
        (le zero x1 = true /\ le x1 xmax = true) /\
        (le zero y0 = true /\ le y0 ymax = true) /\
        (le zero y1 = true /\ le y1 ymax = true).
Proof.
  intros HW HH Hwf.
  destruct (detect_pipeline fconf_thres fnms_thres img_w img_h out HW HH Hwf)
    as (lb & emit & proposals & sorted & picked & kept & Hlb & Hparse & _ & _
        & Hsort & Hnms & Hsel & _ & Hdet).
  exists lb, proposals, sorted, picked, kept, (map (map_back lb img_w img_h) kept).
  split; [exact Hlb|]. split; [exact Hparse|]. split; [exact Hsort|].
  split; [exact Hnms|]. split; [exact Hsel|]. split; [exact Hdet|].
  split; [apply length_fmap|].
  split; [intros Hs; apply image_bound_exact; lia|].
  split; [intros Hs; apply image_bound_exact; lia|].
  intros i p Hp.
  destruct (image_bound img_w HW) as (_ & _ & Nw).
  destruct (image_bound img_h HH) as (_ & _ & Nh).
  do 4 eexists. cbv zeta.
  split; [reflexivity|]. split; [reflexivity|]. split; [reflexivity|].
  split; [reflexivity|]. split.
  - rewrite list_lookup_fmap, Hp. reflexivity.
  - repeat split; apply clampf_range; assumption.
Qed.

Lemma mapper_corners_within_image_witness :
  exists lb proposals sorted picked kept objects,
    letterbox 640 425 = Some lb /\
    parse_yolov11_detections (mat_data (mkMat 1 5 edge_tensor)) thr_025 5 1 (5 - 4)
      480 480 = Some proposals /\
    qsort_descent_inplace proposals = Some sorted /\
    nms_sorted_bboxes sorted thr_045 false = Some picked /\
    select sorted picked = Some kept /\
    detect thr_025 thr_045 640 425 (mkMat 1 5 edge_tensor) = Some (0, objects) /\
    length objects = length kept /\
    (640 < 2 ^ 24 -> sub (of_int 640) one = of_int (640 - 1)) /\
    (425 < 2 ^ 24 -> sub (of_int 425) one = of_int (425 - 1)) /\
    forall i p, kept !! i = Some p ->
      exists x0 y0 x1 y1,
        let wpad2 := of_int (Z.quot (lb_wpad lb) 2) in
        let hpad2 := of_int (Z.quot (lb_hpad lb) 2) in
        let xmax := sub (of_int 640) one in
        let ymax := sub (of_int 425) one in
        x0 = clampf (div (sub (rx (rect p)) wpad2) (lb_scale lb)) zero xmax /\
        y0 = clampf (div (sub (ry (rect p)) hpad2) (lb_scale lb)) zero ymax /\
        x1 = clampf (div (sub (add (rx (rect p)) (rwidth (rect p))) wpad2) (lb_scale lb))
               zero xmax /\
        y1 = clampf (div (sub (add (ry (rect p)) (rheight (rect p))) hpad2) (lb_scale lb))
               zero ymax /\
        objects !! i
        = Some (mkObject (mkRect x0 y0 (sub x1 x0) (sub y1 y0)) (label p) (prob p)) /\
        (le zero x0 = true /\ le x0 xmax = true) /\
        (le zero x1 = true /\ le x1 xmax = true) /\
        (le zero y0 = true /\ le y0 ymax = true) /\
        (le zero y1 = true /\ le y1 ymax = true).
Proof.
  apply (mapper_corners_within_image thr_025 thr_045 640 425 (mkMat 1 5 edge_tensor)).
  - unfold int_max. lia.
  - unfold int_max. lia.
  - apply one_anchor_well_formed. vm_compute. reflexivity.
Defined.

(** C10. For an image of [1 <= W, H <= INT_MAX] and a well-formed network
    output, [detect] returns, and the returned code is [0]; whatever the
    inputs, no other code is ever returned. *)
Theorem detect_returns_zero (fconf_thres fnms_thres : float32)
    (img_w img_h : Z) (out : Mat) :
  1 <= img_w <= int_max -> 1 <= img_h <= int_max ->
  well_formed_tensor (mat_data out) (mat_h out) (mat_w out) (mat_h out - 4) ->
  (exists objects, detect fconf_thres fnms_thres img_w img_h out = Some (0, objects)) /\
  (forall W H out' r objects,
     detect fconf_thres fnms_thres W H out' = Some (r, objects) -> r = 0).
Proof.
  intros HW HH Hwf. split.
  - destruct (detect_spec fconf_thres fnms_thres img_w img_h out HW HH Hwf)
      as (lb & emit & proposals & sorted & kept & _ & _ & _ & _ & _ & _ & _ & Hdet).
    eauto.
  - intros W H out' r objects Hdet.
    apply (detect_inv _ _ _ _ _ _ _ Hdet).
Qed.

(** The case of an empty result: the only score is below the threshold. *)
Lemma detect_returns_zero_witness :
  detect thr_025 thr_045 640 425 (mkMat 1 5 low_tensor) = Some (0, []) /\
  (exists objects, detect thr_025 thr_045 640 425 (mkMat 1 5 low_tensor) = Some (0, objects)) /\
  (forall W H out' r objects,
     detect thr_025 thr_045 W H out' = Some (r, objects) -> r = 0).
Proof.
  split; [vm_compute; reflexivity|].
  apply (detect_returns_zero thr_025 thr_045 640 425 (mkMat 1 5 low_tensor)).
  - unfold int_max. lia.
  - unfold int_max. lia.
  - apply one_anchor_well_formed. vm_compute. reflexivity.
Defined.

(** * Further properties *)

(** ** Order of the output of [detect] *)

Lemma descending_tail o l : descending (o :: l) -> descending l.
Proof. intros H k o1 o2 H1 H2. apply (H (S k) o1 o2); assumption. Qed.

Lemma descending_strongly l : descending l -> StronglySorted not_below l.
Proof.
  induction l as [|o l IH]; intros H; constructor.
  - apply IH. eapply descending_tail, H.
  - specialize (IH (descending_tail _ _ H)).
    destruct l as [|o' l]; constructor.
    + apply (H 0%nat o o'); reflexivity.
    + apply StronglySorted_inv in IH as [_ Hall].
      eapply Forall_impl; [exact Hall|]. intros o2 H2. unfold not_below in *.
      eapply le_trans; [exact H2|]. apply (H 0%nat o o'); reflexivity.
Qed.

Lemma strongly_sublist l1 l2 :
  sublist l1 l2 -> StronglySorted not_below l2 -> StronglySorted not_below l1.
Proof.
  induction 1 as [|x l1 l2 Hs IH|x l1 l2 Hs IH]; intros H2.
  - constructor.
  - apply StronglySorted_inv in H2 as [H2 Hall]. constructor; [apply IH, H2|].
    apply Forall_forall. intros o Ho.
    apply (proj1 (Forall_forall _ _) Hall). eapply elem_of_sublist; eassumption.
  - apply StronglySorted_inv in H2 as [H2 _]. apply IH, H2.
Qed.

Lemma strongly_descending l : StronglySorted not_below l -> descending l.
Proof.
  induction 1 as [|o l Hs IH Hall]; intros k o1 o2 H1 H2.
  - rewrite lookup_nil in H1. discriminate.
  - destruct k as [|k].
    + injection H1 as <-. cbn in H2.
      apply (proj1 (Forall_forall _ _) Hall). eapply list_elem_of_lookup_2, H2.
    + apply (IH k o1 o2); assumption.
Qed.

(** A subsequence of a descending list is descending. *)
Lemma descending_sublist l1 l2 : sublist l1 l2 -> descending l2 -> descending l1.
Proof.
  intros Hs Hd. eapply strongly_descending, strongly_sublist, descending_strongly; eassumption.
Qed.

(** The mapper changes the boxes only. *)
Lemma descending_map_back lb W H l :
  descending l -> descending (map (map_back lb W H) l).
Proof.
  intros Hd k o1 o2. rewrite !list_lookup_fmap.
  destruct (l !! k) as [p1|] eqn:E1; [|discriminate].
  destruct (l !! S k) as [p2|] eqn:E2; [|discriminate].
  intros [= <-] [= <-]. apply (Hd k p1 p2 E1 E2).
Qed.

Lemma omap_length {A B} (f : A -> option B) (l : list A) :
  (length (omap f l) <= length l)%nat.
Proof. induction l as [|x l IH]; csimpl; [lia|]. destruct (f x); csimpl; lia. Qed.

(** X14. The objects returned by [detect] are in descending order of
    probability: the sorted proposals stay in order through the NMS filter
    and the coordinate mapper. *)
Theorem detect_objects_descending (fconf_thres fnms_thres : float32)
    (img_w img_h : Z) (out : Mat) :
  1 <= img_w <= int_max -> 1 <= img_h <= int_max ->
  well_formed_tensor (mat_data out) (mat_h out) (mat_w out) (mat_h out - 4) ->
  exists objects,
    detect fconf_thres fnms_thres img_w img_h out = Some (0, objects) /\
    descending objects.
Proof.
  intros HW HH Hwf.
  destruct (detect_spec fconf_thres fnms_thres img_w img_h out HW HH Hwf)
    as (lb & emit & proposals & sorted & kept & _ & _ & _ & _ & _ & Hdesc & Hsub & Hdet).
  eexists. split; [exact Hdet|].
  apply descending_map_back. eapply descending_sublist; eassumption.
Qed.

Lemma detect_objects_descending_witness :
  exists objects,
    detect thr_025 thr_045 640 425 (mkMat 1 5 sample_tensor) = Some (0, objects) /\
    descending objects.
Proof.
  apply (detect_objects_descending thr_025 thr_045 640 425 (mkMat 1 5 sample_tensor)).
  - unfold int_max. lia.
  - unfold int_max. lia.
  - apply sample_tensor_well_formed.
Defined.

(** X15. Every object returned by [detect] carries a probability above the
    confidence threshold and a label that is a class index of the network
    output, [0 <= label < out.h - 4]; there are at most [out.w] objects,
    one per anchor. *)
Theorem detect_objects_scores_and_labels (fconf_thres fnms_thres : float32)
    (img_w img_h : Z) (out : Mat) :
  1 <= img_w <= int_max -> 1 <= img_h <= int_max ->
  well_formed_tensor (mat_data out) (mat_h out) (mat_w out) (mat_h out - 4) ->
  exists objects,
    detect fconf_thres fnms_thres img_w img_h out = Some (0, objects) /\
    (length objects <= Z.to_nat (mat_w out))%nat /\
    Forall (fun o => gt (prob o) fconf_thres = true /\ 0 <= label o < mat_h out - 4)
      objects.
Proof.
  intros HW HH Hwf.
  destruct (detect_spec fconf_thres fnms_thres img_w img_h out HW HH Hwf)
    as (lb & emit & proposals & sorted & kept & _ & -> & Hemit & _ & Hperm & _ & Hsub & Hdet).
  eexists. split; [exact Hdet|]. split.
  - rewrite length_fmap. apply sublist_length in Hsub. rewrite Hperm in Hsub.
    pose proof (omap_length emit (seq 0 (Z.to_nat (mat_w out)))) as Hlen.
    rewrite length_seq in Hlen. lia.
  - apply Forall_fmap, Forall_forall. intros p Hp. cbn [compose map_back prob label].
    assert (Hin : p ∈ omap emit (seq 0 (Z.to_nat (mat_w out)))).
    { rewrite <- Hperm. eapply elem_of_sublist; eassumption. }
    apply list_elem_of_omap in Hin as (i & Hi & Hpi).
    apply elem_of_seq in Hi.
    destruct (Hemit i ltac:(lia)) as (k & m & (Hk & _) & Hiff & Hobj).
    destruct (Hobj p Hpi) as (-> & -> & _).
    split; [|lia]. apply Hiff. rewrite Hpi. discriminate.
Qed.

Lemma detect_objects_scores_and_labels_witness :
  exists objects,
    detect thr_025 thr_045 640 425 (mkMat 1 5 sample_tensor) = Some (0, objects) /\
    (length objects <= Z.to_nat 1)%nat /\
    Forall (fun o => gt (prob o) thr_025 = true /\ 0 <= label o < 5 - 4) objects.
Proof.
  apply (detect_objects_scores_and_labels thr_025 thr_045 640 425 (mkMat 1 5 sample_tensor)).
  - unfold int_max. lia.
  - unfold int_max. lia.
  - apply sample_tensor_well_formed.
Defined.

(** X13. When the network output holds no anchor ([out.w = 0], as after a
    failed extraction), [detect] returns [0] with an empty list of
    objects, whatever the number of rows and the thresholds. *)
Theorem detect_no_anchor (fconf_thres fnms_thres : float32)
    (img_w img_h : Z) (out : Mat) :
  1 <= img_w <= int_max -> 1 <= img_h <= int_max ->
  mat_w out = 0 -> 0 <= mat_h out ->
  detect fconf_thres fnms_thres img_w img_h out = Some (0, []).
Proof.
  intros HW HH Hw Hh.
  destruct (letterbox_spec img_w img_h HW HH) as (w0 & h0 & _ & _ & _ & _ & _ & Hlb).
  unfold detect. rewrite Hlb. cbn [mbind option_bind].
  unfold parse_yolov11_detections. rewrite Hw.
  destruct (Z.ltb_spec (mat_h out) 0); [lia|].
  change (0 <? 0) with false. rewrite andb_false_r. cbn [orb].
  change (Z.to_nat 0) with 0%nat. unfold transpose.
  rewrite Nat.mul_0_l. reflexivity.
Qed.

Lemma detect_no_anchor_witness :
  detect thr_025 thr_045 640 425 (mkMat 0 0 []) = Some (0, []).
Proof.
  apply (detect_no_anchor thr_025 thr_045 640 425 (mkMat 0 0 []));
    try (unfold int_max; lia); reflexivity.
Defined.

(** ** What the NMS filter drops *)

Section NMSDrops.

Context (objs : list Object) (thr : float32) (agnostic : bool).

Let areas := map (fun o => CV.area (rect o)) objs.

Lemma nms_inner_drop i a js keep log log' :
  objs !! i = Some a ->
  nms_inner objs areas thr agnostic i a js keep log = Some (false, log') ->
  keep = false \/
  exists j b, j ∈ js /\ objs !! j = Some b /\
    (agnostic = true \/ label a = label b) /\ gt (IoU a b) thr = true.
Proof.
  intros Hi. revert keep log.
  induction js as [|j js IH]; intros keep log; cbn [nms_inner].
  - intros [= -> _]. tauto.
  - destruct (objs !! j) as [b|] eqn:Hb; cbn [mbind option_bind]; [|discriminate].
    destruct (negb agnostic && negb (label a =? label b)) eqn:Hskip.
    + intros H. destruct (IH _ _ H) as [Hk|(j' & b' & Hin & Hrest)]; [tauto|].
      right. exists j', b'. split; [apply elem_of_cons; tauto|exact Hrest].
    + assert (Hai : areas !! i = Some (CV.area (rect a)))
        by (unfold areas; rewrite list_lookup_fmap, Hi; reflexivity).
      assert (Haj : areas !! j = Some (CV.area (rect b)))
        by (unfold areas; rewrite list_lookup_fmap, Hb; reflexivity).
      rewrite Hai, Haj. cbn [mbind option_bind]. fold (IoU a b).
      intros H. destruct (IH _ _ H) as [Hk|(j' & b' & Hin & Hrest)].
      * destruct (gt (IoU a b) thr) eqn:Hgt; [|tauto].
        right. exists j, b. split; [apply elem_of_cons; tauto|].
        split; [exact Hb|]. split; [|exact Hgt].
        apply andb_false_iff in Hskip as [Hag|Hne].
        -- left. apply negb_false_iff, Hag.
        -- right. apply negb_false_iff, Z.eqb_eq in Hne. exact Hne.
      * right. exists j', b'. split; [apply elem_of_cons; tauto|exact Hrest].
Qed.

Lemma nms_suppressed_snoc picked i i' :
  nms_suppressed objs thr agnostic picked i' ->
  nms_suppressed objs thr agnostic (picked ++ [i]) i'.
Proof.
  intros (j & a & b & Hin & Hrest). exists j, a, b.
  split; [apply elem_of_app; tauto|exact Hrest].
Qed.

Lemma nms_outer_complete todo i picked log picked' log' :
  nms_outer objs areas thr agnostic todo i picked log = Some (picked', log') ->
  Forall (fun j => (j < i)%nat) picked ->
  nms_complete objs thr agnostic i picked ->
  nms_complete objs thr agnostic (i + todo) picked'.
Proof.
  revert i picked log.
  induction todo as [|todo IH]; intros i picked log; cbn [nms_outer].
  - intros [= <- _] _ Hc. rewrite Nat.add_0_r. exact Hc.
  - destruct (objs !! i) as [a|] eqn:Hi; cbn [mbind option_bind]; [|discriminate].
    destruct (nms_inner objs areas thr agnostic i a picked true log)
      as [[keep log1]|] eqn:Hin; cbn [mbind option_bind]; [|discriminate].
    intros Hout Hlt Hc.
    replace (i + S todo)%nat with (S i + todo)%nat by lia.
    apply (IH _ _ _ Hout).
    + destruct keep.
      * apply Forall_app. split.
        -- eapply Forall_impl; [exact Hlt|]. intros j Hj. cbn in Hj. lia.
        -- repeat constructor.
      * eapply Forall_impl; [exact Hlt|]. intros j Hj. cbn in Hj. lia.
    + intros i' Hi'. destruct (decide (i' = i)) as [->|Hne].
      * destruct keep.
        -- left. apply elem_of_app. right. apply list_elem_of_singleton. reflexivity.
        -- right. destruct (nms_inner_drop _ _ _ _ _ _ Hi Hin)
             as [Hk|(j & b & Hj & Hb & Hlab & Hgt)]; [discriminate|].
           exists j, a, b. split; [exact Hj|]. split; [|tauto].
           apply (proj1 (Forall_forall _ _) Hlt j Hj).
      * destruct (Hc i' ltac:(lia)) as [Hk|Hs].
        -- left. destruct keep; [apply elem_of_app|]; tauto.
        -- right. destruct keep; [apply nms_suppressed_snoc|]; exact Hs.
Qed.

(** The kept indices only grow along the outer loop. *)
Lemma nms_outer_prefix todo i picked log picked' log' :
  nms_outer objs areas thr agnostic todo i picked log = Some (picked', log') ->
  exists rest, picked' = picked ++ rest.
Proof.
  revert i picked log.
  induction todo as [|todo IH]; intros i picked log; cbn [nms_outer].
  - intros [= <- _]. exists []. rewrite app_nil_r. reflexivity.
  - destruct (objs !! i) as [a|]; cbn [mbind option_bind]; [|discriminate].
    destruct (nms_inner objs areas thr agnostic i a picked true log)
      as [[keep log1]|]; cbn [mbind option_bind]; [|discriminate].
    intros Hout. destruct (IH _ _ _ Hout) as [rest ->].
    destruct keep; [|eauto]. exists (i :: rest). rewrite <- app_assoc. reflexivity.
Qed.

End NMSDrops.

(** The first candidate is picked in the first iteration. *)
Lemma nms_run_head objs thr agnostic picked log :
  objs <> [] -> nms_run objs thr agnostic = Some (picked, log) ->
  exists rest, picked = 0%nat :: rest.
Proof.
  intros Hne Hrun. destruct objs as [|o objs]; [contradiction|].
  unfold nms_run in Hrun. cbn [length nms_outer lookup list_lookup] in Hrun.
  cbn [mbind option_bind nms_inner] in Hrun.
  apply nms_outer_prefix in Hrun as [rest ->]. exists rest. reflexivity.
Qed.

(** With [agnostic = false], kept candidates of other classes are skipped. *)
Lemma nms_inner_other_classes objs areas thr i a js keep log :
  Forall (fun j => exists b, objs !! j = Some b /\ label a <> label b) js ->
  nms_inner objs areas thr false i a js keep log = Some (keep, log).
Proof.
  induction 1 as [|j js (b & Hb & Hne) _ IH]; cbn [nms_inner]; [reflexivity|].
  rewrite Hb. cbn [mbind option_bind negb andb].
  apply Z.eqb_neq in Hne. rewrite Hne. cbn [negb]. exact IH.
Qed.

Lemma nms_outer_distinct_labels objs areas thr todo i log :
  NoDup (map label objs) -> (i + todo = length objs)%nat ->
  nms_outer objs areas thr false todo i (seq 0 i) log = Some (seq 0 (i + todo), log).
Proof.
  intros Hnd. revert i log.
  induction todo as [|todo IH]; intros i log Hlen; cbn [nms_outer].
  - rewrite Nat.add_0_r. reflexivity.
  - destruct (lookup_lt_is_Some_2 objs i ltac:(lia)) as [a Ha].
    rewrite Ha. cbn [mbind option_bind].
    rewrite nms_inner_other_classes.
    + cbn [mbind option_bind]. rewrite <- seq_S.
      replace (i + S todo)%nat with (S i + todo)%nat by lia.
      apply IH. lia.
    + apply Forall_forall. intros j Hj. apply elem_of_seq in Hj.
      destruct (lookup_lt_is_Some_2 objs j ltac:(lia)) as [b Hb].
      exists b. split; [exact Hb|]. intros Heq.
      assert (Hij : i = j); [|lia].
      apply (NoDup_lookup (map label objs) i j (label a)); [exact Hnd| |].
      * rewrite list_lookup_fmap, Ha. reflexivity.
      * rewrite list_lookup_fmap, Hb, Heq. reflexivity.
Qed.

(** X5. A candidate is dropped by the NMS filter only when a kept candidate
    before it, of the same label unless [agnostic], has an IoU with it
    above the threshold: every index that is not picked is suppressed. *)
Theorem nms_dropped_is_suppressed (objs : list Object) (thr : float32) (agnostic : bool) :
  exists picked,
    nms_sorted_bboxes objs thr agnostic = Some picked /\
    forall i, (i < length objs)%nat -> i ∉ picked ->
      nms_suppressed objs thr agnostic picked i.
Proof.
  destruct (nms_run_inv objs thr agnostic) as (picked & log & Hrun & _).
  exists picked. split; [unfold nms_sorted_bboxes; rewrite Hrun; reflexivity|].
  intros i Hi Hnot.
  assert (Hc : nms_complete objs thr agnostic (0 + length objs) picked).
  { unfold nms_run in Hrun. apply (nms_outer_complete _ _ _ _ _ _ _ _ _ Hrun).
    - constructor.
    - intros i' Hi'. lia. }
  destruct (Hc i Hi) as [Hin|Hs]; [contradiction|exact Hs].
Qed.

(** X4. The first candidate of a non-empty list is always kept: the list
    of picked indices starts with [0]. *)
Theorem nms_first_is_kept (objs : list Object) (thr : float32) (agnostic : bool) :
  objs <> [] ->
  exists rest, nms_sorted_bboxes objs thr agnostic = Some (0%nat :: rest).
Proof.
  intros Hne.
  destruct (nms_run_inv objs thr agnostic) as (picked & log & Hrun & _).
  destruct (nms_run_head objs thr agnostic picked log Hne Hrun) as [rest ->].
  exists rest. unfold nms_sorted_bboxes. rewrite Hrun. reflexivity.
Qed.

Lemma nms_first_is_kept_witness :
  exists rest, nms_sorted_bboxes flat_objects thr_045 false = Some (0%nat :: rest).
Proof. apply (nms_first_is_kept flat_objects thr_045 false). discriminate. Defined.

(** X6. With [agnostic = false], candidates of pairwise different labels
    never suppress each other: every index is picked, whatever the boxes
    and the threshold. *)
Theorem nms_distinct_labels_all_kept (objs : list Object) (thr : float32) :
  NoDup (map label objs) ->
  nms_sorted_bboxes objs thr false = Some (seq 0 (length objs)) /\
  select objs (seq 0 (length objs)) = Some objs.
Proof.
  intros Hnd. split.
  - unfold nms_sorted_bboxes, nms_run.
    rewrite (nms_outer_distinct_labels objs _ thr (length objs) 0 [] Hnd) by lia.
    reflexivity.
  - unfold select. apply mapM_Some. apply Forall2_same_length_lookup. split.
    + rewrite length_seq. reflexivity.
    + intros i j o Hj Ho. apply lookup_seq in Hj as [-> _]. exact Ho.
Qed.

Lemma nms_distinct_labels_all_kept_witness :
  nms_sorted_bboxes mixed_objects thr_045 false = Some (seq 0 (length mixed_objects)) /\
  select mixed_objects (seq 0 (length mixed_objects)) = Some mixed_objects.
Proof.
  apply (nms_distinct_labels_all_kept mixed_objects thr_045).
  apply (bool_decide_unpack _). vm_compute. reflexivity.
Defined.

(** ** The sorter on a sub-range *)

(** X3. [qsort_descent_inplace(objects, left, right)] on a valid range of
    objects whose probabilities are numbers returns; it rearranges the
    objects at the indices [left..right] into descending order and leaves
    every other index as it was. *)
Theorem qsort_range_frame (fuel : nat) (objects : list Object) (left right : Z) :
  no_nan objects -> 0 <= left -> left <= right -> right < Z.of_nat (length objects) ->
  (Z.to_nat (right - left) < fuel)%nat ->
  exists objects',
    qsort_range fuel objects left right = Some objects' /\
    length objects' = length objects /\
    objects' ≡ₚ objects /\
    (forall k, k < left \/ right < k -> at_index objects' k = at_index objects k) /\
    sorted_range objects' left right.
Proof.
  intros Hnn Hl Hlr Hr Hfuel.
  destruct (qsort_range_spec fuel objects left right Hnn Hl Hlr Hr Hfuel)
    as (objects' & Hq & Hperm & Hsorted).
  exists objects'. split; [exact Hq|].
  split; [eapply range_perm_length, Hperm|].
  split; [eapply range_perm_perm, Hperm|].
  split; [|exact Hsorted].
  intros k Hk. eapply range_perm_frame; eassumption.
Qed.

Lemma qsort_range_frame_witness :
  exists objects',
    qsort_range 2 sample_objects 1 2 = Some objects' /\
    length objects' = length sample_objects /\
    objects' ≡ₚ sample_objects /\
    (forall k, k < 1 \/ 2 < k -> at_index objects' k = at_index sample_objects k) /\
    sorted_range objects' 1 2.
Proof.
  apply (qsort_range_frame 2 sample_objects 1 2).
  - repeat constructor.
  - lia.
  - lia.
  - simpl. lia.
  - simpl. lia.
Defined.

(** ** [clampf] on any input *)

Lemma lt_irrefl a : lt a a = false.
Proof.
  unfold lt, SFltb. destruct (is_nan a) eqn:Ha.
  - rewrite compare_nan_l by exact Ha. reflexivity.
  - rewrite compare_refl by exact Ha. reflexivity.
Qed.

(** X9. [clampf] is idempotent; with bounds that are numbers its result
    is a number even when [d] is NaN, and a NaN [d] is replaced by the
    upper bound when [min < max]. *)
Theorem clampf_idempotent_nan_free (d lo hi : float32) :
  clampf (clampf d lo hi) lo hi = clampf d lo hi /\
  (is_nan lo = false -> is_nan hi = false -> is_nan (clampf d lo hi) = false) /\
  (is_nan d = true -> lt lo hi = true -> clampf d lo hi = hi).
Proof.
  unfold clampf, std_max, std_min. split; [|split].
  - destruct (lt d hi) eqn:H1.
    + destruct (lt lo d) eqn:H2.
      * rewrite H1, H2. reflexivity.
      * destruct (lt lo hi) eqn:H3; rewrite ?lt_irrefl, ?H3; reflexivity.
    + destruct (lt lo hi) eqn:H3; rewrite ?lt_irrefl, ?H3; reflexivity.
  - intros Hlo Hhi. destruct (lt d hi) eqn:H1.
    + apply lt_not_nan in H1 as [Hd _]. destruct (lt lo d); assumption.
    + destruct (lt lo hi); assumption.
  - intros Hd Hlt. destruct d; try discriminate.
    rewrite lt_nan_l, Hlt. reflexivity.
Qed.

(** ** [intersection_area] *)

Lemma has_sign_false_not_lt a : has_sign false a -> lt a zero = false.
Proof. destruct a as [s|s| |s m e]; simpl; try contradiction; intros ->; reflexivity. Qed.

(** The product of two numbers that are not [<= 0] is not negative. *)
Lemma mul_not_negative w h :
  le w zero = false -> le h zero = false -> lt (mul w h) zero = false.
Proof.
  intros Hw Hh.
  destruct w as [sw|sw| |sw mw ew]; try discriminate; try reflexivity;
    destruct h as [sh|sh| |sh mh eh]; try discriminate; try reflexivity;
    destruct sw; try discriminate; destruct sh; try discriminate; try reflexivity.
  rewrite mul_finite. apply has_sign_false_not_lt, Rq_sign; lia.
Qed.

(** X1. The intersection area of two boxes is never negative, and it is
    [+0] as soon as one of the boxes is empty (a width or a height that is
    [<= 0]). *)
Theorem intersection_area_not_negative (a b : Object) :
  lt (intersection_area a b) zero = false /\
  (CV.empty (rect a) = true \/ CV.empty (rect b) = true -> intersection_area a b = zero).
Proof.
  unfold intersection_area, CV.inter. split.
  - destruct (CV.empty (rect a) || CV.empty (rect b)); [reflexivity|].
    cbv zeta.
    match goal with |- context [if ?c then CV.Rect0 else _] => destruct c end;
      [reflexivity|].
    match goal with |- context [if CV.empty ?r then CV.Rect0 else _] =>
      destruct (CV.empty r) eqn:He end; [reflexivity|].
    unfold CV.empty in He. cbn [rwidth rheight] in He.
    apply orb_false_iff in He as [Hw Hh].
    unfold CV.area. cbn [rwidth rheight]. apply mul_not_negative; assumption.
  - intros He. apply orb_true_iff in He. rewrite He. reflexivity.
Qed.

(** ** The resized sizes never exceed the target size *)

(** A binary32 number with a 24-digit mantissa. *)
Lemma bounded_24 mu eu :
  2 ^ 23 <= mu < 2 ^ 24 -> -149 <= eu <= 104 ->
  Z.pos (Z.to_pos mu) = mu /\ bounded prec emax (Z.to_pos mu) eu = true.
Proof.
  intros Hmu He. assert (Hid : Z.pos (Z.to_pos mu) = mu) by (apply Z2Pos.id; lia).
  split; [exact Hid|]. apply bounded_spec. rewrite Hid.
  rewrite (digits_unique mu 24) by lia. lia.
Qed.

(** A binary32 number [u] that is not below [480 / M], with [M * u] at
    most [480 + 2 ^ -14], for [M = m * 2 ^ e]. *)
Lemma scale_upper_neighbour (m : positive) e :
  2 ^ 23 <= Z.pos m < 2 ^ 24 -> -23 <= e <= 8 ->
  exists mu eu,
    bounded prec emax mu eu = true /\ -39 - e <= eu <= -38 - e /\
    15728640 * 2 ^ 24 <= Z.pos mu * 2 ^ (eu - (-39 - e)) * Z.pos m /\
    Z.pos m * Z.pos mu <= 15728642 * 2 ^ (-15 - e - eu).
Proof.
  intros Hm He. change (2 ^ 23) with 8388608 in Hm. change (2 ^ 24) with 16777216 in *.
  destruct (Z.le_gt_cases (Z.pos m) 15728640) as [Hc|Hc].
  - set (q := 131941395333120 / Z.pos m).
    assert (Hq : Z.pos m * q <= 131941395333120 < Z.pos m * (q + 1)) by (unfold q; zdm).
    assert (Hr : 8388608 <= q + 1 < 16777216) by nia.
    destruct (bounded_24 (q + 1) (-38 - e)) as [Hid Hb];
      [change (2 ^ 23) with 8388608; change (2 ^ 24) with 16777216; lia|lia|].
    exists (Z.to_pos (q + 1)), (-38 - e). rewrite Hid.
    split; [exact Hb|]. split; [lia|].
    replace (-38 - e - (-39 - e)) with 1 by lia.
    replace (-15 - e - (-38 - e)) with 23 by lia.
    change (2 ^ 1) with 2. change (2 ^ 23) with 8388608. nia.
  - set (q := 263882790666240 / Z.pos m).
    assert (Hq : Z.pos m * q <= 263882790666240 < Z.pos m * (q + 1)) by (unfold q; zdm).
    assert (Hr : 8388608 <= q + 1 < 16777216) by nia.
    destruct (bounded_24 (q + 1) (-39 - e)) as [Hid Hb];
      [change (2 ^ 23) with 8388608; change (2 ^ 24) with 16777216; lia|lia|].
    exists (Z.to_pos (q + 1)), (-39 - e). rewrite Hid.
    split; [exact Hb|]. split; [lia|].
    replace (-39 - e - (-39 - e)) with 0 by lia.
    replace (-15 - e - (-39 - e)) with 24 by lia.
    change (2 ^ 0) with 1. change (2 ^ 24) with 16777216. nia.
Qed.

(** [M * (480 / M)] in binary32 is at most [480 + 2 ^ -14]. *)
Lemma scale_product_bound m e :
  bounded prec emax m e = true -> 2 ^ 23 <= Z.pos m < 2 ^ 24 -> -23 <= e <= 8 ->
  le (mul (S754_finite false m e) (div c480 (S754_finite false m e)))
     (S754_finite false 15728642 (-15)) = true.
Proof.
  intros Bm Hm He.
  destruct (scale_bounds m e Bm Hm He) as (ms & es & Es & Bs & _).
  assert (Hdm : Zdigits2 (Z.pos m) = 24) by (apply digits_unique; lia).
  destruct (div_finite false 15728640 (-15) false m e) as [Hdiv Hg].
  assert (Hexp : div_exp (Z.pos 15728640) (-15) (Z.pos m) e = -39 - e).
  { unfold div_exp. rewrite Hdm. change (Zdigits2 (Z.pos 15728640)) with 24. lia. }
  rewrite Hexp in Hdiv, Hg. replace (-15 - e - (-39 - e)) with 24 in Hdiv, Hg by lia.
  cbn [xorb] in Hdiv. fold c480 in Hdiv.
  destruct (scale_upper_neighbour m e Hm He) as (mu & eu & Bu & Heu & Hup & Hprod).
  destruct (Rq_exact false mu eu Bu) as [Xu Gu].
  assert (Hle : le (S754_finite false ms es) (S754_finite false mu eu) = true).
  { rewrite <- Es, Hdiv, <- Xu.
    apply (Rq_le _ _ _ _ _ _ (-39 - e)); try assumption; try lia.
    replace (-39 - e - (-39 - e)) with 0 by lia. change (2 ^ 0) with 1. lia. }
  rewrite Es, mul_finite. cbn [xorb].
  assert (Bc : bounded prec emax 15728642 (-15) = true) by reflexivity.
  destruct (Rq_exact false _ _ Bc) as [<- Gc].
  set (G := Z.min es eu).
  apply (proj1 (le_pos_finite ms es mu eu G Bs Bu ltac:(unfold G; lia) ltac:(unfold G; lia)))
    in Hle.
  apply (Rq_le _ _ _ _ _ _ (e + G)); try lia; try assumption.
  - apply mul_genuine; assumption.
  - rewrite !Z.mul_1_r.
    replace (e + es - (e + G)) with (es - G) by lia.
    replace (-15 - (e + G)) with ((-15 - e - eu) + (eu - G)) by lia.
    rewrite Z.pow_add_r by (unfold G; lia).
    assert (P1 : 0 < 2 ^ (eu - G)) by (apply Z.pow_pos_nonneg; unfold G; lia).
    assert (P2 : 0 < 2 ^ (es - G)) by (apply Z.pow_pos_nonneg; unfold G; lia).
    assert (P3 : 0 < 2 ^ (-15 - e - eu)) by (apply Z.pow_pos_nonneg; lia).
    set (a := Z.pos ms * 2 ^ (es - G)) in *. set (b := Z.pos mu * 2 ^ (eu - G)) in *.
    replace (Z.pos m * Z.pos ms * 2 ^ (es - G)) with (Z.pos m * a) by (unfold a; ring).
    assert (Z.pos m * a <= Z.pos m * b) by (apply Z.mul_le_mono_nonneg_l; lia).
    assert (Z.pos m * b = Z.pos m * Z.pos mu * 2 ^ (eu - G)) by (unfold b; ring).
    nia.
Qed.

(** [n * scale], converted to [int], is at most the target size. *)
Lemma scaled_le_target n M w :
  1 <= n <= M -> M <= int_max ->
  scaled n (div (of_int target_size) (of_int M)) = Some w -> w <= 480.
Proof.
  intros Hn HM Hw.
  destruct (scaled_total M M ltac:(lia) HM) as (wM & HwM & _).
  assert (Hmono : w <= wM) by (apply (scaled_mono n M M w wM); try assumption; lia).
  enough (wM <= 480) by lia.
  unfold scaled in HwM. rewrite of_int_480 in HwM.
  destruct (of_int_normal M ltac:(lia)) as (m & e & EM & Bm & Hm & He).
  rewrite EM in HwM.
  pose proof (scale_product_bound m e Bm Hm He) as Hb.
  destruct (scale_bounds m e Bm Hm He) as (ms & es & Es & Bs & _).
  apply (trunc_mono (mul (S754_finite false m e) (div c480 (S754_finite false m e)))
           (S754_finite false 15728642 (-15)) wM 480); try assumption; try reflexivity.
  - apply mul_valid; [exact Bm|]. rewrite Es. exact Bs.
  - rewrite Es, mul_finite. apply has_sign_false_le, Rq_sign; lia.
Qed.

(** X11. For an image of [1 <= W, H <= INT_MAX] the resized width and
    height lie in [[0, 480]] and one of them is exactly [480]; the
    paddings [wpad] and [hpad] are therefore never negative, neither are
    the four borders handed to [copy_make_border], and the padded network
    input is always [480 x 480]. *)
Theorem letterbox_sizes_and_paddings (img_w img_h : Z) :
  1 <= img_w <= int_max -> 1 <= img_h <= int_max ->
  exists lb,
    letterbox img_w img_h = Some lb /\
    0 <= lb_w lb <= target_size /\ 0 <= lb_h lb <= target_size /\
    (lb_w lb = target_size \/ lb_h lb = target_size) /\
    lb_wpad lb = target_size - lb_w lb /\ lb_hpad lb = target_size - lb_h lb /\
    (0 <= Z.quot (lb_wpad lb) 2 <= lb_wpad lb) /\
    (0 <= Z.quot (lb_hpad lb) 2 <= lb_hpad lb) /\
    in_pad_w lb = target_size /\ in_pad_h lb = target_size.
Proof.
  intros HW HH.
  destruct (letterbox_spec img_w img_h HW HH) as (w0 & h0 & Hw & Hh & Bw & Bh & _ & Hlb).
  rewrite scale_of_max in Hw, Hh.
  pose proof (scaled_le_target img_w (Z.max img_w img_h) w0 ltac:(lia) ltac:(lia) Hw) as Uw.
  pose proof (scaled_le_target img_h (Z.max img_w img_h) h0 ltac:(lia) ltac:(lia) Hh) as Uh.
  destruct (letterbox_in_pad img_w img_h _ Hlb) as [Pw Ph].
  eexists. split; [exact Hlb|].
  rewrite Pw, Ph. cbn [lb_w lb_h lb_wpad lb_hpad]. unfold target_size.
  destruct (Z.gtb_spec w0 h0);
    repeat split; try lia; try tauto;
    try (apply Z.quot_pos; lia);
    try (apply Z.quot_le_upper_bound; lia).
Qed.

Lemma letterbox_sizes_and_paddings_witness :
  exists lb,
    letterbox 533 532 = Some lb /\
    0 <= lb_w lb <= target_size /\ 0 <= lb_h lb <= target_size /\
    (lb_w lb = target_size \/ lb_h lb = target_size) /\
    lb_wpad lb = target_size - lb_w lb /\ lb_hpad lb = target_size - lb_h lb /\
    (0 <= Z.quot (lb_wpad lb) 2 <= lb_wpad lb) /\
    (0 <= Z.quot (lb_hpad lb) 2 <= lb_hpad lb) /\
    in_pad_w lb = target_size /\ in_pad_h lb = target_size.
Proof.
  apply (letterbox_sizes_and_paddings 533 532); unfold int_max; lia.
Defined.

(** X12. The scale factor of the letterbox is a positive finite number, at
    most [480]: the divisions by [scale] in the coordinate mapper never
    divide by zero, by a negative number or by NaN. *)
Theorem letterbox_scale_positive (img_w img_h : Z) :
  1 <= img_w <= int_max -> 1 <= img_h <= int_max ->
  exists lb ms es,
    letterbox img_w img_h = Some lb /\
    lb_scale lb = S754_finite false ms es /\
    valid (lb_scale lb) = true /\
    le (lb_scale lb) (of_int target_size) = true.
Proof.
  intros HW HH.
  destruct (letterbox_spec img_w img_h HW HH) as (w0 & h0 & _ & _ & _ & _ & _ & Hlb).
  destruct (scale_normal (Z.max img_w img_h) ltac:(lia)) as (ms & es & Es & Bs).
  eexists _, ms, es. split; [exact Hlb|]. cbn [lb_scale]. rewrite scale_of_max.
  split; [exact Es|]. split; [rewrite Es; exact Bs|].
  eapply le_trans; [apply (scale_le 1 (Z.max img_w img_h)); lia|].
  vm_compute. reflexivity.
Qed.

Lemma letterbox_scale_positive_witness :
  exists lb ms es,
    letterbox 640 425 = Some lb /\
    lb_scale lb = S754_finite false ms es /\
    valid (lb_scale lb) = true /\
    le (lb_scale lb) (of_int target_size) = true.
Proof. apply (letterbox_scale_positive 640 425); unfold int_max; lia. Defined.

(** ** The decoder needs a class row *)

(** A row of the loop that has no result stops the loop. *)
Lemma parse_rows_undefined output conf_thres C L W H todo i acc j :
  (i <= j < i + todo)%nat -> decode_row output conf_thres C L W H j = None ->
  parse_rows output conf_thres C L W H todo i acc = None.
Proof.
  revert i acc. induction todo as [|todo IH]; intros i acc Hj Hrow; [lia|].
  cbn [parse_rows]. destruct (decide (i = j)) as [->|Hne].
  - rewrite Hrow. reflexivity.
  - destruct (decode_row output conf_thres C L W H i); [|reflexivity].
    cbn [mbind option_bind]. apply IH; [lia|exact Hrow].
Qed.

(** X10. With at least one anchor and no class row ([num_channels = 4 +
    num_labels], [num_labels <= 0]) the decoder has no defined result:
    for [num_labels = 0] the score of the last anchor is read one element
    past the end of the transposed matrix. *)
Theorem decoder_needs_a_class (inputs : list float32) (conf_thres : float32)
    (num_channels num_anchors num_labels img_w img_h : Z) :
  1 <= num_anchors -> num_channels = 4 + num_labels -> num_labels <= 0 ->
  parse_yolov11_detections inputs conf_thres num_channels num_anchors num_labels
    img_w img_h = None.
Proof.
  intros HA HC HL. unfold parse_yolov11_detections.
  destruct (Z.ltb_spec num_labels 0) as [Hneg|Hzero].
  - destruct (Z.ltb_spec 0 num_anchors); [|lia]. cbn [andb]. rewrite !orb_true_r.
    reflexivity.
  - assert (num_labels = 0) by lia. subst num_labels num_channels.
    change (4 + 0) with 4. cbn [orb andb].
    destruct (Z.ltb_spec num_anchors 0); [lia|]. cbn [orb].
    destruct (transpose inputs (Z.to_nat 4) (Z.to_nat num_anchors)) as [output|] eqn:Htr;
      [|reflexivity].
    cbn [mbind option_bind].
    apply (parse_rows_undefined _ _ _ _ _ _ _ _ _ (Z.to_nat num_anchors - 1)); [lia|].
    apply transpose_length in Htr.
    unfold decode_row. change (Z.to_nat 0) with 0%nat. cbn [max_element mbind option_bind].
    assert (Hs : output !! ((Z.to_nat num_anchors - 1) * Z.to_nat 4 + 4)%nat = None)
      by (apply lookup_ge_None_2; rewrite Htr; lia).
    rewrite Hs. reflexivity.
Qed.

Lemma decoder_needs_a_class_witness :
  parse_yolov11_detections [of_int 100; of_int 100; of_int 60; of_int 10] thr_025
    4 1 0 480 480 = None.
Proof.
  apply (decoder_needs_a_class [of_int 100; of_int 100; of_int 60; of_int 10] thr_025
           4 1 0 480 480); lia.
Defined.

(** ** Lists on which the NMS filter keeps everything *)

Lemma nms_inner_no_suppress objs thr agnostic i a js keep log :
  objs !! i = Some a ->
  Forall (fun j => exists b, objs !! j = Some b /\
            (agnostic = true \/ label a = label b -> gt (IoU a b) thr = false)) js ->
  exists log',
    nms_inner objs (map (fun o => CV.area (rect o)) objs) thr agnostic i a js keep log
    = Some (keep, log').
Proof.
  intros Hi Hjs. revert log.
  induction Hjs as [|j js (b & Hb & Hgt) _ IH]; intros log; cbn [nms_inner]; [eauto|].
  rewrite Hb. cbn [mbind option_bind].
  destruct (negb agnostic && negb (label a =? label b)) eqn:Hskip; [apply IH|].
  rewrite !list_lookup_fmap, Hi, Hb. cbn [fmap option_fmap option_map mbind option_bind].
  fold (IoU a b). rewrite Hgt; [apply IH|].
  apply andb_false_iff in Hskip as [Hag|Hne].
  - left. apply negb_false_iff, Hag.
  - right. apply negb_false_iff, Z.eqb_eq in Hne. exact Hne.
Qed.

Lemma nms_outer_all_kept objs thr agnostic todo i log :
  suppression_free objs thr agnostic -> (i + todo = length objs)%nat ->
  exists log',
    nms_outer objs (map (fun o => CV.area (rect o)) objs) thr agnostic todo i (seq 0 i) log
    = Some (seq 0 (i + todo), log').
Proof.
  intros Hfree. revert i log.
  induction todo as [|todo IH]; intros i log Hlen; cbn [nms_outer].
  - rewrite Nat.add_0_r. eauto.
  - destruct (lookup_lt_is_Some_2 objs i ltac:(lia)) as [a Ha].
    rewrite Ha. cbn [mbind option_bind].
    destruct (nms_inner_no_suppress objs thr agnostic i a (seq 0 i) true log Ha)
      as [log1 ->].
    + apply Forall_forall. intros j Hj. apply elem_of_seq in Hj.
      destruct (lookup_lt_is_Some_2 objs j ltac:(lia)) as [b Hb].
      exists b. split; [exact Hb|]. apply (Hfree j i a b); [lia|exact Hb|exact Ha].
    + cbn [mbind option_bind]. rewrite <- seq_S.
      replace (i + S todo)%nat with (S i + todo)%nat by lia.
      apply IH. lia.
Qed.

(** The objects selected by the kept indices inherit the invariant. *)
Lemma kept_suppression_free objs thr agnostic picked kept :
  no_suppression objs thr agnostic picked -> select objs picked = Some kept ->
  suppression_free kept thr agnostic.
Proof.
  intros Hns Hsel p q a b Hpq Hb Ha Hlab.
  unfold select in Hsel. apply mapM_Some in Hsel.
  destruct (Forall2_lookup_r _ _ _ _ _ Hsel Hb) as (jp & Hjp & Hob).
  destruct (Forall2_lookup_r _ _ _ _ _ Hsel Ha) as (jq & Hjq & Hoa).
  apply (Hns p q jp jq a b); assumption.
Qed.

(** X8. The NMS filter is idempotent: run again on the objects it kept,
    with the same threshold and mode, it keeps every one of them. *)
Theorem nms_idempotent (objs : list Object) (thr : float32) (agnostic : bool) :
  exists picked kept,
    nms_sorted_bboxes objs thr agnostic = Some picked /\
    select objs picked = Some kept /\
    nms_sorted_bboxes kept thr agnostic = Some (seq 0 (length kept)).
Proof.
  destruct (nms_run_inv objs thr agnostic) as (picked & log & Hrun & Hinv).
  destruct Hinv as (_ & _ & Hns & kept & Hsel & _).
  exists picked, kept.
  split; [unfold nms_sorted_bboxes; rewrite Hrun; reflexivity|].
  split; [exact Hsel|].
  destruct (nms_outer_all_kept kept thr agnostic (length kept) 0 []
              (kept_suppression_free _ _ _ _ _ Hns Hsel) ltac:(lia)) as [log' Hall].
  change (seq 0 0) with (@nil nat) in Hall. change (0 + length kept)%nat with (length kept) in Hall.
  unfold nms_sorted_bboxes, nms_run. rewrite Hall. reflexivity.
Qed.

(** ** The best candidate *)

(** The stages of [detect] on a well-formed network output. *)
Lemma detect_stages fconf_thres fnms_thres W H out :
  1 <= W <= int_max -> 1 <= H <= int_max ->
  well_formed_tensor (mat_data out) (mat_h out) (mat_w out) (mat_h out - 4) ->
  exists lb proposals sorted picked kept,
    letterbox W H = Some lb /\
    parse_yolov11_detections (mat_data out) fconf_thres (mat_h out) (mat_w out)
      (mat_h out - 4) 480 480 = Some proposals /\
    no_nan proposals /\
    qsort_descent_inplace proposals = Some sorted /\
    sorted ≡ₚ proposals /\ descending sorted /\
    nms_sorted_bboxes sorted fnms_thres false = Some picked /\
    (sorted <> [] -> exists rest, picked = 0%nat :: rest) /\
    select sorted picked = Some kept /\
    detect fconf_thres fnms_thres W H out = Some (0, map (map_back lb W H) kept).
Proof.
  intros HW HH Hwf.
  destruct (letterbox_spec W H HW HH) as (w0 & h0 & _ & _ & _ & _ & _ & Hlb).
  destruct (letterbox_in_pad W H _ Hlb) as [Ew Eh].
  destruct (parse_spec (mat_data out) fconf_thres (mat_h out) (mat_w out) (mat_h out - 4)
              480 480 Hwf) as (emit & Hparse & Hemit).
  set (proposals := omap emit (seq 0 (Z.to_nat (mat_w out)))) in *.
  assert (Hnn : no_nan proposals).
  { apply Forall_forall. intros o Ho.
    apply list_elem_of_omap in Ho as (i & Hi & Ho).
    apply elem_of_seq in Hi. destruct (Hemit i ltac:(lia)) as (k & m & _ & Hem).
    rewrite Ho in Hem. eapply emitted_prob_number, Hem. }
  destruct (qsort_descent_inplace_spec proposals Hnn) as (sorted & Hsort & Hperm & Hdesc).
  destruct (nms_run_inv sorted fnms_thres false) as (picked & log & Hrun & Hinv).
  destruct Hinv as (_ & _ & _ & kept & Hsel & _).
  assert (Hnms : nms_sorted_bboxes sorted fnms_thres false = Some picked)
    by (unfold nms_sorted_bboxes; rewrite Hrun; reflexivity).
  eexists _, proposals, sorted, picked, kept.
  split; [exact Hlb|]. split; [exact Hparse|]. split; [exact Hnn|].
  split; [exact Hsort|]. split; [exact Hperm|]. split; [exact Hdesc|].
  split; [exact Hnms|].
  split; [intros Hne; eapply nms_run_head; eassumption|].
  split; [exact Hsel|].
  unfold detect. rewrite Hlb. cbn [mbind option_bind]. rewrite Ew, Eh, Hparse.
  cbn [mbind option_bind]. rewrite Hsort. cbn [mbind option_bind].
  rewrite Hnms. cbn [mbind option_bind]. rewrite Hsel. reflexivity.
Qed.

(** X16. When the decoder emits no candidate, [detect] returns no object;
    when it emits at least one, [detect] returns at least one, and its
    first object carries the label and the probability of a candidate
    whose probability is the largest of all candidates. *)
Theorem detect_best_first (fconf_thres fnms_thres : float32)
    (img_w img_h : Z) (out : Mat) :
  1 <= img_w <= int_max -> 1 <= img_h <= int_max ->
  well_formed_tensor (mat_data out) (mat_h out) (mat_w out) (mat_h out - 4) ->
  exists proposals objects,
    parse_yolov11_detections (mat_data out) fconf_thres (mat_h out) (mat_w out)
      (mat_h out - 4) 480 480 = Some proposals /\
    detect fconf_thres fnms_thres img_w img_h out = Some (0, objects) /\
    (proposals = [] -> objects = []) /\
    (proposals <> [] ->
     exists o rest best,
       objects = o :: rest /\ best ∈ proposals /\
       prob o = prob best /\ label o = label best /\
       Forall (fun p => le (prob p) (prob best) = true) proposals).
Proof.
  intros HW HH Hwf.
  destruct (detect_stages fconf_thres fnms_thres img_w img_h out HW HH Hwf)
    as (lb & proposals & sorted & picked & kept & _ & Hparse & Hnn & _ & Hperm & Hdesc
        & _ & Hhead & Hsel & Hdet).
  exists proposals, (map (map_back lb img_w img_h) kept).
  split; [exact Hparse|]. split; [exact Hdet|]. split.
  - intros ->. apply Permutation_nil_r in Hperm as ->.
    unfold select in Hsel. apply mapM_Some in Hsel.
    destruct kept as [|k kept]; [reflexivity|].
    destruct picked as [|j picked]; [inversion Hsel|].
    apply Forall2_cons_1 in Hsel as [Hj _]. rewrite lookup_nil in Hj. discriminate.
  - intros Hne.
    assert (Hs : sorted <> []).
    { intros ->. apply Permutation_nil_l in Hperm. congruence. }
    destruct (Hhead Hs) as [prest ->].
    destruct sorted as [|best sorted]; [contradiction|].
    unfold select in Hsel. apply mapM_Some in Hsel.
    destruct kept as [|k kept]; [inversion Hsel|].
    apply Forall2_cons_1 in Hsel as [Hk _]. cbn in Hk. injection Hk as <-.
    exists (map_back lb img_w img_h best), (map (map_back lb img_w img_h) kept), best.
    split; [reflexivity|].
    split; [rewrite <- Hperm; apply list_elem_of_here|].
    split; [reflexivity|]. split; [reflexivity|].
    rewrite <- Hperm. constructor.
    + apply le_refl. unfold no_nan in Hnn. rewrite <- Hperm in Hnn.
      apply Forall_cons_1 in Hnn as [Hb _]. exact Hb.
    + apply descending_strongly, StronglySorted_inv in Hdesc as [_ Hall]. exact Hall.
Qed.

Lemma detect_best_first_witness :
  exists proposals objects,
    parse_yolov11_detections (mat_data (mkMat 1 5 sample_tensor)) thr_025 5 1 (5 - 4)
      480 480 = Some proposals /\
    detect thr_025 thr_045 640 425 (mkMat 1 5 sample_tensor) = Some (0, objects) /\
    (proposals = [] -> objects = []) /\
    (proposals <> [] ->
     exists o rest best,
       objects = o :: rest /\ best ∈ proposals /\
       prob o = prob best /\ label o = label best /\
       Forall (fun p => le (prob p) (prob best) = true) proposals).
Proof.
  apply (detect_best_first thr_025 thr_045 640 425 (mkMat 1 5 sample_tensor)).
  - unfold int_max. lia.
  - unfold int_max. lia.
  - apply sample_tensor_well_formed.
Defined.

(** ** Boxes that do not overlap *)

Lemma not_le_lt a b :
  is_nan a = false -> is_nan b = false -> le b a = false -> lt a b = true.
Proof.
  intros Ha Hb Hle. destruct (lt a b) eqn:Hlt; [reflexivity|].
  rewrite (not_lt_le a b Ha Hb Hlt) in Hle. discriminate.
Qed.

Lemma finite_not_nan a : is_finite a = true -> is_nan a = false.
Proof. destruct a; try discriminate; reflexivity. Qed.

(** A finite number that is not [<= 0] is a positive finite number. *)
Lemma positive_finite w :
  is_finite w = true -> le w zero = false -> exists m e, w = S754_finite false m e.
Proof.
  destruct w as [s|s| |s m e]; try discriminate; intros _ H.
  destruct s; [vm_compute in H; discriminate|eauto].
Qed.

(** [a - b] for [a <= b]. *)
Lemma sub_nonpos a b :
  valid a = true -> valid b = true -> is_finite a = true -> is_nan b = false ->
  le a b = true -> le (sub a b) zero = true.
Proof.
  intros Va Vb Fa Nb Hle.
  destruct a as [sa|sa| |sa ma ea], b as [sb|sb| |sb mb eb]; try discriminate;
    try (destruct sa, sb; try discriminate; reflexivity);
    try (destruct sb; try discriminate; reflexivity);
    try (destruct sa; try discriminate; reflexivity).
  rewrite sub_finite.
  apply (le_sval _ _ (Z.min ea eb)) in Hle; try assumption; try reflexivity;
    try (cbn [fits]; lia).
  set (v := sval (S754_finite sa ma ea) (Z.min ea eb)
            - sval (S754_finite sb mb eb) (Z.min ea eb)) in *.
  destruct (Z.eq_dec v 0) as [->|Hv]; [reflexivity|].
  apply has_sign_true_le, RN_sign_neg. lia.
Qed.

Lemma std_min_nonpos x y :
  le x zero = true -> le (std_min x y) zero = true.
Proof.
  intros Hx. unfold std_min. destruct (lt y x) eqn:Hlt; [|exact Hx].
  eapply le_trans; [apply lt_le, Hlt|exact Hx].
Qed.

(** Along one axis: when the first interval ends before the second one
    starts, the first one starts first and the width computed for the
    intersection is not positive. *)
Lemma axis_gap x1 w1 x2 w2 :
  valid x1 = true -> is_finite x1 = true -> valid w1 = true -> is_finite w1 = true ->
  valid x2 = true -> is_finite x2 = true ->
  le w1 zero = false -> ends_before x1 w1 x2 ->
  lt x1 x2 = true /\ le (std_min (sub w1 (sub x2 x1)) w2) zero = true.
Proof.
  intros V1 F1 Vw Fw V2 F2 Hpos (E & H1 & Hw & H2 & Hsum).
  destruct (positive_finite w1 Fw Hpos) as (mw & ew & ->).
  cbn [fits] in Hw. pose proof (sval_finite_pos mw ew E Hw) as Hwp.
  split.
  - apply not_le_lt; try (apply finite_not_nan; assumption).
    destruct (le x2 x1) eqn:Hle; [|reflexivity].
    apply (le_sval _ _ E) in Hle; try assumption. lia.
  - apply std_min_nonpos.
    assert (Hd : le (S754_finite false mw ew) (sub x2 x1) = true).
    { destruct x1 as [s1|s1| |s1 m1 e1]; try discriminate.
      - change (sval (S754_zero s1) E) with 0 in Hsum.
        rewrite (proj2 (sub_zero_r_le x2 s1 (S754_finite false mw ew)
                          (finite_not_nan _ F2))).
        apply (le_sval _ _ E); try assumption; try reflexivity; try lia.
      - cbn [fits] in H1.
        destruct (sub_fin_RN x2 s1 m1 e1 E V2 V1 F2 H2 H1) as (v & e & -> & He & Hv).
        rewrite <- (RN_sval false mw ew E Vw Hw).
        apply (RN_le _ _ _ _ E); try lia.
        rewrite Z.sub_diag. change (2 ^ 0) with 1. lia. }
    apply sub_nonpos; try assumption.
    + apply sub_valid; assumption.
    + apply (le_not_nan _ _ Hd).
Qed.

Lemma lt_asym a b : lt a b = true -> lt b a = false.
Proof. intros H. apply le_not_lt, lt_le, H. Qed.

(** [a & b] is the empty rectangle when the boxes are apart. *)
Lemma inter_apart a b :
  finite_box a -> finite_box b -> apart a b -> CV.inter a b = CV.Rect0.
Proof.
  intros ((Vax & Fax) & (Vay & Fay) & (Vaw & Faw) & (Vah & Fah))
         ((Vbx & Fbx) & (Vby & Fby) & (Vbw & Fbw) & (Vbh & Fbh)) Hap.
  unfold CV.inter.
  destruct (CV.empty a || CV.empty b) eqn:He; [reflexivity|].
  apply orb_false_iff in He as [Ha Hb]. unfold CV.empty in Ha, Hb.
  apply orb_false_iff in Ha as [Haw Hah]. apply orb_false_iff in Hb as [Hbw Hbh].
  cbv zeta.
  destruct Hap as [H|[H|[H|H]]].
  - destruct (axis_gap (rx a) (rwidth a) (rx b) (rwidth b)) as [Hlt Hw]; try assumption.
    rewrite Hlt. cbv iota.
    match goal with |- (if ?g then _ else _) = _ => destruct g end; [reflexivity|].
    unfold CV.empty. cbn [rwidth rheight]. rewrite Hw. reflexivity.
  - destruct (axis_gap (rx b) (rwidth b) (rx a) (rwidth a)) as [Hlt Hw]; try assumption.
    rewrite (lt_asym _ _ Hlt). cbv iota.
    match goal with |- (if ?g then _ else _) = _ => destruct g end; [reflexivity|].
    unfold CV.empty. cbn [rwidth rheight]. rewrite Hw. reflexivity.
  - destruct (axis_gap (ry a) (rheight a) (ry b) (rheight b)) as [Hlt Hh]; try assumption.
    rewrite Hlt. cbv iota.
    match goal with |- (if ?g then _ else _) = _ => destruct g end; [reflexivity|].
    unfold CV.empty. cbn [rwidth rheight]. rewrite Hh, orb_true_r. reflexivity.
  - destruct (axis_gap (ry b) (rheight b) (ry a) (rheight a)) as [Hlt Hh]; try assumption.
    rewrite (lt_asym _ _ Hlt). cbv iota.
    match goal with |- (if ?g then _ else _) = _ => destruct g end; [reflexivity|].
    unfold CV.empty. cbn [rwidth rheight]. rewrite Hh, orb_true_r. reflexivity.
Qed.

(** A quotient of [+0] is never above a threshold that is not negative. *)
Lemma div_zero_not_gt u thr :
  le zero thr = true -> gt (div zero u) thr = false.
Proof.
  intros Hthr. unfold gt.
  destruct u as [s|s| |s m e], thr as [st|st| |st mt et];
    try discriminate; try reflexivity;
    destruct st; try discriminate; destruct s; reflexivity.
Qed.

(** X2. Two boxes with finite fields of which one lies entirely to the
    left of, to the right of, above or below the other (in exact
    arithmetic) have the intersection area [+0], and the NMS test
    [IoU > nms_threshold] is false for them whenever the threshold is not
    negative. *)
Theorem apart_boxes_do_not_intersect (a b : Object) (thr : float32) :
  finite_box (rect a) -> finite_box (rect b) -> apart (rect a) (rect b) ->
  intersection_area a b = zero /\
  (le zero thr = true -> gt (IoU a b) thr = false).
Proof.
  intros Fa Fb Hap.
  assert (Hz : intersection_area a b = zero).
  { unfold intersection_area. rewrite inter_apart by assumption. reflexivity. }
  split; [exact Hz|].
  intros Hthr. unfold IoU. rewrite Hz. apply div_zero_not_gt, Hthr.
Qed.

Lemma apart_boxes_do_not_intersect_witness :
  intersection_area
    (mkObject (mkRect (of_int 10) (of_int 10) (of_int 40) (of_int 40)) 1 one)
    (mkObject (mkRect (of_int 200) (of_int 200) (of_int 40) (of_int 40)) 1 one) = zero /\
  (le zero thr_045 = true ->
   gt (IoU (mkObject (mkRect (of_int 10) (of_int 10) (of_int 40) (of_int 40)) 1 one)
           (mkObject (mkRect (of_int 200) (of_int 200) (of_int 40) (of_int 40)) 1 one))
      thr_045 = false).
Proof.
  apply (apart_boxes_do_not_intersect
           (mkObject (mkRect (of_int 10) (of_int 10) (of_int 40) (of_int 40)) 1 one)
           (mkObject (mkRect (of_int 200) (of_int 200) (of_int 40) (of_int 40)) 1 one)
           thr_045).
  - repeat split; reflexivity.
  - repeat split; reflexivity.
  - left. exists (-30). vm_compute. repeat split; discriminate.
Defined.

(** X7. When the boxes are finite and pairwise apart and the threshold is
    not negative, the NMS filter keeps every candidate, in either mode. *)
Theorem nms_apart_all_kept (objs : list Object) (thr : float32) (agnostic : bool) :
  Forall (fun o => finite_box (rect o)) objs ->
  (forall p q a b, (p < q)%nat -> objs !! p = Some b -> objs !! q = Some a ->
     apart (rect a) (rect b)) ->
  le zero thr = true ->
  nms_sorted_bboxes objs thr agnostic = Some (seq 0 (length objs)).
Proof.
  intros Hfin Hap Hthr.
  assert (Hfree : suppression_free objs thr agnostic).
  { intros p q a b Hpq Hb Ha _.
    unfold IoU, intersection_area. rewrite inter_apart.
    - apply div_zero_not_gt, Hthr.
    - apply (proj1 (Forall_forall _ _) Hfin). eapply list_elem_of_lookup_2, Ha.
    - apply (proj1 (Forall_forall _ _) Hfin). eapply list_elem_of_lookup_2, Hb.
    - eapply Hap; eassumption. }
  destruct (nms_outer_all_kept objs thr agnostic (length objs) 0 [] Hfree ltac:(lia))
    as [log' Hall].
  change (seq 0 0) with (@nil nat) in Hall.
  change (0 + length objs)%nat with (length objs) in Hall.
  unfold nms_sorted_bboxes, nms_run. rewrite Hall. reflexivity.
Qed.

Lemma nms_apart_all_kept_witness :
  nms_sorted_bboxes sample_objects thr_045 false = Some (seq 0 (length sample_objects)).
Proof.
  apply (nms_apart_all_kept sample_objects thr_045 false).
  - repeat constructor.
  - intros p q a b Hpq Hb Ha.
    destruct p as [|[|[|p]]]; destruct q as [|[|[|q]]]; try lia;
      try discriminate Hb; try discriminate Ha;
      injection Ha as <-; injection Hb as <-;
      right; left; exists (-30); vm_compute; repeat split; discriminate.
  - reflexivity.
Defined.
